(** * Pulse front end: tokenizer, parser and code generator

    A shallow embedding of [src/lexer/tokenizer.cpp], [src/parser/parser.cpp]
    and [src/compiler/compiler.cpp], followed by the properties of the
    design document that were checked against it.

    Conventions.
    - [size_t] cursors that index the source or the token vector are [nat]
      (they are bounded by the container's length); the [line] and [column]
      counters are [Z] with the 64-bit wrap-around written out ([wrap]).
    - A C++ method that may throw returns a [result]; the tokenizer, the
      parser and the compiler thread their object state explicitly.
    - A [while] loop of the tokenizer is the iterator [while_] run with as
      much fuel as there are characters (or stack entries) left; the [_exit]
      lemmas show that the loop condition is false when it stops, so the
      fuel is never what ends the loop.
    - The recursive-descent parser recurses on a budget [fuel] and returns
      [None] when the budget is spent; what is proved about it is proved
      for every budget above a stated bound. *)

From Stdlib Require Import ZArith Ascii String List Bool Lia Sorted.
From stdpp Require Import base gmap strings.
Import ListNotations.

Set Warnings "-register-all".
Local Open Scope string_scope.
Local Open Scope nat_scope.

(** ** Shared helpers *)

(** [while (cond) body;] with an iteration bound. *)
Fixpoint while_ {S : Type} (fuel : nat) (cond : S -> bool) (body : S -> S) (s : S) : S :=
  match fuel with
  | O => s
  | Datatypes.S fuel' => if cond s then while_ fuel' cond body (body s) else s
  end.

(** Arithmetic of [size_t] on a 64-bit target. *)
Definition wrap (z : Z) : Z := (z mod 2 ^ 64)%Z.

(** [s[i]]; [s[s.size()]] is the terminating NUL. *)
Definition char_at (s : string) (i : nat) : ascii :=
  match String.get i s with
  | Some c => c
  | None => "000"%char
  end.

Definition NUL : ascii := "000"%char.
Definition LF : ascii := "010"%char.
Definition SPACE : ascii := " "%char.
Definition DQUOTE : ascii := "034"%char.
Definition SQUOTE : ascii := "'"%char.
Definition BACKSLASH : ascii := "\"%char.

Definition code (c : ascii) : N := N_of_ascii c.

(** <cctype> in the default "C" locale. *)
Definition isspace (c : ascii) : bool :=
  ((9 <=? code c) && (code c <=? 13) || (code c =? 32))%N.
Definition isdigit (c : ascii) : bool :=
  ((48 <=? code c) && (code c <=? 57))%N.
Definition isalpha (c : ascii) : bool :=
  ((65 <=? code c) && (code c <=? 90) || (97 <=? code c) && (code c <=? 122))%N.
Definition isalnum (c : ascii) : bool := isalpha c || isdigit c.

(** ** include/lexer/token.hpp *)

Module lexer.

Inductive TokenType :=
  (* Literals *)
  | IDENTIFIER | STRING | INTEGER | FLOAT | BOOLEAN | NONE
  (* Operators *)
  | PLUS | MINUS | MULTIPLY | DIVIDE | FLOOR_DIVIDE | MODULO | POWER
  (* Comparison operators *)
  | EQUAL | NOT_EQUAL | LESS | LESS_EQUAL | GREATER | GREATER_EQUAL
  (* Logical operators *)
  | AND | OR | NOT
  (* Assignment *)
  | ASSIGN
  (* Delimiters *)
  | LPAREN | RPAREN | LBRACKET | RBRACKET | LBRACE | RBRACE | COMMA | COLON | DOT
  (* Keywords *)
  | IF | ELIF | ELSE | WHILE | FOR | IN | DEF | CLASS | RETURN | IMPORT | AS
  | MATCH | ASYNC | AWAIT
  (* Special *)
  | INDENT | DEDENT | NEWLINE | EOF_TOKEN
  (* Comments *)
  | COMMENT
  (* parser.cpp names [TokenType::FALSE] and [TokenType::TRUE], which the
     enumeration of token.hpp does not declare; they are kept here so that
     [Parser::primary] can be written as it stands.  The tokenizer never
     produces them. *)
  | FALSE | TRUE.

#[global] Instance TokenType_eq_dec : EqDecision TokenType.
Proof. solve_decision. Defined.

Definition TokenType_eqb (a b : TokenType) : bool := bool_decide (a = b).

(** The value of a [double] is kept symbolically: [stod_of text] stands for
    the binary64 number that [std::stod] reads from [text]. *)
Inductive double := stod_of (text : string).

(** [std::variant<std::string, int64_t, double, bool, std::monostate>] *)
Inductive variant :=
  | v_string (s : string)
  | v_int64 (z : Z)
  | v_double (d : double)
  | v_bool (b : bool)
  | monostate.

Record Token := mkToken {
  type : TokenType;
  lexeme : string;
  value : variant;
  line : Z;
  column : Z
}.

Definition getString (t : Token) : option string :=
  match value t with v_string s => Some s | _ => None end.
Definition getInteger (t : Token) : option Z :=
  match value t with v_int64 z => Some z | _ => None end.
Definition getFloat (t : Token) : option double :=
  match value t with v_double d => Some d | _ => None end.
Definition getBoolean (t : Token) : option bool :=
  match value t with v_bool b => Some b | _ => None end.

End lexer.

(** ** Exceptions and results *)

Inductive exception :=
  (* std::runtime_error, tokenizer.cpp *)
  | Unterminated_string (at_line : Z)
  | Invalid_indentation (at_line : Z)
  | Unexpected_character (c : ascii) (at_line : Z)
  (* std::out_of_range raised by std::stoll and std::stod *)
  | Out_of_range (text : string)
  (* std::runtime_error, Parser::error: token position and message *)
  | Parse_error (at_line at_column : Z) (message : string)
  (* std::runtime_error, Compiler::compile *)
  | Compile_error (message : string).

Inductive result (A : Type) :=
  | Ok (a : A)
  | Throw (e : exception).
Arguments Ok {A} a.
Arguments Throw {A} e.

(** ** src/lexer/tokenizer.cpp *)

Module Tokenizer.
Import lexer.

Record Tokenizer := mkTokenizer {
  source : string;
  current : nat;
  start : nat;
  line : Z;
  column : Z;
  indent_stack : list nat   (* std::vector, bottom first: [back] is the top *)
}.

(** Keyword mapping *)
Definition keywords : list (string * TokenType) :=
  [ ("if", IF); ("elif", ELIF); ("else", ELSE); ("while", WHILE); ("for", FOR);
    ("in", IN); ("def", DEF); ("class", CLASS); ("return", RETURN);
    ("import", IMPORT); ("as", AS); ("match", MATCH); ("async", ASYNC);
    ("await", AWAIT); ("and", AND); ("or", OR); ("not", NOT) ].

Fixpoint keywords_find (table : list (string * TokenType)) (text : string) : option TokenType :=
  match table with
  | [] => None
  | (k, ty) :: table' => if String.eqb k text then Some ty else keywords_find table' text
  end.

(** Characters still to be read: the bound of every scanning loop. *)
Definition remaining (t : Tokenizer) : nat := String.length (source t) - current t.

(** Helper methods *)
Definition isAtEnd (t : Tokenizer) : bool := String.length (source t) <=? current t.

Definition advance (t : Tokenizer) : ascii * Tokenizer :=
  if isAtEnd t then (NUL, t)
  else
    let c := char_at (source t) (current t) in
    let t := mkTokenizer (source t) (current t + 1) (start t) (line t) (column t) (indent_stack t) in
    if Ascii.eqb c LF
    then (c, mkTokenizer (source t) (current t) (start t) (wrap (line t + 1)) 0 (indent_stack t))
    else (c, mkTokenizer (source t) (current t) (start t) (line t) (wrap (column t + 1)) (indent_stack t)).

Definition peek (t : Tokenizer) : ascii :=
  if isAtEnd t then NUL else char_at (source t) (current t).

Definition peekNext (t : Tokenizer) : ascii :=
  if String.length (source t) <=? current t + 1 then NUL else char_at (source t) (current t + 1).

Definition match_ (expected : ascii) (t : Tokenizer) : bool * Tokenizer :=
  if isAtEnd t then (false, t)
  else if negb (Ascii.eqb (char_at (source t) (current t)) expected) then (false, t)
  else (true, mkTokenizer (source t) (current t + 1) (start t) (line t)
                (wrap (column t + 1)) (indent_stack t)).

Definition skipWhitespace (t : Tokenizer) : Tokenizer :=
  while_ (remaining t)
    (fun t => negb (isAtEnd t) && isspace (peek t) && negb (Ascii.eqb (peek t) LF))
    (fun t => snd (advance t)) t.

Definition skipComment (t : Tokenizer) : Tokenizer :=
  while_ (remaining t)
    (fun t => negb (isAtEnd t) && negb (Ascii.eqb (peek t) LF))
    (fun t => snd (advance t)) t.

(** [source.substr(start, current - start)] and the token's column. *)
Definition token_text (t : Tokenizer) : string :=
  String.substring (start t) (current t - start t) (source t).
Definition token_column (t : Tokenizer) : Z :=
  wrap (column t - Z.of_nat (current t - start t)).

Definition makeToken (type : TokenType) (t : Tokenizer) : Token :=
  mkToken type (token_text t) monostate (line t) (token_column t).

(** The four overloads that also store a value. *)
Definition makeToken_value (type : TokenType) (value : variant) (t : Tokenizer) : Token :=
  mkToken type (token_text t) value (line t) (token_column t).

(** Token parsing methods *)
Definition string_ (t : Tokenizer) : result (Token * Tokenizer) :=
  let quote := peek t in
  let t := snd (advance t) in   (* consume opening quote *)
  let t :=
    while_ (remaining t)
      (fun t => negb (isAtEnd t) && negb (Ascii.eqb (peek t) quote))
      (fun t =>
         if Ascii.eqb (peek t) BACKSLASH then
           let t := snd (advance t) in                    (* consume backslash *)
           if negb (isAtEnd t) then snd (advance t) else t  (* consume escaped character *)
         else snd (advance t)) t in
  if isAtEnd t then Throw (Unterminated_string (line t))
  else
    let t := snd (advance t) in   (* consume closing quote *)
    let value := String.substring (start t + 1) (current t - start t - 2) (source t) in
    Ok (makeToken_value STRING (v_string value) t, t).

Definition scan_digits (t : Tokenizer) : Tokenizer :=
  while_ (remaining t)
    (fun t => negb (isAtEnd t) && isdigit (peek t))
    (fun t => snd (advance t)) t.

Fixpoint decimal (text : string) (acc : Z) : Z :=
  match text with
  | EmptyString => acc
  | String c text' => decimal text' (10 * acc + Z.of_N (code c - 48))%Z
  end.

(** [std::stoll] on a string of decimal digits. *)
Definition stoll (text : string) : result Z :=
  let z := decimal text 0 in
  if (z <=? 2 ^ 63 - 1)%Z then Ok z else Throw (Out_of_range text).

Section Stod.

(** [std::stod] throws [std::out_of_range] when [strtod] reports ERANGE;
    which decimal texts do so belongs to the C library, so it is a
    parameter here. *)
Variable stod_erange : string -> bool.

Definition stod (text : string) : result double :=
  if stod_erange text then Throw (Out_of_range text) else Ok (stod_of text).

Definition number (t : Tokenizer) : result (Token * Tokenizer) :=
  let t := scan_digits t in
  (* Look for decimal part *)
  if negb (isAtEnd t) && Ascii.eqb (peek t) "."%char && isdigit (peekNext t) then
    let t := snd (advance t) in   (* consume '.' *)
    let t := scan_digits t in
    match stod (token_text t) with
    | Throw e => Throw e
    | Ok value => Ok (makeToken_value FLOAT (v_double value) t, t)
    end
  else
    match stoll (token_text t) with
    | Throw e => Throw e
    | Ok value => Ok (makeToken_value INTEGER (v_int64 value) t, t)
    end.

Definition identifier (t : Tokenizer) : result (Token * Tokenizer) :=
  let t :=
    while_ (remaining t)
      (fun t => negb (isAtEnd t) && (isalnum (peek t) || Ascii.eqb (peek t) "_"%char))
      (fun t => snd (advance t)) t in
  let text := token_text t in
  (* Check if it's a keyword *)
  match keywords_find keywords text with
  | Some ty => Ok (makeToken ty t, t)
  | None =>
    (* Check for boolean literals *)
    if String.eqb text "True" then Ok (makeToken_value BOOLEAN (v_bool true) t, t)
    else if String.eqb text "False" then Ok (makeToken_value BOOLEAN (v_bool false) t, t)
    else if String.eqb text "None" then Ok (makeToken NONE t, t)
    else Ok (makeToken IDENTIFIER t, t)
  end.

(** [std::vector<size_t>] operations on the indentation stack. *)
Definition back (v : list nat) : nat := List.last v 0.
Definition pop_back (v : list nat) : list nat := List.removelast v.
Definition push_back (v : list nat) (x : nat) : list nat := (v ++ [x])%list.
Definition empty (v : list nat) : bool := match v with [] => true | _ => false end.

(** The counting loop of handleIndentation: (indent_level, temp_current). *)
Definition count_indent (t : Tokenizer) : nat * nat :=
  while_ (remaining t)
    (fun s => (snd s <? String.length (source t)) && Ascii.eqb (char_at (source t) (snd s)) SPACE)
    (fun s => (fst s + 1, snd s + 1))
    (0, current t).

(** The popping loop of handleIndentation: (indent_stack, dedent_tokens). *)
Definition pop_dedents (spaces : nat) (dedent : Token) (stack : list nat) : list nat * list Token :=
  while_ (List.length stack)
    (fun s => negb (empty (fst s)) && (spaces <? back (fst s)))
    (fun s => (pop_back (fst s), (snd s ++ [dedent])%list))
    (stack, []).

Definition set_indent_stack (t : Tokenizer) (stack : list nat) : Tokenizer :=
  mkTokenizer (source t) (current t) (start t) (line t) (column t) stack.

Definition handleIndentation (t : Tokenizer) : result (Token * Tokenizer) :=
  let indent_level := fst (count_indent t) in
  if negb (indent_level mod 4 =? 0) then Throw (Invalid_indentation (line t))
  else
    let spaces := indent_level / 4 in
    if empty (indent_stack t) || (back (indent_stack t) <? spaces) then
      Ok (mkToken INDENT EmptyString monostate (line t) (column t),
          set_indent_stack t (push_back (indent_stack t) spaces))
    else if spaces <? back (indent_stack t) then
      let '(stack, dedent_tokens) :=
        pop_dedents spaces (mkToken DEDENT EmptyString monostate (line t) (column t))
                    (indent_stack t) in
      if empty stack || negb (back stack =? spaces) then Throw (Invalid_indentation (line t))
      else
        (* Return the first dedent token, others will be handled in subsequent calls *)
        Ok (List.hd (mkToken DEDENT EmptyString monostate (line t) (column t)) dedent_tokens,
            set_indent_stack t stack)
    else Ok (mkToken NEWLINE EmptyString monostate (line t) (column t), t).

(** [current = start; column = column - 1;] *)
Definition reset_to_start (t : Tokenizer) : Tokenizer :=
  mkTokenizer (source t) (start t) (start t) (line t) (wrap (column t - 1)) (indent_stack t).

Definition Tokenizer_new (source : string) : Tokenizer :=
  mkTokenizer source 0 0 1 0 (push_back [] 0).

Definition nextToken (t : Tokenizer) : result (Token * Tokenizer) :=
  let t := skipWhitespace t in
  if isAtEnd t then Ok (mkToken EOF_TOKEN EmptyString monostate (line t) (column t), t)
  else
    let t := mkTokenizer (source t) (current t) (current t) (line t) (column t) (indent_stack t) in
    let '(c, t) := advance t in
    (* Handle newlines and indentation *)
    if Ascii.eqb c LF then handleIndentation t
    (* Handle comments *)
    else if Ascii.eqb c "#"%char then let t := skipComment t in Ok (makeToken COMMENT t, t)
    (* Handle string literals *)
    else if Ascii.eqb c DQUOTE || Ascii.eqb c SQUOTE then string_ (reset_to_start t)
    (* Handle numbers *)
    else if isdigit c then number (reset_to_start t)
    (* Handle identifiers and keywords *)
    else if isalpha c || Ascii.eqb c "_"%char then identifier (reset_to_start t)
    (* Handle operators and delimiters *)
    else if Ascii.eqb c "("%char then Ok (makeToken LPAREN t, t)
    else if Ascii.eqb c ")"%char then Ok (makeToken RPAREN t, t)
    else if Ascii.eqb c "["%char then Ok (makeToken LBRACKET t, t)
    else if Ascii.eqb c "]"%char then Ok (makeToken RBRACKET t, t)
    else if Ascii.eqb c "{"%char then Ok (makeToken LBRACE t, t)
    else if Ascii.eqb c "}"%char then Ok (makeToken RBRACE t, t)
    else if Ascii.eqb c ","%char then Ok (makeToken COMMA t, t)
    else if Ascii.eqb c "."%char then Ok (makeToken DOT t, t)
    else if Ascii.eqb c ":"%char then Ok (makeToken COLON t, t)
    else if Ascii.eqb c "="%char then
      let '(m, t) := match_ "="%char t in
      if m then Ok (makeToken EQUAL t, t) else Ok (makeToken ASSIGN t, t)
    else if Ascii.eqb c "!"%char then
      let '(m, t) := match_ "="%char t in
      if m then Ok (makeToken NOT_EQUAL t, t) else Throw (Unexpected_character c (line t))
    else if Ascii.eqb c "<"%char then
      let '(m, t) := match_ "="%char t in
      if m then Ok (makeToken LESS_EQUAL t, t) else Ok (makeToken LESS t, t)
    else if Ascii.eqb c ">"%char then
      let '(m, t) := match_ "="%char t in
      if m then Ok (makeToken GREATER_EQUAL t, t) else Ok (makeToken GREATER t, t)
    else if Ascii.eqb c "+"%char then Ok (makeToken PLUS t, t)
    else if Ascii.eqb c "-"%char then Ok (makeToken MINUS t, t)
    else if Ascii.eqb c "*"%char then
      let '(m, t) := match_ "*"%char t in
      if m then Ok (makeToken POWER t, t) else Ok (makeToken MULTIPLY t, t)
    else if Ascii.eqb c "/"%char then
      let '(m, t) := match_ "/"%char t in
      if m then Ok (makeToken FLOOR_DIVIDE t, t) else Ok (makeToken DIVIDE t, t)
    else if Ascii.eqb c "%"%char then Ok (makeToken MODULO t, t)
    else Throw (Unexpected_character c (line t)).

(** The [do ... while (token.type != EOF_TOKEN)] loop of [tokenize]; [None]
    stands for a loop that is still running when the fuel is spent. *)
Fixpoint tokenize_loop (fuel : nat) (t : Tokenizer) (tokens : list Token)
  : option (result (list Token * Tokenizer)) :=
  match fuel with
  | O => None
  | S fuel' =>
    match nextToken t with
    | Throw e => Some (Throw e)
    | Ok (token, t') =>
      let tokens := (tokens ++ [token])%list in
      if TokenType_eqb (type token) EOF_TOKEN then Some (Ok (tokens, t'))
      else tokenize_loop fuel' t' tokens
    end
  end.

(** Every call of [nextToken] that does not return EOF reads a character,
    so one round more than the characters left is enough
    (see [tokenize_loop_enough]). *)
Definition tokenize_from (t : Tokenizer) : option (result (list Token * Tokenizer)) :=
  tokenize_loop (S (remaining t)) t [].

Definition tokenize (source : string) : option (result (list Token)) :=
  match tokenize_from (Tokenizer_new source) with
  | None => None
  | Some (Throw e) => Some (Throw e)
  | Some (Ok (tokens, _)) => Some (Ok tokens)
  end.

(** The tokenizer after [n] successive calls of [nextToken] that all
    returned normally. *)
Fixpoint nextToken_n (n : nat) (t : Tokenizer) : option Tokenizer :=
  match n with
  | O => Some t
  | S n' =>
    match nextToken_n n' t with
    | Some t' =>
      match nextToken t' with
      | Ok (_, t'') => Some t''
      | Throw _ => None
      end
    | None => None
    end
  end.

End Stod.

End Tokenizer.

(** ** Vocabulary for the tokenizer's properties *)

Module TokenizerProps.
Import lexer Tokenizer.

(** [t'] is [t] after some scanning: same text, same token start, same
    indentation stack, cursor not moved back. *)
Definition extends (t t' : Tokenizer) : Prop :=
  source t' = source t /\ start t' = start t /\
  indent_stack t' = indent_stack t /\ current t <= current t'.

(** The indentation stack is never empty, has base level 0 at the bottom,
    and is strictly increasing from bottom to top. *)
Definition stack_ok (v : list nat) : Prop :=
  (exists rest, v = 0 :: rest) /\ StronglySorted lt v.

(** Token types other than EOF and STRING. *)
Definition plain_type (ty : TokenType) : Prop := ty <> EOF_TOKEN /\ ty <> STRING.

(** The state in which [nextToken] dispatches on the character it read. *)
Definition at_token_start (t : Tokenizer) : Tokenizer :=
  let t1 := skipWhitespace t in
  mkTokenizer (source t1) (current t1) (current t1) (line t1) (column t1) (indent_stack t1).

(** The exceptions that the tokenizer itself raises. *)
Definition lexical_error (e : exception) : Prop :=
  match e with
  | Unterminated_string _ | Invalid_indentation _ | Unexpected_character _ _
  | Out_of_range _ => True
  | Parse_error _ _ _ | Compile_error _ => False
  end.

(** A token sequence whose last element is its only EOF token. *)
Definition ends_in_single_eof (tokens : list Token) : Prop :=
  exists front eof,
    tokens = (front ++ [eof])%list /\ type eof = EOF_TOKEN /\
    Forall (fun t => type t <> EOF_TOKEN) front.

(** Characters that raise no lexical error wherever they stand: blanks
    other than the line feed, letters, the underscore, and the operator and
    delimiter characters other than [!].  (A line feed starts the
    indentation check, a quote a string literal, a digit a number, and
    [!] must be followed by [=].) *)
Definition never_fails (c : ascii) : bool :=
  isspace c && negb (Ascii.eqb c LF)
  || isalpha c || Ascii.eqb c "_"%char
  || Ascii.eqb c "("%char || Ascii.eqb c ")"%char
  || Ascii.eqb c "["%char || Ascii.eqb c "]"%char
  || Ascii.eqb c "{"%char || Ascii.eqb c "}"%char
  || Ascii.eqb c ","%char || Ascii.eqb c "."%char || Ascii.eqb c ":"%char
  || Ascii.eqb c "="%char || Ascii.eqb c "<"%char || Ascii.eqb c ">"%char
  || Ascii.eqb c "+"%char || Ascii.eqb c "-"%char || Ascii.eqb c "*"%char
  || Ascii.eqb c "/"%char || Ascii.eqb c "%"%char.

Definition all_never_fail (source : string) : Prop :=
  forall i, i < String.length source -> never_fails (char_at source i) = true.

End TokenizerProps.

(** ** include/parser/ast.hpp *)

Module parser.
Import lexer.

Module BinaryOp.
Inductive Operator :=
  | ADD | SUBTRACT | MULTIPLY | DIVIDE | FLOOR_DIVIDE | MODULO | POWER
  | EQUAL | NOT_EQUAL | LESS | LESS_EQUAL | GREATER | GREATER_EQUAL
  | AND | OR.
End BinaryOp.

Module UnaryOp.
Inductive Operator := PLUS | MINUS | NOT.
End UnaryOp.

(** [std::unique_ptr] children are owned subterms; the one pointer that may
    be null in a finished tree, [ReturnStatement::value], is an [option]. *)
Inductive Expression :=
  | LiteralExpression (value : variant)
  | IdentifierExpression (name : string)
  | BinaryExpression (op : BinaryOp.Operator) (left right : Expression)
  | UnaryExpression (op : UnaryOp.Operator) (operand : Expression)
  | CallExpression (callee : Expression) (arguments : list Expression)
  | AttributeExpression (object : Expression) (attribute : string)
  | SubscriptExpression (object index : Expression)
  | ListExpression (elements : list Expression)
  | DictExpression (pairs : list (Expression * Expression))
  | TupleExpression (elements : list Expression).

Inductive Statement :=
  | AssignmentStatement (name : string) (value : Expression)
  | ExpressionStatement (expression : Expression)
  | ReturnStatement (value : option Expression)
  | IfStatement (branches : list (Expression * list Statement)) (else_body : list Statement)
  | WhileStatement (condition : Expression) (body : list Statement)
  | ForStatement (variable : string) (iterable : Expression) (body : list Statement)
  | MatchStatement (value : Expression) (cases : list (Expression * list Statement)).

Inductive Declaration :=
  | FunctionDeclaration (name : string) (parameters : list string)
                        (body : list Statement) (is_async : bool)
  | ClassDeclaration (name : string) (base_class : string) (members : list Declaration)
  | ImportDeclaration (module : string) (alias : string).

Record Program := mkProgram {
  declarations : list Declaration;
  statements : list Statement
}.

End parser.

(** ** src/parser/parser.cpp *)

Module Parser.
Import lexer parser.

(** A parsing method is a function of the cursor [current]; it returns
    [None] when the recursion budget [fuel] is spent, [Some (Throw e)] when
    [Parser::error] throws, and otherwise its value and the new cursor. *)
Definition P (A : Type) : Type := nat -> option (result (A * nat)).

Definition ret {A} (a : A) : P A := fun current => Some (Ok (a, current)).
Definition bind {A B} (m : P A) (k : A -> P B) : P B :=
  fun current =>
    match m current with
    | None => None
    | Some (Throw e) => Some (Throw e)
    | Some (Ok (a, current')) => k a current'
    end.
Definition out_of_fuel {A} : P A := fun _ => None.
Definition get_current : P nat := fun current => Some (Ok (current, current)).
Definition set_current (c : nat) : P unit := fun _ => Some (Ok (tt, c)).

Notation "x <- m ;; k" := (bind m (fun x => k))
  (at level 100, m at next level, right associativity).
Notation "m ;;; k" := (bind m (fun _ => k))
  (at level 100, right associativity).

Section WithTokens.

Variable tokens : list Token.

(** [tokens.back()]; undefined on an empty vector, where the model reads an
    EOF token at position 0:0. *)
Definition tokens_back : Token :=
  List.last tokens (mkToken EOF_TOKEN EmptyString monostate 0 0).
(** [tokens[i]]; an index past the end is undefined in C++ and reads
    [tokens_back] here. *)
Definition tokens_at (i : nat) : Token := List.nth i tokens tokens_back.

(** Helper methods (parser.hpp, parser.cpp) *)
Definition isAtEnd (current : nat) : bool := List.length tokens <=? current.
Definition peek (current : nat) : Token :=
  if isAtEnd current then tokens_back else tokens_at current.
Definition advance : P Token :=
  fun current =>
    if isAtEnd current then Some (Ok (tokens_back, current))
    else Some (Ok (tokens_at current, current + 1)).
Definition check (ty : TokenType) : P bool :=
  fun current =>
    if isAtEnd current then Some (Ok (false, current))
    else Some (Ok (TokenType_eqb (type (peek current)) ty, current)).
Definition match_ (ty : TokenType) : P bool :=
  c <- check ty ;;
  if (c : bool) then advance ;;; ret true else ret false.
Definition error {A} (token : Token) (message : string) : P A :=
  fun _ => Some (Throw (Parse_error (lexer.line token) (lexer.column token) message)).
Definition peek_ : P Token := fun current => Some (Ok (peek current, current)).
Definition consume (ty : TokenType) (message : string) : P unit :=
  c <- check ty ;;
  if (c : bool) then advance ;;; ret tt
  else token <- peek_ ;; error token message.
Definition isAtEnd_ : P bool := fun current => Some (Ok (isAtEnd current, current)).

(** [match(a) || match(b) || ...] *)
Fixpoint match_any (tys : list TokenType) : P bool :=
  match tys with
  | [] => ret false
  | ty :: tys' => m <- match_ ty ;; if (m : bool) then ret true else match_any tys'
  end.
(** [tokens[current - 1]] *)
Definition previous : P Token := fun current => Some (Ok (tokens_at (current - 1), current)).

Definition equality_op (ty : TokenType) : BinaryOp.Operator :=
  match ty with EQUAL => BinaryOp.EQUAL | _ => BinaryOp.NOT_EQUAL end.
Definition comparison_op (ty : TokenType) : BinaryOp.Operator :=
  match ty with
  | LESS => BinaryOp.LESS
  | LESS_EQUAL => BinaryOp.LESS_EQUAL
  | GREATER => BinaryOp.GREATER
  | GREATER_EQUAL => BinaryOp.GREATER_EQUAL
  | _ => BinaryOp.LESS
  end.
Definition term_op (ty : TokenType) : BinaryOp.Operator :=
  match ty with PLUS => BinaryOp.ADD | _ => BinaryOp.SUBTRACT end.
Definition factor_op (ty : TokenType) : BinaryOp.Operator :=
  match ty with
  | MULTIPLY => BinaryOp.MULTIPLY
  | DIVIDE => BinaryOp.DIVIDE
  | FLOOR_DIVIDE => BinaryOp.FLOOR_DIVIDE
  | MODULO => BinaryOp.MODULO
  | _ => BinaryOp.MULTIPLY
  end.
Definition unary_op (ty : TokenType) : UnaryOp.Operator :=
  match ty with MINUS => UnaryOp.MINUS | _ => UnaryOp.NOT end.

(** The expression grammar.  Every method and every loop iteration spends
    one unit of [fuel]; the [_loop] functions are the [while] loops of the
    method of the same name, and [expression_list] is the
    [do { v.push_back(expression()); } while (match(COMMA));] loop that
    finishCall, listExpression and tupleExpression each contain. *)
Fixpoint expression (fuel : nat) {struct fuel} : P Expression :=
  match fuel with
  | O => out_of_fuel
  | S fuel => logicalOr fuel
  end

with logicalOr (fuel : nat) {struct fuel} : P Expression :=
  match fuel with
  | O => out_of_fuel
  | S fuel => expr <- logicalAnd fuel ;; logicalOr_loop fuel expr
  end
with logicalOr_loop (fuel : nat) (expr : Expression) {struct fuel} : P Expression :=
  match fuel with
  | O => out_of_fuel
  | S fuel =>
    m <- match_ OR ;;
    if (m : bool) then
      right <- logicalAnd fuel ;;
      logicalOr_loop fuel (BinaryExpression BinaryOp.OR expr right)
    else ret expr
  end

with logicalAnd (fuel : nat) {struct fuel} : P Expression :=
  match fuel with
  | O => out_of_fuel
  | S fuel => expr <- equality fuel ;; logicalAnd_loop fuel expr
  end
with logicalAnd_loop (fuel : nat) (expr : Expression) {struct fuel} : P Expression :=
  match fuel with
  | O => out_of_fuel
  | S fuel =>
    m <- match_ AND ;;
    if (m : bool) then
      right <- equality fuel ;;
      logicalAnd_loop fuel (BinaryExpression BinaryOp.AND expr right)
    else ret expr
  end

with equality (fuel : nat) {struct fuel} : P Expression :=
  match fuel with
  | O => out_of_fuel
  | S fuel => expr <- comparison fuel ;; equality_loop fuel expr
  end
with equality_loop (fuel : nat) (expr : Expression) {struct fuel} : P Expression :=
  match fuel with
  | O => out_of_fuel
  | S fuel =>
    m <- match_any [EQUAL; NOT_EQUAL] ;;
    if (m : bool) then
      operator_token <- previous ;;
      right <- comparison fuel ;;
      equality_loop fuel (BinaryExpression (equality_op (type operator_token)) expr right)
    else ret expr
  end

with comparison (fuel : nat) {struct fuel} : P Expression :=
  match fuel with
  | O => out_of_fuel
  | S fuel => expr <- term fuel ;; comparison_loop fuel expr
  end
with comparison_loop (fuel : nat) (expr : Expression) {struct fuel} : P Expression :=
  match fuel with
  | O => out_of_fuel
  | S fuel =>
    m <- match_any [LESS; LESS_EQUAL; GREATER; GREATER_EQUAL] ;;
    if (m : bool) then
      operator_token <- previous ;;
      right <- term fuel ;;
      comparison_loop fuel (BinaryExpression (comparison_op (type operator_token)) expr right)
    else ret expr
  end

with term (fuel : nat) {struct fuel} : P Expression :=
  match fuel with
  | O => out_of_fuel
  | S fuel => expr <- factor fuel ;; term_loop fuel expr
  end
with term_loop (fuel : nat) (expr : Expression) {struct fuel} : P Expression :=
  match fuel with
  | O => out_of_fuel
  | S fuel =>
    m <- match_any [PLUS; MINUS] ;;
    if (m : bool) then
      operator_token <- previous ;;
      right <- factor fuel ;;
      term_loop fuel (BinaryExpression (term_op (type operator_token)) expr right)
    else ret expr
  end

with factor (fuel : nat) {struct fuel} : P Expression :=
  match fuel with
  | O => out_of_fuel
  | S fuel => expr <- power fuel ;; factor_loop fuel expr
  end
with factor_loop (fuel : nat) (expr : Expression) {struct fuel} : P Expression :=
  match fuel with
  | O => out_of_fuel
  | S fuel =>
    m <- match_any [MULTIPLY; DIVIDE; FLOOR_DIVIDE; MODULO] ;;
    if (m : bool) then
      operator_token <- previous ;;
      right <- power fuel ;;
      factor_loop fuel (BinaryExpression (factor_op (type operator_token)) expr right)
    else ret expr
  end

with power (fuel : nat) {struct fuel} : P Expression :=
  match fuel with
  | O => out_of_fuel
  | S fuel => expr <- unary fuel ;; power_loop fuel expr
  end
with power_loop (fuel : nat) (expr : Expression) {struct fuel} : P Expression :=
  match fuel with
  | O => out_of_fuel
  | S fuel =>
    m <- match_ POWER ;;
    if (m : bool) then
      right <- unary fuel ;;
      power_loop fuel (BinaryExpression BinaryOp.POWER expr right)
    else ret expr
  end

with unary (fuel : nat) {struct fuel} : P Expression :=
  match fuel with
  | O => out_of_fuel
  | S fuel =>
    m <- match_any [MINUS; lexer.NOT] ;;
    if (m : bool) then
      operator_token <- previous ;;
      operand <- unary fuel ;;
      ret (UnaryExpression (unary_op (type operator_token)) operand)
    else primary fuel
  end

with primary (fuel : nat) {struct fuel} : P Expression :=
  match fuel with
  | O => out_of_fuel
  | S fuel =>
    m <- match_ FALSE ;;
    if (m : bool) then ret (LiteralExpression (v_bool false)) else
    m <- match_ TRUE ;;
    if (m : bool) then ret (LiteralExpression (v_bool true)) else
    m <- match_ NONE ;;
    if (m : bool) then ret (LiteralExpression monostate) else
    (* a literal test falls through, with its token consumed, when the
       token does not hold a value of the tested alternative *)
    m <- match_ INTEGER ;;
    value <- (if (m : bool) then token <- previous ;; ret (getInteger token) else ret None) ;;
    match value with
    | Some value => ret (LiteralExpression (v_int64 value))
    | None =>
    m <- match_ FLOAT ;;
    value <- (if (m : bool) then token <- previous ;; ret (getFloat token) else ret None) ;;
    match value with
    | Some value => ret (LiteralExpression (v_double value))
    | None =>
    m <- match_ STRING ;;
    value <- (if (m : bool) then token <- previous ;; ret (getString token) else ret None) ;;
    match value with
    | Some value => ret (LiteralExpression (v_string value))
    | None =>
    m <- match_ IDENTIFIER ;;
    if (m : bool) then
      token <- previous ;;
      ret (IdentifierExpression (lexeme token))
    else
    m <- match_ LPAREN ;;
    if (m : bool) then
      expr <- expression fuel ;;
      consume RPAREN "Expect ')' after expression." ;;;
      ret expr
    else
    m <- match_ LBRACKET ;;
    if (m : bool) then listExpression fuel else
    m <- match_ LBRACE ;;
    if (m : bool) then dictExpression fuel else
    token <- peek_ ;;
    error token "Expect expression."
    end end end
  end

with expression_list (fuel : nat) (elements : list Expression) {struct fuel} : P (list Expression) :=
  match fuel with
  | O => out_of_fuel
  | S fuel =>
    e <- expression fuel ;;
    let elements := (elements ++ [e])%list in
    m <- match_ COMMA ;;
    if (m : bool) then expression_list fuel elements else ret elements
  end

with listExpression (fuel : nat) {struct fuel} : P Expression :=
  match fuel with
  | O => out_of_fuel
  | S fuel =>
    c <- check RBRACKET ;;
    elements <- (if negb c then expression_list fuel [] else ret []) ;;
    consume RBRACKET "Expect ']' after list elements." ;;;
    ret (ListExpression elements)
  end

with dictExpression (fuel : nat) {struct fuel} : P Expression :=
  match fuel with
  | O => out_of_fuel
  | S fuel =>
    c <- check RBRACE ;;
    pairs <- (if negb c then dictExpression_loop fuel [] else ret []) ;;
    consume RBRACE "Expect '}' after dictionary pairs." ;;;
    ret (DictExpression pairs)
  end
with dictExpression_loop (fuel : nat) (pairs : list (Expression * Expression))
  {struct fuel} : P (list (Expression * Expression)) :=
  match fuel with
  | O => out_of_fuel
  | S fuel =>
    key <- expression fuel ;;
    consume COLON "Expect ':' after key." ;;;
    value <- expression fuel ;;
    let pairs := (pairs ++ [(key, value)])%list in
    m <- match_ COMMA ;;
    if (m : bool) then dictExpression_loop fuel pairs else ret pairs
  end.

(** [Parser::call] and [Parser::finishCall]: the postfix chain.  No other
    method of the parser calls [call]; [unary] goes straight to [primary]. *)
Definition finishCall (fuel : nat) (callee : Expression) : P Expression :=
  c <- check RPAREN ;;
  arguments <- (if negb c then expression_list fuel [] else ret []) ;;
  consume RPAREN "Expect ')' after arguments." ;;;
  ret (CallExpression callee arguments).

Fixpoint call_loop (fuel : nat) (expr : Expression) {struct fuel} : P Expression :=
  match fuel with
  | O => out_of_fuel
  | S fuel =>
    m <- match_ LPAREN ;;
    if (m : bool) then
      expr <- finishCall fuel expr ;; call_loop fuel expr
    else
    m <- match_ DOT ;;
    if (m : bool) then
      consume IDENTIFIER "Expect property name after '.'." ;;;
      token <- previous ;;
      call_loop fuel (AttributeExpression expr (lexeme token))
    else
    m <- match_ LBRACKET ;;
    if (m : bool) then
      index <- expression fuel ;;
      consume RBRACKET "Expect ']' after index." ;;;
      call_loop fuel (SubscriptExpression expr index)
    else ret expr
  end.

Definition call (fuel : nat) : P Expression :=
  expr <- primary fuel ;; call_loop fuel expr.

Definition tupleExpression (fuel : nat) : P Expression :=
  c <- check RPAREN ;;
  elements <- (if negb c then expression_list fuel [] else ret []) ;;
  consume RPAREN "Expect ')' after tuple elements." ;;;
  ret (TupleExpression elements).

(** Statement parsing implementations *)
Definition returnStatement (fuel : nat) : P Statement :=
  n <- check NEWLINE ;;
  d <- check DEDENT ;;
  if negb n && negb d then
    value <- expression fuel ;; ret (ReturnStatement (Some value))
  else ret (ReturnStatement None).

Definition assignmentStatement (fuel : nat) : P Statement :=
  consume IDENTIFIER "Expect variable name." ;;;
  token <- previous ;;
  let name := lexeme token in
  consume ASSIGN "Expect '=' after variable name." ;;;
  value <- expression fuel ;;
  ret (AssignmentStatement name value).

Definition expressionStatement (fuel : nat) : P Statement :=
  expr <- expression fuel ;; ret (ExpressionStatement expr).

(** [statement] always returns a node or throws, so the [else break] of the
    loops that test its result is never taken and is left out. *)
Fixpoint statement (fuel : nat) {struct fuel} : P Statement :=
  match fuel with
  | O => out_of_fuel
  | S fuel =>
    m <- match_ IF ;;
    if (m : bool) then ifStatement fuel else
    m <- match_ WHILE ;;
    if (m : bool) then whileStatement fuel else
    m <- match_ FOR ;;
    if (m : bool) then forStatement fuel else
    m <- match_ MATCH ;;
    if (m : bool) then matchStatement fuel else
    m <- match_ RETURN ;;
    if (m : bool) then returnStatement fuel else
    (* Check for assignment (identifier = expression) *)
    token <- peek_ ;;
    if TokenType_eqb (type token) IDENTIFIER && negb (TokenType_eqb (type token) EOF_TOKEN) then
      temp_current <- get_current ;;
      advance ;;;   (* consume identifier *)
      token <- peek_ ;;
      if TokenType_eqb (type token) ASSIGN then
        set_current temp_current ;;;   (* reset *)
        assignmentStatement fuel
      else
        set_current temp_current ;;;   (* reset *)
        expressionStatement fuel
    else expressionStatement fuel
  end

with ifStatement (fuel : nat) {struct fuel} : P Statement :=
  match fuel with
  | O => out_of_fuel
  | S fuel =>
    consume COLON "Expect ':' after if condition." ;;;
    condition <- expression fuel ;;
    then_branch <- block fuel ;;
    branches <- ifStatement_elif fuel [(condition, then_branch)] ;;
    m <- match_ ELSE ;;
    else_branch <- (if (m : bool)
                    then consume COLON "Expect ':' after else." ;;; block fuel
                    else ret []) ;;
    ret (IfStatement branches else_branch)
  end
with ifStatement_elif (fuel : nat) (branches : list (Expression * list Statement))
  {struct fuel} : P (list (Expression * list Statement)) :=
  match fuel with
  | O => out_of_fuel
  | S fuel =>
    m <- match_ ELIF ;;
    if (m : bool) then
      consume COLON "Expect ':' after elif condition." ;;;
      elif_condition <- expression fuel ;;
      elif_branch <- block fuel ;;
      ifStatement_elif fuel (branches ++ [(elif_condition, elif_branch)])%list
    else ret branches
  end

with whileStatement (fuel : nat) {struct fuel} : P Statement :=
  match fuel with
  | O => out_of_fuel
  | S fuel =>
    condition <- expression fuel ;;
    consume COLON "Expect ':' after while condition." ;;;
    body <- block fuel ;;
    ret (WhileStatement condition body)
  end

with forStatement (fuel : nat) {struct fuel} : P Statement :=
  match fuel with
  | O => out_of_fuel
  | S fuel =>
    consume IDENTIFIER "Expect variable name after 'for'." ;;;
    token <- previous ;;
    let variable := lexeme token in
    consume IN "Expect 'in' after variable name." ;;;
    iterable <- expression fuel ;;
    consume COLON "Expect ':' after iterable." ;;;
    body <- block fuel ;;
    ret (ForStatement variable iterable body)
  end

with matchStatement (fuel : nat) {struct fuel} : P Statement :=
  match fuel with
  | O => out_of_fuel
  | S fuel =>
    value <- expression fuel ;;
    consume COLON "Expect ':' after match value." ;;;
    cases <- matchStatement_loop fuel [] ;;
    ret (MatchStatement value cases)
  end
with matchStatement_loop (fuel : nat) (cases : list (Expression * list Statement))
  {struct fuel} : P (list (Expression * list Statement)) :=
  match fuel with
  | O => out_of_fuel
  | S fuel =>
    e <- isAtEnd_ ;;
    d <- check DEDENT ;;
    if negb e && negb d then
      pattern <- expression fuel ;;
      consume COLON "Expect ':' after pattern." ;;;
      case_body <- block fuel ;;
      matchStatement_loop fuel (cases ++ [(pattern, case_body)])%list
    else ret cases
  end

with block (fuel : nat) {struct fuel} : P (list Statement) :=
  match fuel with
  | O => out_of_fuel
  | S fuel => block_loop fuel []
  end
with block_loop (fuel : nat) (statements : list Statement) {struct fuel} : P (list Statement) :=
  match fuel with
  | O => out_of_fuel
  | S fuel =>
    e <- isAtEnd_ ;;
    d <- check DEDENT ;;
    if negb e && negb d then
      stmt <- statement fuel ;;
      block_loop fuel (statements ++ [stmt])%list
    else ret statements
  end.

(** Declaration parsing implementations *)
Fixpoint functionDeclaration_parameters (fuel : nat) (parameters : list string)
  {struct fuel} : P (list string) :=
  match fuel with
  | O => out_of_fuel
  | S fuel =>
    consume IDENTIFIER "Expect parameter name." ;;;
    token <- previous ;;
    let parameters := (parameters ++ [lexeme token])%list in
    m <- match_ COMMA ;;
    if (m : bool) then functionDeclaration_parameters fuel parameters else ret parameters
  end.

Definition functionDeclaration (fuel : nat) : P Declaration :=
  consume IDENTIFIER "Expect function name." ;;;
  token <- previous ;;
  let name := lexeme token in
  consume LPAREN "Expect '(' after function name." ;;;
  c <- check RPAREN ;;
  parameters <- (if negb c then functionDeclaration_parameters fuel [] else ret []) ;;
  consume RPAREN "Expect ')' after parameters." ;;;
  consume COLON "Expect ':' after function parameters." ;;;
  body <- block fuel ;;
  ret (FunctionDeclaration name parameters body false).

Definition importDeclaration : P Declaration :=
  consume IDENTIFIER "Expect module name after 'import'." ;;;
  token <- previous ;;
  let module := lexeme token in
  m <- match_ AS ;;
  if (m : bool) then
    consume IDENTIFIER "Expect alias name after 'as'." ;;;
    token <- previous ;;
    ret (ImportDeclaration module (lexeme token))
  else ret (ImportDeclaration module EmptyString).

(** [declaration] returns [nullptr] ([None]) when no keyword matches. *)
Fixpoint declaration (fuel : nat) {struct fuel} : P (option Declaration) :=
  match fuel with
  | O => out_of_fuel
  | S fuel =>
    m <- match_ IMPORT ;;
    if (m : bool) then d <- importDeclaration ;; ret (Some d) else
    m <- match_ DEF ;;
    if (m : bool) then d <- functionDeclaration fuel ;; ret (Some d) else
    m <- match_ CLASS ;;
    if (m : bool) then d <- classDeclaration fuel ;; ret (Some d) else
    ret None
  end

with classDeclaration (fuel : nat) {struct fuel} : P Declaration :=
  match fuel with
  | O => out_of_fuel
  | S fuel =>
    consume IDENTIFIER "Expect class name." ;;;
    token <- previous ;;
    let name := lexeme token in
    m <- match_ LPAREN ;;
    base_class <- (if (m : bool) then
                     consume IDENTIFIER "Expect base class name." ;;;
                     token <- previous ;;
                     consume RPAREN "Expect ')' after base class." ;;;
                     ret (lexeme token)
                   else ret EmptyString) ;;
    consume COLON "Expect ':' after class declaration." ;;;
    members <- classDeclaration_loop fuel [] ;;
    ret (ClassDeclaration name base_class members)
  end
with classDeclaration_loop (fuel : nat) (members : list Declaration)
  {struct fuel} : P (list Declaration) :=
  match fuel with
  | O => out_of_fuel
  | S fuel =>
    e <- isAtEnd_ ;;
    d <- check DEDENT ;;
    if negb e && negb d then
      member <- declaration fuel ;;
      match member with
      | Some member => classDeclaration_loop fuel (members ++ [member])%list
      | None => ret members
      end
    else ret members
  end.

Fixpoint program_loop (fuel : nat) (declarations : list Declaration)
  (statements : list Statement) {struct fuel} : P Program :=
  match fuel with
  | O => out_of_fuel
  | S fuel =>
    e <- isAtEnd_ ;;
    if (e : bool) then ret (mkProgram declarations statements) else
    token <- peek_ ;;
    if TokenType_eqb (type token) INDENT then
      advance ;;; program_loop fuel declarations statements   (* consume indent *)
    else if TokenType_eqb (type token) DEDENT then
      advance ;;; program_loop fuel declarations statements   (* consume dedent *)
    else if TokenType_eqb (type token) NEWLINE then
      advance ;;; program_loop fuel declarations statements   (* consume newline *)
    else
      decl <- declaration fuel ;;
      match decl with
      | Some decl => program_loop fuel (declarations ++ [decl])%list statements
      | None =>
        stmt <- statement fuel ;;
        program_loop fuel declarations (statements ++ [stmt])%list
      end
  end.

Definition program (fuel : nat) : P Program := program_loop fuel [] [].

(** [Parser::parse]: a fresh parser has [current = 0]; a parse error is
    printed and [nullptr] returned.  The outer [option] is the fuel, the
    inner one the pointer. *)
Definition parse (fuel : nat) : option (option Program) :=
  match program fuel 0 with
  | None => None
  | Some (Throw e) => Some None
  | Some (Ok (p, _)) => Some (Some p)
  end.

End WithTokens.
End Parser.

(** ** Vocabulary for the parser's properties *)

Module ParserProps.
Import lexer parser Parser.

(** The seven levels of binary operators, loosest first. *)
Inductive Level : Set :=
| OrLevel | AndLevel | EqualityLevel | ComparisonLevel | TermLevel | FactorLevel | PowerLevel.

Section WithTokens.
Variable tokens : list Token.

(** The method that parses a level, the loop inside it, and the method it
    calls for each operand (the next tighter level). *)
Definition level_parser (l : Level) : nat -> P Expression :=
  match l with
  | OrLevel => logicalOr tokens
  | AndLevel => logicalAnd tokens
  | EqualityLevel => equality tokens
  | ComparisonLevel => comparison tokens
  | TermLevel => term tokens
  | FactorLevel => factor tokens
  | PowerLevel => power tokens
  end.

Definition level_loop (l : Level) : nat -> Expression -> P Expression :=
  match l with
  | OrLevel => logicalOr_loop tokens
  | AndLevel => logicalAnd_loop tokens
  | EqualityLevel => equality_loop tokens
  | ComparisonLevel => comparison_loop tokens
  | TermLevel => term_loop tokens
  | FactorLevel => factor_loop tokens
  | PowerLevel => power_loop tokens
  end.

Definition operand_parser (l : Level) : nat -> P Expression :=
  match l with
  | OrLevel => logicalAnd tokens
  | AndLevel => equality tokens
  | EqualityLevel => comparison tokens
  | ComparisonLevel => term tokens
  | TermLevel => factor tokens
  | FactorLevel => power tokens
  | PowerLevel => unary tokens
  end.

End WithTokens.

(** The operator table: the operator a token stands for at a level. *)
Definition level_operator (l : Level) (ty : TokenType) : option BinaryOp.Operator :=
  match l, ty with
  | OrLevel, OR => Some BinaryOp.OR
  | AndLevel, AND => Some BinaryOp.AND
  | EqualityLevel, EQUAL => Some BinaryOp.EQUAL
  | EqualityLevel, NOT_EQUAL => Some BinaryOp.NOT_EQUAL
  | ComparisonLevel, LESS => Some BinaryOp.LESS
  | ComparisonLevel, LESS_EQUAL => Some BinaryOp.LESS_EQUAL
  | ComparisonLevel, GREATER => Some BinaryOp.GREATER
  | ComparisonLevel, GREATER_EQUAL => Some BinaryOp.GREATER_EQUAL
  | TermLevel, PLUS => Some BinaryOp.ADD
  | TermLevel, MINUS => Some BinaryOp.SUBTRACT
  | FactorLevel, MULTIPLY => Some BinaryOp.MULTIPLY
  | FactorLevel, DIVIDE => Some BinaryOp.DIVIDE
  | FactorLevel, FLOOR_DIVIDE => Some BinaryOp.FLOOR_DIVIDE
  | FactorLevel, MODULO => Some BinaryOp.MODULO
  | PowerLevel, POWER => Some BinaryOp.POWER
  | _, _ => None
  end.

(** [operator_chain tokens l current steps current']: from [current] on
    the tokens read [operator operand operator operand ...] for the
    operators of level [l], each operand being what the operand method of
    the level returns there; [steps] lists the operators with their
    operands in source order, and at [current'] the vector ends or holds
    a token that is no operator of the level. *)
Inductive operator_chain (tokens : list Token) (l : Level)
  : nat -> list (BinaryOp.Operator * Expression) -> nat -> Prop :=
| chain_end current :
    isAtEnd tokens current = true \/
    level_operator l (type (tokens_at tokens current)) = None ->
    operator_chain tokens l current [] current
| chain_step current op fuel rhs current1 steps current' :
    isAtEnd tokens current = false ->
    level_operator l (type (tokens_at tokens current)) = Some op ->
    operand_parser tokens l fuel (current + 1) = Some (Ok (rhs, current1)) ->
    operator_chain tokens l current1 steps current' ->
    operator_chain tokens l current ((op, rhs) :: steps) current'.

(** The tree that groups the operands to the left:
    [((first op1 x1) op2 x2) ...]. *)
Definition group_left (first : Expression) (steps : list (BinaryOp.Operator * Expression))
  : Expression :=
  List.fold_left (fun acc step => BinaryExpression (fst step) acc (snd step)) steps first.

End ParserProps.

(** ** Sources and trees used in the examples of the design document *)

Module Examples.
Import lexer parser.

Definition nl : string := String LF EmptyString.

Definition int_literal (z : Z) : Expression := LiteralExpression (v_int64 z).
Definition name_expr (name : string) : Expression := IdentifierExpression name.

(** [def f(n):\n    return n + 1\nresult = f(4)] *)
Definition end_to_end_source : string :=
  "def f(n):" ++ nl ++ "    return n + 1" ++ nl ++ "result = f(4)".

(** [if a: x = 1\nelif b: x = 2\nelse: x = 3] *)
Definition if_elif_else_source : string :=
  "if a: x = 1" ++ nl ++ "elif b: x = 2" ++ nl ++ "else: x = 3".

(** Three nesting levels, then back to the margin in one step. *)
Definition two_level_dedent_source : string :=
  "a:" ++ nl ++ "    b:" ++ nl ++ "        c" ++ nl ++ "d".

(** The six characters [DQUOTE a BACKSLASH n b DQUOTE]. *)
Definition escaped_string_source : string :=
  String DQUOTE ("a\nb" ++ String DQUOTE EmptyString).

Definition token_types (r : option (result (list Token))) : option (list TokenType) :=
  match r with
  | Some (Ok tokens) => Some (List.map type tokens)
  | _ => None
  end.

End Examples.

(** ** The IR builder interface used by the code generator

    compiler.cpp drives LLVM through [llvm::IRBuilder], [llvm::Function] and
    [llvm::BasicBlock].  The model records the calls the generator makes:
    the functions and blocks it creates, the insertion point it sets, and
    every instruction it asks the builder for, in order, with the block the
    builder was pointing at.  What LLVM itself does with these calls
    (constant folding, renaming of duplicate names, the module verifier) is
    not code of this repository. *)

Module llvm.
Import lexer.

Inductive Type_ := Int64Ty | Int32Ty | Int1Ty | DoubleTy | Int8PtrTy | PointerTy | VoidTy.

(** [llvm::FunctionType::get(result, params, isVarArg)] *)
Record FunctionType := mkFunctionType {
  returnType : Type_;
  paramTypes : list Type_;
  isVarArg : bool
}.

(** An [llvm::Value*]: a constant, a function argument, a global string, or
    the result of the instruction with the given number; each carries its
    type ([getType]). *)
Inductive Value :=
  | ConstantInt (ty : Type_) (z : Z)
  | ConstantFP (d : double)
  | Argument (function index : nat) (ty : Type_)
  | GlobalString (id : nat)
  | InstValue (id : nat) (ty : Type_).

Definition getType (v : Value) : Type_ :=
  match v with
  | ConstantInt ty _ => ty
  | ConstantFP _ => DoubleTy
  | Argument _ _ ty => ty
  | GlobalString _ => Int8PtrTy
  | InstValue _ ty => ty
  end.

Inductive Predicate := ICMP_EQ | ICMP_NE | ICMP_SLT | ICMP_SLE | ICMP_SGT | ICMP_SGE.

Inductive Instruction :=
  | Add (l r : Value) | Sub (l r : Value) | Mul (l r : Value)
  | SDiv (l r : Value) | SRem (l r : Value)
  | ICmp (p : Predicate) (l r : Value)
  | Neg (v : Value) | Not (v : Value)
  | Call (fty : FunctionType) (callee : Value) (args : list Value)
  | Load (ty : Type_) (ptr : Value)
  | Store (v ptr : Value)
  | Alloca (ty : Type_) (name : string)
  | Ret (v : option Value)     (* CreateRet takes a pointer, which may be null *)
  | RetVoid
  (* the two branch terminators of the builder; compiler.cpp never asks for one *)
  | Br (dest : nat)
  | CondBr (cond : Value) (ifTrue ifFalse : nat).

Definition isTerminator (i : Instruction) : bool :=
  match i with
  | Ret _ | RetVoid | Br _ | CondBr _ _ _ => true
  | _ => false
  end.

Definition resultType (i : Instruction) : Type_ :=
  match i with
  | Add l _ | Sub l _ | Mul l _ | SDiv l _ | SRem l _ => getType l
  | ICmp _ _ _ => Int1Ty
  | Neg v | Not v => getType v
  | Call fty _ _ => returnType fty
  | Load ty _ => ty
  | Alloca _ _ => PointerTy
  | Store _ _ | Ret _ | RetVoid | Br _ | CondBr _ _ _ => VoidTy
  end.

Record Function := mkFunction {
  fname : string;
  ftype : FunctionType
}.

Record BasicBlock := mkBasicBlock {
  bname : string;
  parent : nat   (* index of the owning function in the module *)
}.

End llvm.

(** ** src/compiler/compiler.cpp *)

Module Compiler.
Import lexer parser llvm.

Record Compiler := mkCompiler {
  (* module *)
  functions : list Function;
  blocks : list BasicBlock;
  globals : list string;
  (* builder: insertion block, and every instruction created so far with
     the block it was inserted into ([None]: no insertion point was set) *)
  insert_point : option nat;
  emitted : list (option nat * Instruction);
  (* Compilation state *)
  currentFunction : option nat;
  currentBlock : option nat;
  (* Symbol table for variables *)
  variables : gmap string Value
}.

(** [Compiler::Compiler()] *)
Definition Compiler_new : Compiler :=
  mkCompiler [] [] [] None [] None None ∅.

(** A method of the compiler: it updates the object and returns a value,
    or throws. *)
Definition C (A : Type) : Type := Compiler -> result (A * Compiler).

Definition ret {A} (a : A) : C A := fun c => Ok (a, c).
Definition bind {A B} (m : C A) (k : A -> C B) : C B :=
  fun c =>
    match m c with
    | Throw e => Throw e
    | Ok (a, c') => k a c'
    end.
Definition throw {A} (e : exception) : C A := fun _ => Throw e.
Definition get : C Compiler := fun c => Ok (c, c).

Notation "x <- m ;; k" := (bind m (fun x => k))
  (at level 100, m at next level, right associativity).
Notation "m ;;; k" := (bind m (fun _ => k))
  (at level 100, right associativity).

(** Builder and module primitives *)
Definition emit (i : Instruction) : C Value :=
  fun c =>
    Ok (InstValue (List.length (emitted c)) (resultType i),
        mkCompiler (functions c) (blocks c) (globals c) (insert_point c)
                   (emitted c ++ [(insert_point c, i)])%list
                   (currentFunction c) (currentBlock c) (variables c)).

Definition CreateGlobalStringPtr (s : string) : C Value :=
  fun c =>
    Ok (GlobalString (List.length (globals c)),
        mkCompiler (functions c) (blocks c) (globals c ++ [s])%list (insert_point c)
                   (emitted c) (currentFunction c) (currentBlock c) (variables c)).

Definition Function_Create (ty : FunctionType) (name : string) : C nat :=
  fun c =>
    Ok (List.length (functions c),
        mkCompiler (functions c ++ [mkFunction name ty])%list (blocks c) (globals c)
                   (insert_point c) (emitted c) (currentFunction c) (currentBlock c)
                   (variables c)).

Definition BasicBlock_Create (name : string) (function : nat) : C nat :=
  fun c =>
    Ok (List.length (blocks c),
        mkCompiler (functions c) (blocks c ++ [mkBasicBlock name function])%list (globals c)
                   (insert_point c) (emitted c) (currentFunction c) (currentBlock c)
                   (variables c)).

Definition SetInsertPoint (block : nat) : C unit :=
  fun c =>
    Ok (tt, mkCompiler (functions c) (blocks c) (globals c) (Some block) (emitted c)
                       (currentFunction c) (currentBlock c) (variables c)).

Definition set_current (function block : nat) : C unit :=
  fun c =>
    Ok (tt, mkCompiler (functions c) (blocks c) (globals c) (insert_point c) (emitted c)
                       (Some function) (Some block) (variables c)).

(** [variables.find(name)] and [variables[name] = slot] *)
Definition variables_find (name : string) : C (option Value) :=
  fun c => Ok (variables c !! name, c).
Definition variables_set (name : string) (slot : Value) : C unit :=
  fun c =>
    Ok (tt, mkCompiler (functions c) (blocks c) (globals c) (insert_point c) (emitted c)
                       (currentFunction c) (currentBlock c) (<[name := slot]> (variables c))).

(** The instructions of a block, in order, and [BasicBlock::getTerminator]. *)
Definition block_instructions (c : Compiler) (block : nat) : list Instruction :=
  List.map snd
    (List.filter (fun e => match fst e with Some b => b =? block | None => false end)
                 (emitted c)).
Definition getTerminator (c : Compiler) (block : nat) : option Instruction :=
  match List.rev (block_instructions c block) with
  | i :: _ => if isTerminator i then Some i else None
  | [] => None
  end.

Definition getInt64 (z : Z) : Value := ConstantInt Int64Ty z.
Definition getInt32 (z : Z) : Value := ConstantInt Int32Ty z.
Definition getInt1 (b : bool) : Value := ConstantInt Int1Ty (if b then 1 else 0).

(** Expression compilation *)
Definition compileLiteralExpression (value : variant) : C (option Value) :=
  match value with
  | v_int64 z => ret (Some (getInt64 z))
  | v_double d => ret (Some (ConstantFP d))
  | v_bool b => ret (Some (getInt1 b))
  | v_string s => v <- CreateGlobalStringPtr s ;; ret (Some v)
  | monostate => ret (Some (getInt32 0))   (* None/null *)
  end.

Definition compileIdentifierExpression (name : string) : C (option Value) :=
  it <- variables_find name ;;
  match it with
  | Some slot => v <- emit (Load Int64Ty slot) ;; ret (Some v)
  | None =>
    (* Return default value for undefined variables *)
    ret (Some (getInt64 0))
  end.

(** The methods below call [compileExpression] back; it is their first
    argument. *)
Definition compileBinaryExpression (compileExpression : Expression -> C (option Value))
  (op : BinaryOp.Operator) (left right : Expression) : C (option Value) :=
  left <- compileExpression left ;;
  right <- compileExpression right ;;
  match left, right with
  | Some lhs, Some rhs =>
    match op with
    | BinaryOp.ADD => v <- emit (Add lhs rhs) ;; ret (Some v)
    | BinaryOp.SUBTRACT => v <- emit (Sub lhs rhs) ;; ret (Some v)
    | BinaryOp.MULTIPLY => v <- emit (Mul lhs rhs) ;; ret (Some v)
    | BinaryOp.DIVIDE => v <- emit (SDiv lhs rhs) ;; ret (Some v)
    | BinaryOp.MODULO => v <- emit (SRem lhs rhs) ;; ret (Some v)
    | BinaryOp.EQUAL => v <- emit (ICmp ICMP_EQ lhs rhs) ;; ret (Some v)
    | BinaryOp.NOT_EQUAL => v <- emit (ICmp ICMP_NE lhs rhs) ;; ret (Some v)
    | BinaryOp.LESS => v <- emit (ICmp ICMP_SLT lhs rhs) ;; ret (Some v)
    | BinaryOp.LESS_EQUAL => v <- emit (ICmp ICMP_SLE lhs rhs) ;; ret (Some v)
    | BinaryOp.GREATER => v <- emit (ICmp ICMP_SGT lhs rhs) ;; ret (Some v)
    | BinaryOp.GREATER_EQUAL => v <- emit (ICmp ICMP_SGE lhs rhs) ;; ret (Some v)
    | _ => ret None   (* default: FLOOR_DIVIDE, POWER, AND, OR *)
    end
  | _, _ => ret None
  end.

Definition compileUnaryExpression (compileExpression : Expression -> C (option Value))
  (op : UnaryOp.Operator) (operand : Expression) : C (option Value) :=
  operand <- compileExpression operand ;;
  match operand with
  | None => ret None
  | Some operand =>
    match op with
    | UnaryOp.PLUS => ret (Some operand)
    | UnaryOp.MINUS => v <- emit (Neg operand) ;; ret (Some v)
    | UnaryOp.NOT => v <- emit (Not operand) ;; ret (Some v)
    end
  end.

(** The argument loop of compileCallExpression. *)
Definition compile_arguments (compileExpression : Expression -> C (option Value))
  : list Expression -> list Value -> C (list Value) :=
  fix loop (arguments : list Expression) (args : list Value) : C (list Value) :=
    match arguments with
    | [] => ret args
    | arg :: arguments' =>
      compiledArg <- compileExpression arg ;;
      match compiledArg with
      | Some v => loop arguments' (args ++ [v])%list
      | None => loop arguments' args
      end
    end.

Definition compileCallExpression (compileExpression : Expression -> C (option Value))
  (callee : Expression) (arguments : list Expression) : C (option Value) :=
  callee <- compileExpression callee ;;
  match callee with
  | None => ret None
  | Some callee =>
    args <- compile_arguments compileExpression arguments [] ;;
    (* For now, assume all functions return int64 *)
    v <- emit (Call (mkFunctionType Int64Ty [] false) callee args) ;;
    ret (Some v)
  end.

Fixpoint compileExpression (expr : Expression) {struct expr} : C (option Value) :=
  match expr with
  | LiteralExpression value => compileLiteralExpression value
  | IdentifierExpression name => compileIdentifierExpression name
  | BinaryExpression op l r => compileBinaryExpression compileExpression op l r
  | UnaryExpression op operand => compileUnaryExpression compileExpression op operand
  | CallExpression callee arguments => compileCallExpression compileExpression callee arguments
  | _ => ret None
  end.

(** Statement compilation *)
Definition compileAssignmentStatement (name : string) (value : Expression) : C unit :=
  value <- compileExpression value ;;
  match value with
  | None => ret tt
  | Some value =>
    (* Create or update variable *)
    it <- variables_find name ;;
    match it with
    | Some slot => emit (Store value slot) ;;; ret tt
    | None =>
      alloca <- emit (Alloca (getType value) name) ;;
      emit (Store value alloca) ;;;
      variables_set name alloca
    end
  end.

Definition compileExpressionStatement (expression : Expression) : C unit :=
  compileExpression expression ;;; ret tt.

Definition compileReturnStatement (value : option Expression) : C unit :=
  match value with
  | Some value =>
    value <- compileExpression value ;;
    emit (Ret value) ;;; ret tt
  | None => emit RetVoid ;;; ret tt
  end.

(** The bodies of compileIfStatement, compileWhileStatement and
    compileForStatement are empty. *)
Definition compileIfStatement (branches : list (Expression * list Statement))
  (else_body : list Statement) : C unit := ret tt.
Definition compileWhileStatement (condition : Expression) (body : list Statement) : C unit :=
  ret tt.
Definition compileForStatement (variable : string) (iterable : Expression)
  (body : list Statement) : C unit := ret tt.

Definition compileStatement (stmt : Statement) : C unit :=
  match stmt with
  | AssignmentStatement name value => compileAssignmentStatement name value
  | ExpressionStatement expression => compileExpressionStatement expression
  | ReturnStatement value => compileReturnStatement value
  | IfStatement branches else_body => compileIfStatement branches else_body
  | WhileStatement condition body => compileWhileStatement condition body
  | ForStatement variable iterable body => compileForStatement variable iterable body
  | MatchStatement _ _ => ret tt
  end.

Fixpoint compileStatements (stmts : list Statement) : C unit :=
  match stmts with
  | [] => ret tt
  | stmt :: stmts' => compileStatement stmt ;;; compileStatements stmts'
  end.

(** Declaration compilation *)

(** Store function parameters: the loop over [function->args()]. *)
Fixpoint store_parameters (function : nat) (paramIndex : nat) (parameters : list string)
  : C unit :=
  match parameters with
  | [] => ret tt
  | parameter :: parameters' =>
    alloca <- emit (Alloca Int64Ty parameter) ;;
    emit (Store (Argument function paramIndex Int64Ty) alloca) ;;;
    variables_set parameter alloca ;;;
    store_parameters function (paramIndex + 1) parameters'
  end.

(** compileFunctionDeclaration up to the point where the body is lowered. *)
Definition function_prologue (name : string) (parameters : list string) : C nat :=
  (* Create function type *)
  let paramTypes := List.map (fun _ => Int64Ty) parameters in
  let funcType := mkFunctionType Int64Ty paramTypes false in
  (* Create function *)
  function <- Function_Create funcType name ;;
  (* Create entry block *)
  entryBlock <- BasicBlock_Create "entry" function ;;
  SetInsertPoint entryBlock ;;;
  (* Store function parameters *)
  store_parameters function 0 parameters ;;;
  ret entryBlock.

Definition compileFunctionDeclaration (name : string) (parameters : list string)
  (body : list Statement) : C unit :=
  entryBlock <- function_prologue name parameters ;;
  (* Compile function body *)
  compileStatements body ;;;
  (* Add return if not present *)
  c <- get ;;
  match getTerminator c entryBlock with
  | None => emit (Ret (Some (getInt64 0))) ;;; ret tt
  | Some _ => ret tt
  end.

Definition compileClassDeclaration (name base_class : string) (members : list Declaration)
  : C unit := ret tt.

Definition compileDeclaration (decl : Declaration) : C unit :=
  match decl with
  | FunctionDeclaration name parameters body _ => compileFunctionDeclaration name parameters body
  | ClassDeclaration name base_class members => compileClassDeclaration name base_class members
  | ImportDeclaration _ _ => ret tt
  end.

Fixpoint compileDeclarations (decls : list Declaration) : C unit :=
  match decls with
  | [] => ret tt
  | decl :: decls' => compileDeclaration decl ;;; compileDeclarations decls'
  end.

(** Utility methods *)
Definition createMainFunction : C unit :=
  let mainType := mkFunctionType Int32Ty [] false in
  mainFunc <- Function_Create mainType "main" ;;
  entryBlock <- BasicBlock_Create "entry" mainFunc ;;
  SetInsertPoint entryBlock ;;;
  set_current mainFunc entryBlock.

Definition setupStandardLibrary : C unit :=
  (* Declare printf *)
  let printfType := mkFunctionType Int32Ty [Int8PtrTy] true in
  Function_Create printfType "printf" ;;; ret tt.

Section Verifier.

(** [llvm::verifyModule]: [true] when the module is broken. *)
Variable verifyModule : Compiler -> bool.

(** The [try] block of [Compiler::compile]. *)
Definition compile_try (program : option Program) : C bool :=
  match program with
  | None => throw (Compile_error "No program to compile")
  | Some program =>
    (* Setup standard library *)
    setupStandardLibrary ;;;
    (* Create main function *)
    createMainFunction ;;;
    (* Compile all declarations *)
    compileDeclarations (declarations program) ;;;
    (* Compile all statements in main *)
    compileStatements (statements program) ;;;
    (* Add return statement to main if not present *)
    c <- get ;;
    (match currentBlock c with
     | Some block =>
       match getTerminator c block with
       | None => emit (Ret (Some (getInt32 0))) ;;; ret tt
       | Some _ => ret tt
       end
     | None => ret tt
     end) ;;;
    (* Verify module *)
    c <- get ;;
    if verifyModule c then throw (Compile_error "Module verification failed")
    else ret true
  end.

(** [Compiler::compile]: any exception is caught and turned into [false]. *)
Definition compile (program : option Program) (c : Compiler) : bool :=
  match compile_try program c with
  | Ok (b, _) => b
  | Throw _ => false
  end.

End Verifier.

End Compiler.

(** ** Vocabulary for the code generator's properties *)

Module CompilerProps.
Import lexer parser llvm Compiler.

(** The same compiler with another list of module functions. *)
Definition with_functions (fs : list Function) (c : Compiler) : Compiler :=
  mkCompiler fs (blocks c) (globals c) (insert_point c) (emitted c)
             (currentFunction c) (currentBlock c) (variables c).

Definition on_state {A} (f : Compiler -> Compiler) (r : result (A * Compiler))
  : result (A * Compiler) :=
  match r with
  | Ok (a, c) => Ok (a, f c)
  | Throw e => Throw e
  end.

(** A method that does not read the functions of the module. *)
Definition commutes (fs : list Function) {A} (m : C A) : Prop :=
  forall c, m (with_functions fs c) = on_state (with_functions fs) (m c).

(** The compiler as [compile] has it before the first declaration. *)
Definition entry_state : Compiler :=
  match (setupStandardLibrary ;;; createMainFunction) Compiler_new with
  | Ok (_, c) => c
  | Throw _ => Compiler_new
  end.

(** [c'] is [c] after lowering expressions: only instructions that are not
    terminators were appended, at the insertion point of [c]. *)
Definition lowered (c c' : Compiler) : Prop :=
  functions c' = functions c /\ blocks c' = blocks c /\
  insert_point c' = insert_point c /\
  currentFunction c' = currentFunction c /\ currentBlock c' = currentBlock c /\
  variables c' = variables c /\
  exists new, emitted c' = (emitted c ++ new)%list /\
    Forall (fun e => fst e = insert_point c /\ isTerminator (snd e) = false) new.

Definition lowers (expr : Expression) : Prop :=
  forall c, exists v c', compileExpression expr c = Ok (v, c') /\ lowered c c'.

Definition call_of (name : string) (arguments : list Expression) : Expression :=
  CallExpression (IdentifierExpression name) arguments.

(** [arguments_lowered arguments c args c']: lowering the arguments one
    after the other, each in the state its predecessor left, takes the
    compiler from [c] to [c'], and [args] holds, in source order, the values
    of the arguments that produced one. *)
Inductive arguments_lowered : list Expression -> Compiler -> list Value -> Compiler -> Prop :=
| arguments_done c : arguments_lowered [] c [] c
| arguments_value arg arguments c v c1 args c' :
    compileExpression arg c = Ok (Some v, c1) ->
    arguments_lowered arguments c1 args c' ->
    arguments_lowered (arg :: arguments) c (v :: args) c'
| arguments_null arg arguments c c1 args c' :
    compileExpression arg c = Ok (None, c1) ->
    arguments_lowered arguments c1 args c' ->
    arguments_lowered (arg :: arguments) c args c'.

(** The instructions created since the compiler was in state [c]. *)
Definition emitted_since (c c' : Compiler) : list (option nat * Instruction) :=
  List.skipn (List.length (emitted c)) (emitted c').

(** The compiler after [def f(n): return n] has been lowered. *)
Definition after_def_f : Compiler :=
  match compileDeclaration
          (FunctionDeclaration "f" ["n"]
             [ReturnStatement (Some (IdentifierExpression "n"))] false) entry_state with
  | Ok (_, c) => c
  | Throw _ => entry_state
  end.

End CompilerProps.

(** ** More vocabulary for the tokenizer *)

Module TokenizerKinds.
Import lexer Tokenizer.

(** The cursor is inside the text or just behind it. *)
Definition within (t : Tokenizer) : Prop := current t <= String.length (source t).

(** Tokens that stand for no text: their lexeme is empty. *)
Definition is_synthetic (ty : TokenType) : bool :=
  match ty with
  | INDENT | DEDENT | NEWLINE | EOF_TOKEN => true
  | _ => false
  end.

(** The types of the tokens that [nextToken] makes from operators,
    delimiters and comments, and from words. *)
Definition is_operator_type (ty : TokenType) : bool :=
  match ty with
  | COMMENT | LPAREN | RPAREN | LBRACKET | RBRACKET | LBRACE | RBRACE | COMMA | DOT
  | COLON | EQUAL | ASSIGN | NOT_EQUAL | LESS_EQUAL | LESS | GREATER_EQUAL | GREATER
  | PLUS | MINUS | POWER | MULTIPLY | FLOOR_DIVIDE | DIVIDE | MODULO => true
  | _ => false
  end.
Definition is_word_type (ty : TokenType) : bool :=
  match ty with
  | IF | ELIF | ELSE | WHILE | FOR | IN | DEF | CLASS | RETURN | IMPORT | AS | MATCH
  | ASYNC | AWAIT | AND | OR | NOT | BOOLEAN | NONE | IDENTIFIER => true
  | _ => false
  end.

(** The measured indentation of the line at the cursor: the number of
    spaces counted by [handleIndentation], and the level it stands for. *)
Definition indent_spaces (t : Tokenizer) : nat := fst (count_indent t).
Definition indent_level (t : Tokenizer) : nat := indent_spaces t / 4.

(** The tokenizer of [a:], a line feed and an indented [b], just behind
    the line feed; the second has three spaces in front of [b], the first
    four. *)
Definition at_indented_line : Tokenizer :=
  mkTokenizer ("a:" ++ Examples.nl ++ "    b") 3 2 2 0 [0].
Definition at_badly_indented_line : Tokenizer :=
  mkTokenizer ("a:" ++ Examples.nl ++ "   b") 3 2 2 0 [0].

End TokenizerKinds.

(** ** Parser::synchronize and vocabulary for the parser's properties *)

Module ParserInvariants.
Import lexer parser Parser.





(** Expressions without call, attribute, subscript or tuple nodes. *)
Fixpoint no_postfix (e : Expression) : bool :=
  match e with
  | LiteralExpression _ | IdentifierExpression _ => true
  | BinaryExpression _ l r => no_postfix l && no_postfix r
  | UnaryExpression _ operand => no_postfix operand
  | CallExpression _ _ | AttributeExpression _ _ | SubscriptExpression _ _
  | TupleExpression _ => false
  | ListExpression elements => forallb no_postfix elements
  | DictExpression pairs =>
    (fix all (ps : list (Expression * Expression)) : bool :=
       match ps with
       | [] => true
       | (k, v) :: ps' => no_postfix k && no_postfix v && all ps'
       end) pairs
  end.

Fixpoint no_postfix_pairs (ps : list (Expression * Expression)) : bool :=
  match ps with
  | [] => true
  | (k, v) :: ps' => no_postfix k && no_postfix v && no_postfix_pairs ps'
  end.

(** What a parsing method is shown to return: expressions, and lists of
    them, are free of postfix nodes; nothing is said of other values. *)
Class Good (A : Type) := good : A -> Prop.
#[global] Instance Good_any (A : Type) : Good A | 100 := fun _ => True.
#[global] Instance Good_expression : Good Expression | 1 :=
  fun e => no_postfix e = true.
#[global] Instance Good_expressions : Good (list Expression) | 1 :=
  fun es => forallb no_postfix es = true.
#[global] Instance Good_pairs : Good (list (Expression * Expression)) | 1 :=
  fun ps => no_postfix_pairs ps = true.

(** [m] keeps the cursor property [I] and returns good values. *)
Definition keeps (tokens : list Token) (I : nat -> Prop) {A} {G : Good A} (m : P A) : Prop :=
  forall current a current',
    I current -> m current = Some (Ok (a, current')) -> I current' /\ good a.

(** No EOF token lies before the cursor. *)
Definition no_eof_before (tokens : list Token) (current : nat) : Prop :=
  forall i, i < current -> i < List.length tokens ->
    type (tokens_at tokens i) <> EOF_TOKEN.

(** Token types with which no statement begins. *)
Definition starts_no_statement (ty : TokenType) : bool :=
  match ty with
  | IF | WHILE | FOR | MATCH | RETURN | IDENTIFIER | MINUS | lexer.NOT | FALSE | TRUE
  | NONE | INTEGER | FLOAT | STRING | LPAREN | LBRACKET | LBRACE => false
  | _ => true
  end.

(** Tokens between the cursor and the end of the vector. *)
Definition tokens_left (tokens : list Token) (current : nat) : nat :=
  List.length tokens - current.

(** Started with [b] tokens left, [m] returns or throws (it does not run
    out of fuel), and [post] holds of what it returns and of the number
    of tokens then left. *)
Definition tot (tokens : list Token) (b : nat) {A} (m : P A) (post : A -> nat -> Prop) : Prop :=
  forall current, tokens_left tokens current = b ->
    exists r, m current = Some r /\
      forall a current', r = Ok (a, current') -> post a (tokens_left tokens current').

(** Whatever [m] returns or throws, [m'] does the same. *)
Definition mono {A} (m m' : P A) : Prop :=
  forall current r, m current = Some r -> m' current = Some r.

(** The token vector the tokenizer returns for [source] (empty when it
    throws); used to build the examples. *)
Definition tokens_of (source : string) : list Token :=
  match Tokenizer.tokenize (fun _ => false) source with
  | Some (Ok tokens) => tokens
  | _ => []
  end.

End ParserInvariants.

(** ** The driver (main.cpp) *)

Module Driver.
Import lexer parser.

Section WithStod.
Variable stod_erange : string -> bool.

(** [main] from the point where [source] holds the program text: the
    exit status.  An exception of the tokenizer is caught by the handler
    of [main], a null tree makes it print [Parse failed!]; both paths
    return 1.  [fuel] is the parser's recursion budget. *)
Definition main (source : string) (fuel : nat) : option Z :=
  match Tokenizer.tokenize stod_erange source with
  | None => None
  | Some (Throw _) => Some 1%Z
  | Some (Ok tokens) =>
    match Parser.parse tokens fuel with
    | None => None
    | Some None => Some 1%Z
    | Some (Some _) => Some 0%Z
    end
  end.

End WithStod.
End Driver.

(** ** More vocabulary for the code generator *)

Module CompilerInvariants.
Import lexer parser llvm Compiler CompilerProps.

(** [c'] is [c] after lowering statements: instructions were appended at
    the insertion point of [c], which is still the insertion point; the
    blocks and the current function and block are as they were. *)
Definition appended (c c' : Compiler) : Prop :=
  blocks c' = blocks c /\ insert_point c' = insert_point c /\
  currentFunction c' = currentFunction c /\ currentBlock c' = currentBlock c /\
  exists new, emitted c' = (emitted c ++ new)%list /\
    Forall (fun e => fst e = insert_point c) new.

(** The statements that [compileStatement] generates code for. *)
Definition is_lowered_statement (stmt : Statement) : bool :=
  match stmt with
  | AssignmentStatement _ _ | ExpressionStatement _ | ReturnStatement _ => true
  | IfStatement _ _ | WhileStatement _ _ | ForStatement _ _ _ | MatchStatement _ _ => false
  end.

Definition is_function_declaration (decl : Declaration) : bool :=
  match decl with
  | FunctionDeclaration _ _ _ _ => true
  | _ => false
  end.

(** The entry block of [main] is block 0 of the module. *)
Definition main_block : nat := 0.

End CompilerInvariants.

(** * Properties *)

(** ** Loops *)

Section While.
Context {S : Type} (cond : S -> bool) (body : S -> S).

(** An invariant of the body is an invariant of the loop. *)
Lemma while_invariant (I : S -> Prop) :
  (forall s, I s -> cond s = true -> I (body s)) ->
  forall fuel s, I s -> I (while_ fuel cond body s).
Proof.
  intros Hstep fuel. induction fuel as [|fuel IH]; intros s Hs; simpl.
  - exact Hs.
  - destruct (cond s) eqn:Hc.
    + apply IH. now apply Hstep.
    + exact Hs.
Qed.

(** With a measure that the body decreases, fuel equal to the measure is
    enough: the loop stops because its condition is false. *)
Lemma while_exit (mu : S -> nat) :
  (forall s, cond s = true -> mu (body s) < mu s) ->
  forall fuel s, mu s <= fuel -> cond (while_ fuel cond body s) = false.
Proof.
  intros Hdec fuel. induction fuel as [|fuel IH]; intros s Hmu; simpl.
  - destruct (cond s) eqn:Hc; [|reflexivity].
    specialize (Hdec s Hc). lia.
  - destruct (cond s) eqn:Hc; [|exact Hc].
    apply IH. specialize (Hdec s Hc). lia.
Qed.

(** More fuel than the measure changes nothing. *)
Lemma while_fuel_irrelevant (mu : S -> nat) :
  (forall s, cond s = true -> mu (body s) < mu s) ->
  forall fuel fuel' s, mu s <= fuel -> mu s <= fuel' ->
    while_ fuel cond body s = while_ fuel' cond body s.
Proof.
  intros Hdec fuel. induction fuel as [|fuel IH]; intros fuel' s H1 H2.
  - destruct fuel' as [|fuel']; simpl; [reflexivity|].
    destruct (cond s) eqn:Hc; [|reflexivity]. specialize (Hdec s Hc). lia.
  - destruct fuel' as [|fuel']; simpl.
    + destruct (cond s) eqn:Hc; [|reflexivity]. specialize (Hdec s Hc). lia.
    + destruct (cond s) eqn:Hc; [|reflexivity].
      specialize (Hdec s Hc). apply IH; lia.
Qed.

End While.

(** ** Strings *)

Lemma get_lt_length (s : string) (i : nat) (c : ascii) :
  String.get i s = Some c -> i < String.length s.
Proof.
  revert i. induction s as [|a s IH]; intros i H; simpl in *.
  - destruct i; discriminate.
  - destruct i as [|i]; [lia|]. apply IH in H. lia.
Qed.

Lemma get_char_at (s : string) (i : nat) :
  i < String.length s -> String.get i s = Some (char_at s i).
Proof.
  unfold char_at. revert i. induction s as [|a s IH]; intros i H; simpl in *.
  - lia.
  - destruct i as [|i]; [reflexivity|]. apply IH. lia.
Qed.

Lemma substring_first (s : string) (p m : nat) (c : ascii) :
  String.get p s = Some c ->
  String.substring p (Datatypes.S m) s = String c (String.substring (Datatypes.S p) m s).
Proof.
  revert p. induction s as [|a s IH]; intros p H.
  - destruct p; discriminate.
  - destruct p as [|p]; simpl in *.
    + injection H as ->. reflexivity.
    + rewrite (IH p H). reflexivity.
Qed.

Lemma substring_last (s : string) (p m : nat) (c : ascii) :
  String.get (p + m) s = Some c ->
  String.substring p (Datatypes.S m) s = (String.substring p m s ++ String c EmptyString)%string.
Proof.
  revert p m. induction s as [|a s IH]; intros p m H.
  - destruct (p + m); discriminate.
  - destruct p as [|p].
    + destruct m as [|m]; simpl in H |- *.
      * injection H as ->. destruct s; reflexivity.
      * rewrite (IH 0 m H). reflexivity.
    + simpl in H. simpl. apply IH. exact H.
Qed.

(** A slice that starts and ends on known characters. *)
Lemma substring_delimited (s : string) (p m : nat) (c d : ascii) :
  String.get p s = Some c ->
  String.get (p + 1 + m) s = Some d ->
  String.substring p (m + 2) s
  = String c (String.substring (p + 1) m s ++ String d EmptyString)%string.
Proof.
  intros Hc Hd.
  replace (m + 2) with (Datatypes.S (Datatypes.S m)) by lia.
  rewrite (substring_first s p (Datatypes.S m) c Hc). f_equal.
  replace (Datatypes.S p) with (p + 1) by lia.
  apply substring_last. exact Hd.
Qed.

(** ** Tokenizer *)

Module TokenizerFacts.
Import lexer Tokenizer TokenizerProps.

Lemma extends_refl t : extends t t.
Proof. unfold extends. auto. Qed.

Lemma extends_trans t1 t2 t3 : extends t1 t2 -> extends t2 t3 -> extends t1 t3.
Proof. unfold extends. intros (?&?&?&?) (?&?&?&?). repeat split; try congruence; lia. Qed.

Lemma extends_remaining t t' : extends t t' -> remaining t' <= remaining t.
Proof. unfold extends, remaining. intros (->&_&_&?). lia. Qed.

Lemma isAtEnd_false t : isAtEnd t = false <-> current t < String.length (source t).
Proof. unfold isAtEnd. rewrite Nat.leb_gt. reflexivity. Qed.

Lemma isAtEnd_true t : isAtEnd t = true <-> String.length (source t) <= current t.
Proof. unfold isAtEnd. rewrite Nat.leb_le. reflexivity. Qed.

Lemma advance_extends t : extends t (snd (advance t)).
Proof.
  unfold advance. destruct (isAtEnd t); [apply extends_refl|].
  destruct (Ascii.eqb _ _); unfold extends; simpl; repeat split; lia.
Qed.

Lemma advance_step t :
  isAtEnd t = false ->
  fst (advance t) = char_at (source t) (current t) /\
  current (snd (advance t)) = current t + 1.
Proof.
  intros H. unfold advance. rewrite H.
  destruct (Ascii.eqb _ _); simpl; auto.
Qed.

Lemma advance_remaining t :
  isAtEnd t = false -> remaining (snd (advance t)) < remaining t.
Proof.
  intros H. pose proof (advance_step t H) as [_ Hc].
  pose proof (advance_extends t) as (Hs&_).
  apply isAtEnd_false in H. unfold remaining. rewrite Hs, Hc. lia.
Qed.

Lemma match_extends expected t : extends t (snd (match_ expected t)).
Proof.
  unfold match_. destruct (isAtEnd t); [apply extends_refl|].
  destruct (negb _); [apply extends_refl|].
  unfold extends; simpl; repeat split; lia.
Qed.

(** A scanning loop only moves the cursor forward. *)
Lemma scan_extends cond body fuel t :
  (forall s, extends s (body s)) ->
  extends t (while_ fuel cond body t).
Proof.
  intros Hb. apply (while_invariant cond body (extends t)); [|apply extends_refl].
  intros s Hs _. eapply extends_trans; [exact Hs|apply Hb].
Qed.

(** A scanning loop whose condition excludes the end of the text stops
    because the condition fails. *)
Lemma scan_exit cond body t :
  (forall s, cond s = true -> remaining (body s) < remaining s) ->
  cond (while_ (remaining t) cond body t) = false.
Proof. intros H. apply (while_exit cond body remaining H). lia. Qed.

Lemma skipWhitespace_extends t : extends t (skipWhitespace t).
Proof. apply scan_extends. intros; apply advance_extends. Qed.

Lemma skipWhitespace_exit t :
  let t' := skipWhitespace t in
  negb (isAtEnd t') && isspace (peek t') && negb (Ascii.eqb (peek t') LF) = false.
Proof.
  apply (scan_exit (fun t => negb (isAtEnd t) && isspace (peek t) && negb (Ascii.eqb (peek t) LF))).
  intros s H. apply advance_remaining.
  destruct (isAtEnd s); [discriminate|reflexivity].
Qed.

Lemma skipComment_extends t : extends t (skipComment t).
Proof. apply scan_extends. intros; apply advance_extends. Qed.

Lemma skipComment_exit t :
  let t' := skipComment t in
  negb (isAtEnd t') && negb (Ascii.eqb (peek t') LF) = false.
Proof.
  apply (scan_exit (fun t => negb (isAtEnd t) && negb (Ascii.eqb (peek t) LF))).
  intros s H. apply advance_remaining.
  destruct (isAtEnd s); [discriminate|reflexivity].
Qed.

Lemma scan_digits_extends t : extends t (scan_digits t).
Proof. apply scan_extends. intros; apply advance_extends. Qed.

Lemma scan_digits_exit t :
  negb (isAtEnd (scan_digits t)) && isdigit (peek (scan_digits t)) = false.
Proof.
  apply (scan_exit (fun t => negb (isAtEnd t) && isdigit (peek t))).
  intros s H. apply advance_remaining.
  destruct (isAtEnd s); [discriminate|reflexivity].
Qed.

(** The counting loop of [handleIndentation] stops at the first character
    that is not a space, or at the end of the text. *)
Lemma count_indent_exit t :
  let s := count_indent t in
  (snd s <? String.length (source t)) && Ascii.eqb (char_at (source t) (snd s)) SPACE = false.
Proof.
  unfold count_indent.
  apply (while_exit
           (fun s : nat * nat =>
              (snd s <? String.length (source t)) &&
              Ascii.eqb (char_at (source t) (snd s)) SPACE)
           (fun s : nat * nat => (fst s + 1, snd s + 1))
           (fun s : nat * nat => String.length (source t) - snd s)).
  - intros s H. apply andb_true_iff in H as [H _]. apply Nat.ltb_lt in H. simpl. lia.
  - unfold remaining. simpl. lia.
Qed.

(** The popping loop of [handleIndentation] stops with a top that is not
    above the new level, or with an empty stack. *)
Lemma pop_dedents_exit spaces dedent v :
  let s := pop_dedents spaces dedent v in
  negb (empty (fst s)) && (spaces <? back (fst s)) = false.
Proof.
  unfold pop_dedents.
  apply (while_exit
           (fun s : list nat * list Token => negb (empty (fst s)) && (spaces <? back (fst s)))
           (fun s : list nat * list Token => (pop_back (fst s), (snd s ++ [dedent])%list))
           (fun s : list nat * list Token => List.length (fst s))).
  - intros [st toks] H. simpl in *. apply andb_true_iff in H as [H _].
    destruct st as [|a st]; [discriminate|]. unfold pop_back.
    clear. revert a. induction st as [|b st IH]; intros a; simpl; [lia|].
    specialize (IH b). simpl in IH. lia.
  - simpl. lia.
Qed.

(** A loop that is entered with its condition true runs its body once. *)
Lemma scan_progress cond t :
  cond t = true -> isAtEnd t = false ->
  current t < current (while_ (remaining t) cond (fun t => snd (advance t)) t).
Proof.
  intros Hc He.
  assert (Hr : remaining t <> 0).
  { apply isAtEnd_false in He. unfold remaining. lia. }
  destruct (remaining t) as [|fuel]; [congruence|]. simpl. rewrite Hc.
  pose proof (advance_step t He) as [_ H1].
  pose proof (scan_extends cond (fun t => snd (advance t)) fuel (snd (advance t))
                (fun s => advance_extends s)) as (_&_&_&H2).
  lia.
Qed.

(** *** The indentation stack *)

Lemma sorted_le_back (v : list nat) (y : nat) :
  StronglySorted lt v -> In y v -> y <= back v.
Proof.
  unfold back. induction 1 as [|a l Hs IH Hall]; intros Hin; [destruct Hin|].
  destruct Hin as [->|Hin].
  - destruct l as [|b l]; [simpl; lia|].
    assert (Hb : In (List.last (b :: l) 0) (b :: l)).
    { clear. generalize b. induction l as [|c l IHl]; intros b0; [left; reflexivity|].
      right. apply IHl. }
    rewrite List.Forall_forall in Hall. specialize (Hall _ Hb).
    change (List.last (y :: b :: l) 0) with (List.last (b :: l) 0). lia.
  - destruct l as [|b l]; [destruct Hin|].
    change (List.last (a :: b :: l) 0) with (List.last (b :: l) 0). auto.
Qed.

Lemma sorted_push_back (v : list nat) (x : nat) :
  StronglySorted lt v -> (v = [] \/ back v < x) -> StronglySorted lt (push_back v x).
Proof.
  unfold push_back. intros Hs Hx.
  assert (Hall : forall y, In y v -> y < x).
  { intros y Hy. destruct Hx as [->|Hx]; [destruct Hy|].
    pose proof (sorted_le_back v y Hs Hy). lia. }
  clear Hx. induction Hs as [|a l Hs IH Hl]; simpl.
  - constructor; constructor.
  - constructor.
    + apply IH. intros y Hy. apply Hall. right; exact Hy.
    + rewrite List.Forall_forall in *. intros y Hy. apply in_app_or in Hy.
      destruct Hy as [Hy|[<-|[]]]; [auto|]. apply Hall. left; reflexivity.
Qed.

Lemma in_removelast (v : list nat) (y : nat) : In y (List.removelast v) -> In y v.
Proof.
  induction v as [|a v IH]; simpl; [auto|].
  destruct v as [|b v]; [intros []|].
  intros [->|H]; [left; reflexivity|right; apply IH; exact H].
Qed.

Lemma sorted_pop_back (v : list nat) :
  StronglySorted lt v -> StronglySorted lt (pop_back v).
Proof.
  unfold pop_back. induction 1 as [|a l Hs IH Hl]; simpl; [constructor|].
  destruct l as [|b l]; [constructor|].
  constructor; [exact IH|].
  rewrite List.Forall_forall in *. intros y Hy. apply Hl. apply (in_removelast (b :: l)). exact Hy.
Qed.

Lemma stack_ok_push v x : stack_ok v -> back v < x -> stack_ok (push_back v x).
Proof.
  intros [[rest ->] Hs] Hx. split.
  - exists (rest ++ [x])%list. reflexivity.
  - apply sorted_push_back; auto.
Qed.

(** The base level is never popped: popping happens only while the top is
    greater than a level, and the base is 0. *)
Lemma stack_ok_pop v spaces : stack_ok v -> spaces < back v -> stack_ok (pop_back v).
Proof.
  intros [[rest ->] Hs] Hx. split.
  - destruct rest as [|b rest]; [unfold back in Hx; simpl in Hx; lia|].
    exists (List.removelast (b :: rest)). reflexivity.
  - apply sorted_pop_back. exact Hs.
Qed.

Lemma pop_dedents_stack spaces dedent v :
  stack_ok v -> stack_ok (fst (pop_dedents spaces dedent v)).
Proof.
  intros Hv. unfold pop_dedents.
  apply (while_invariant _ _ (fun s => stack_ok (fst s))); [|exact Hv].
  intros [st toks] H1 Hc. simpl in *.
  apply andb_true_iff in Hc as [_ Hc]. apply Nat.ltb_lt in Hc.
  eapply stack_ok_pop; eauto.
Qed.

Lemma pop_dedents_tokens spaces dedent v :
  Forall (eq dedent) (snd (pop_dedents spaces dedent v)).
Proof.
  unfold pop_dedents.
  apply (while_invariant _ _ (fun s => Forall (eq dedent) (snd s))); [|constructor].
  intros [st toks] H _. simpl in *.
  apply Forall_app. split; [exact H|]. constructor; [reflexivity|constructor].
Qed.

Lemma hd_all_eq {A} (d : A) (l : list A) : Forall (eq d) l -> List.hd d l = d.
Proof. destruct 1; [reflexivity|simpl; congruence]. Qed.

Lemma handleIndentation_spec t tok t' :
  handleIndentation t = Ok (tok, t') ->
  source t' = source t /\ current t' = current t /\ start t' = start t /\
  (stack_ok (indent_stack t) -> stack_ok (indent_stack t')) /\
  (type tok = INDENT \/ type tok = DEDENT \/ type tok = NEWLINE).
Proof.
  unfold handleIndentation.
  destruct (negb _); [discriminate|].
  set (spaces := fst (count_indent t) / 4).
  destruct (empty (indent_stack t) || (back (indent_stack t) <? spaces)) eqn:Hpush.
  - intros H; injection H as <- <-. simpl.
    refine (conj eq_refl (conj eq_refl (conj eq_refl (conj _ _)))); [|auto].
    intros Hok. apply stack_ok_push; [exact Hok|].
    apply orb_true_iff in Hpush as [He|Hlt]; [|apply Nat.ltb_lt; exact Hlt].
    destruct Hok as [[rest Hr] _]. rewrite Hr in He. discriminate He.
  - destruct (spaces <? back (indent_stack t)) eqn:Hlt.
    + set (dedent := mkToken DEDENT EmptyString monostate (line t) (column t)).
      pose proof (pop_dedents_stack spaces dedent (indent_stack t)) as Hstack.
      pose proof (pop_dedents_tokens spaces dedent (indent_stack t)) as Htokens.
      destruct (pop_dedents spaces dedent (indent_stack t)) as [stack dedent_tokens].
      destruct (empty stack || negb (back stack =? spaces)); [discriminate|].
      intros H; injection H as <- <-. simpl in *.
      refine (conj eq_refl (conj eq_refl (conj eq_refl (conj Hstack _)))).
      right; left. rewrite (hd_all_eq dedent dedent_tokens Htokens). reflexivity.
    + intros H; injection H as <- <-.
      refine (conj eq_refl (conj eq_refl (conj eq_refl (conj (fun H => H) _)))). auto.
Qed.

(** *** Token scanners *)

Lemma keywords_find_plain text ty :
  keywords_find keywords text = Some ty -> plain_type ty.
Proof.
  unfold keywords, keywords_find.
  repeat (destruct (String.eqb _ text);
          [intros H; injection H as <-; split; discriminate|]).
  discriminate.
Qed.

Lemma string_body_extends s :
  extends s
    (if Ascii.eqb (peek s) BACKSLASH
     then let s1 := snd (advance s) in if negb (isAtEnd s1) then snd (advance s1) else s1
     else snd (advance s)).
Proof.
  destruct (Ascii.eqb _ _); [|apply advance_extends].
  simpl. destruct (negb _).
  - eapply extends_trans; apply advance_extends.
  - apply advance_extends.
Qed.

(** What [string()] returns: the lexeme is the slice of the source from the
    opening quote to the closing quote, and the value is the lexeme without
    these two characters. *)
Lemma string_spec t tok t' :
  string_ t = Ok (tok, t') -> isAtEnd t = false -> current t = start t ->
  exists v,
    type tok = STRING /\ value tok = v_string v /\
    lexeme tok = String (peek t) (v ++ String (peek t) EmptyString)%string /\
    lexeme tok = String.substring (start t) (current t' - start t) (source t) /\
    extends t t' /\ current t < current t'.
Proof.
  unfold string_. intros H He Hstart.
  set (quote := peek t) in *.
  set (t1 := snd (advance t)) in *.
  set (cond := fun t0 : Tokenizer => negb (isAtEnd t0) && negb (Ascii.eqb (peek t0) quote)) in *.
  set (body := fun t0 : Tokenizer =>
         if Ascii.eqb (peek t0) BACKSLASH
         then let t2 := snd (advance t0) in if negb (isAtEnd t2) then snd (advance t2) else t2
         else snd (advance t0)) in *.
  set (t2 := while_ (remaining t1) cond body t1) in *.
  destruct (isAtEnd t2) eqn:He2; [discriminate|].
  injection H as <- <-.
  pose proof (advance_extends t) as E1. fold t1 in E1.
  pose proof (advance_step t He) as [_ C1]. fold t1 in C1.
  assert (E2 : extends t1 t2).
  { apply scan_extends. intros s. apply string_body_extends. }
  assert (X2 : cond t2 = false).
  { apply scan_exit. intros s Hc. unfold cond in Hc. unfold body.
    assert (Hs : isAtEnd s = false) by (destruct (isAtEnd s); [discriminate|reflexivity]).
    pose proof (advance_remaining s Hs) as Hr.
    destruct (Ascii.eqb (peek s) BACKSLASH); [|exact Hr].
    simpl. destruct (negb (isAtEnd (snd (advance s)))); [|exact Hr].
    pose proof (extends_remaining _ _ (advance_extends (snd (advance s)))). lia. }
  unfold cond in X2. rewrite He2 in X2. simpl in X2.
  apply negb_false_iff, Ascii.eqb_eq in X2.
  pose proof (advance_extends t2) as E3.
  pose proof (advance_step t2 He2) as [_ C3].
  set (t3 := snd (advance t2)) in *.
  destruct E1 as (S1&B1&I1&L1). destruct E2 as (S2&B2&I2&L2). destruct E3 as (S3&B3&I3&L3).
  assert (Hsrc : source t3 = source t) by congruence.
  assert (Hst : start t3 = start t) by congruence.
  assert (Hq1 : String.get (start t) (source t) = Some quote).
  { unfold quote, peek. rewrite He, <- Hstart. apply get_char_at.
    apply isAtEnd_false. exact He. }
  assert (Hq2 : String.get (start t + 1 + (current t2 - start t - 1)) (source t) = Some quote).
  { replace (start t + 1 + (current t2 - start t - 1)) with (current t2) by lia.
    rewrite <- X2. unfold peek. rewrite He2.
    replace (source t) with (source t2) by congruence.
    apply get_char_at. apply isAtEnd_false. exact He2. }
  exists (String.substring (start t3 + 1) (current t3 - start t3 - 2) (source t3)).
  simpl. unfold token_text.
  rewrite Hsrc, Hst, C3.
  replace (current t2 + 1 - start t - 2) with (current t2 - start t - 1) by lia.
  replace (current t2 + 1 - start t) with (current t2 - start t - 1 + 2) at 1 by lia.
  rewrite (substring_delimited (source t) (start t) (current t2 - start t - 1) quote quote Hq1 Hq2).
  repeat split; try reflexivity; try congruence; try lia.
Qed.

Lemma number_spec stod_erange t tok t' :
  number stod_erange t = Ok (tok, t') ->
  extends t t' /\ plain_type (type tok) /\
  (isAtEnd t = false -> isdigit (peek t) = true -> current t < current t').
Proof.
  unfold number. intros H.
  pose proof (scan_digits_extends t) as E1.
  assert (P1 : isAtEnd t = false -> isdigit (peek t) = true -> current t < current (scan_digits t)).
  { intros He Hd. apply scan_progress; [|exact He]. rewrite He, Hd. reflexivity. }
  destruct (negb (isAtEnd (scan_digits t)) && Ascii.eqb (peek (scan_digits t)) "." &&
            isdigit (peekNext (scan_digits t))).
  - pose proof (advance_extends (scan_digits t)) as E2.
    pose proof (scan_digits_extends (snd (advance (scan_digits t)))) as E3.
    assert (E : extends t (scan_digits (snd (advance (scan_digits t))))).
    { eapply extends_trans; [exact E1|]. eapply extends_trans; eassumption. }
    destruct (stod _ _); [|discriminate]. injection H as <- <-.
    split; [exact E|]. split; [split; discriminate|].
    intros He Hd. specialize (P1 He Hd).
    destruct E2 as (_&_&_&?). destruct E3 as (_&_&_&?). lia.
  - destruct (stoll _); [|discriminate]. injection H as <- <-.
    split; [exact E1|]. split; [split; discriminate|exact P1].
Qed.

Lemma identifier_spec t tok t' :
  identifier t = Ok (tok, t') ->
  extends t t' /\ plain_type (type tok) /\
  (isAtEnd t = false -> isalnum (peek t) || Ascii.eqb (peek t) "_" = true ->
   current t < current t').
Proof.
  unfold identifier. intros H.
  set (cond := fun t0 : Tokenizer =>
         negb (isAtEnd t0) && (isalnum (peek t0) || Ascii.eqb (peek t0) "_")) in *.
  set (t1 := while_ (remaining t) cond (fun t0 => snd (advance t0)) t) in *.
  assert (E1 : extends t t1).
  { apply scan_extends. intros; apply advance_extends. }
  assert (P1 : isAtEnd t = false -> isalnum (peek t) || Ascii.eqb (peek t) "_" = true ->
               current t < current t1).
  { intros He Hd. apply scan_progress; [|exact He]. unfold cond. rewrite He, Hd. reflexivity. }
  assert (Hty : plain_type (type tok) /\ t' = t1).
  { destruct (keywords_find keywords (token_text t1)) as [ty|] eqn:Hk.
    - injection H as <- <-. split; [|reflexivity]. simpl. eapply keywords_find_plain; eauto.
    - repeat (destruct (String.eqb (token_text t1) _);
              [injection H as <- <-; split; [split; discriminate|reflexivity]|]).
      injection H as <- <-. split; [split; discriminate|reflexivity]. }
  destruct Hty as [Hty ->]. auto.
Qed.

(** *** nextToken *)

Section NextToken.
Variable stod_erange : string -> bool.

(** The five ways in which [nextToken] returns a token. *)
Lemma nextToken_cases t tok t' :
  nextToken stod_erange t = Ok (tok, t') ->
  let t2 := at_token_start t in
  let t3 := snd (advance t2) in
  (isAtEnd t2 = true /\ type tok = EOF_TOKEN /\ t' = skipWhitespace t)
  \/ (isAtEnd t2 = false /\
      (handleIndentation t3 = Ok (tok, t')
       \/ (string_ (reset_to_start t3) = Ok (tok, t') /\
           Ascii.eqb (peek t2) DQUOTE || Ascii.eqb (peek t2) SQUOTE = true)
       \/ (number stod_erange (reset_to_start t3) = Ok (tok, t') /\ isdigit (peek t2) = true)
       \/ (identifier (reset_to_start t3) = Ok (tok, t') /\
           isalpha (peek t2) || Ascii.eqb (peek t2) "_" = true)
       \/ (plain_type (type tok) /\ extends t3 t'))).
Proof.
  unfold nextToken, at_token_start. intros H. simpl.
  set (t1 := skipWhitespace t) in *.
  set (t2 := mkTokenizer (source t1) (current t1) (current t1) (line t1) (column t1)
                         (indent_stack t1)) in *.
  change (isAtEnd t1) with (isAtEnd t2) in H.
  destruct (isAtEnd t2) eqn:He.
  { injection H as <- <-. left. auto. }
  right. split; [reflexivity|].
  pose proof (advance_step t2 He) as [Hc _].
  assert (Hpeek : peek t2 = fst (advance t2)).
  { unfold peek. rewrite He. symmetry. exact Hc. }
  rewrite Hpeek. clear Hpeek Hc.
  destruct (advance t2) as [c t3]. simpl.
  destruct (Ascii.eqb c LF); [left; exact H|].
  destruct (Ascii.eqb c "#").
  { injection H as <- <-. do 4 right. split; [split; discriminate|apply skipComment_extends]. }
  destruct (Ascii.eqb c DQUOTE || Ascii.eqb c SQUOTE); [right; left; auto|].
  destruct (isdigit c) eqn:Hd; [right; right; left; auto|].
  destruct (isalpha c || Ascii.eqb c "_") eqn:Ha; [right; right; right; left; auto|].
  do 4 right.
  repeat match type of H with
  | (if Ascii.eqb c ?x then _ else _) = _ => destruct (Ascii.eqb c x)
  | (let '(m, t0) := match_ ?x t3 in _) = _ =>
      let Hx := fresh "Hx" in
      pose proof (match_extends x t3) as Hx;
      destruct (match_ x t3) as [[|] ?t4]; simpl in Hx
  | Ok (makeToken _ _, _) = Ok _ =>
      injection H as <- <-; split; [split; discriminate|first [assumption|apply extends_refl]]
  | Throw _ = Ok _ => discriminate H
  end.
Qed.

(** Whatever [nextToken] throws is a lexical error. *)
Lemma nextToken_throws t e :
  nextToken stod_erange t = Throw e -> lexical_error e.
Proof.
  unfold nextToken. intros H.
  destruct (isAtEnd (skipWhitespace t)); [discriminate|].
  destruct (advance _) as [c t3].
  destruct (Ascii.eqb c LF).
  { unfold handleIndentation in H.
    repeat match type of H with
    | (if ?b then _ else _) = _ => destruct b
    | (let '(a, b) := ?p in _) = _ => destruct p
    | Throw _ = Throw _ => injection H as <-; exact I
    | Ok _ = Throw _ => discriminate H
    end. }
  destruct (Ascii.eqb c "#"); [discriminate|].
  destruct (Ascii.eqb c DQUOTE || Ascii.eqb c SQUOTE).
  { unfold string_ in H. destruct (isAtEnd _); [injection H as <-; exact I|discriminate]. }
  destruct (isdigit c).
  { unfold number, stod, stoll in H.
    repeat match type of H with
    | (if ?b then _ else _) = _ => destruct b
    | match (if ?b then _ else _) with _ => _ end = _ => destruct b
    | Throw _ = Throw _ => injection H as <-; exact I
    | Ok _ = Throw _ => discriminate H
    end. }
  destruct (isalpha c || Ascii.eqb c "_").
  { unfold identifier in H. destruct (keywords_find _ _); [discriminate|].
    repeat match type of H with
    | (if ?b then _ else _) = _ => destruct b
    | Ok _ = Throw _ => discriminate H
    end. }
  repeat match type of H with
  | (if Ascii.eqb c ?x then _ else _) = _ => destruct (Ascii.eqb c x)
  | (let '(m, t0) := match_ ?x t3 in _) = _ => destruct (match_ x t3) as [[|] ?t4]
  | Ok _ = Throw _ => discriminate H
  | Throw _ = Throw _ => injection H as <-; exact I
  end.
Qed.

(** A call that does not return EOF reads at least one character. *)
Lemma nextToken_progress t tok t' :
  nextToken stod_erange t = Ok (tok, t') ->
  source t' = source t /\
  (type tok <> EOF_TOKEN -> remaining t' < remaining t).
Proof.
  intros H. apply nextToken_cases in H. simpl in H.
  pose proof (skipWhitespace_extends t) as E1.
  set (t2 := at_token_start t) in *.
  assert (S2 : source t2 = source t) by apply E1.
  assert (C2 : current t <= current t2) by apply E1.
  destruct H as [(_&Hty&->)|(He&H)].
  { split; [apply E1|]. intros Hne. congruence. }
  pose proof (advance_extends t2) as E3.
  pose proof (advance_step t2 He) as [_ C3].
  set (t3 := snd (advance t2)) in *.
  assert (S3 : source t3 = source t) by (destruct E3 as (->&_); exact S2).
  assert (L2 : current t2 < String.length (source t)).
  { rewrite <- S2. apply isAtEnd_false. exact He. }
  assert (R : forall x, source x = source t -> current t2 < current x ->
                        remaining x < remaining t).
  { intros x Hs Hx. unfold remaining. rewrite Hs. lia. }
  assert (He0 : isAtEnd (reset_to_start t3) = false).
  { apply isAtEnd_false. simpl. destruct E3 as (->&->&_). exact (proj1 (isAtEnd_false t2) He). }
  assert (Hpk : peek (reset_to_start t3) = peek t2).
  { unfold peek. rewrite He0, He. simpl. destruct E3 as (->&->&_). reflexivity. }
  assert (C0 : current (reset_to_start t3) = current t2).
  { simpl. destruct E3 as (_&->&_). reflexivity. }
  assert (S0 : source (reset_to_start t3) = source t) by exact S3.
  destruct H as [H|[[H _]|[[H Hd]|[[H Ha]|[_ H]]]]].
  - apply handleIndentation_spec in H as (Hs&Hc&_). split; [congruence|].
    intros _. apply R; [congruence|lia].
  - apply string_spec in H as (v&_&_&_&_&(Hs&_)&Hc); [|exact He0|reflexivity].
    split; [congruence|]. intros _. apply R; [congruence|lia].
  - apply number_spec in H as ((Hs&_)&_&Hc). split; [congruence|].
    intros _. apply R; [congruence|].
    rewrite <- C0. apply Hc; [exact He0|]. rewrite Hpk. exact Hd.
  - apply identifier_spec in H as ((Hs&_)&_&Hc). split; [congruence|].
    intros _. apply R; [congruence|].
    rewrite <- C0. apply Hc; [exact He0|]. rewrite Hpk.
    apply orb_true_iff in Ha as [Ha|Ha]; apply orb_true_iff; [left|right; exact Ha].
    unfold isalnum. rewrite Ha. reflexivity.
  - destruct H as (Hs&_&_&Hc). split; [congruence|].
    intros _. apply R; [congruence|lia].
Qed.

(** [nextToken] keeps the indentation stack well formed. *)
Lemma nextToken_stack_ok t tok t' :
  nextToken stod_erange t = Ok (tok, t') ->
  stack_ok (indent_stack t) -> stack_ok (indent_stack t').
Proof.
  intros H Hok. apply nextToken_cases in H. simpl in H.
  pose proof (skipWhitespace_extends t) as (_&_&I1&_).
  set (t2 := at_token_start t) in *.
  assert (I2 : indent_stack t2 = indent_stack t) by exact I1.
  destruct H as [(_&_&->)|(He&H)]; [rewrite I1; exact Hok|].
  pose proof (advance_extends t2) as (_&_&I3&_).
  set (t3 := snd (advance t2)) in *.
  assert (I0 : indent_stack (reset_to_start t3) = indent_stack t) by (simpl; congruence).
  destruct H as [H|[[H _]|[[H _]|[[H _]|[_ H]]]]].
  - apply handleIndentation_spec in H as (_&_&_&Hs&_). apply Hs. rewrite I3, I2. exact Hok.
  - unfold string_ in H. destruct (isAtEnd _) in H; [discriminate|].
    injection H as _ <-.
    match goal with |- stack_ok (indent_stack (snd (advance ?x))) =>
      pose proof (advance_extends x) as (_&_&->&_) end.
    match goal with |- stack_ok (indent_stack (while_ ?f ?c ?b ?x)) =>
      pose proof (scan_extends c b f x string_body_extends) as (_&_&->&_) end.
    pose proof (advance_extends (reset_to_start t3)) as (_&_&->&_).
    rewrite I0. exact Hok.
  - apply number_spec in H as ((_&_&->&_)&_). rewrite I0. exact Hok.
  - apply identifier_spec in H as ((_&_&->&_)&_). rewrite I0. exact Hok.
  - destruct H as (_&_&->&_). rewrite I3, I2. exact Hok.
Qed.

Lemma isdigit_fails c : isdigit c = true -> never_fails c = false.
Proof.
  destruct c as [[] [] [] [] [] [] [] []]; vm_compute; intros H;
    first [reflexivity | discriminate H].
Qed.

(** On a source made of such characters no call of [nextToken] throws. *)
Lemma nextToken_never_fails t :
  all_never_fail (source t) -> exists tok t', nextToken stod_erange t = Ok (tok, t').
Proof.
  intros Hall. unfold nextToken.
  pose proof (skipWhitespace_extends t) as (Hs1 & _).
  pose proof (skipWhitespace_exit t) as Hws. simpl in Hws.
  set (t1 := skipWhitespace t) in *.
  destruct (isAtEnd t1) eqn:He; [eauto|].
  set (t2 := mkTokenizer (source t1) (current t1) (current t1) (line t1) (column t1)
                         (indent_stack t1)).
  assert (He2 : isAtEnd t2 = false) by exact He.
  pose proof (advance_step t2 He2) as [Hc _].
  assert (Hsafe : never_fails (fst (advance t2)) = true).
  { rewrite Hc. simpl. rewrite Hs1. apply Hall. rewrite <- Hs1.
    apply isAtEnd_false. exact He. }
  assert (Hblank : isspace (fst (advance t2)) && negb (Ascii.eqb (fst (advance t2)) LF) = false).
  { rewrite Hc. simpl. unfold peek in Hws. rewrite He in Hws. simpl in Hws. exact Hws. }
  clear Hc. destruct (advance t2) as [c t3]. simpl in Hsafe, Hblank.
  destruct (Ascii.eqb c LF) eqn:E1.
  { apply Ascii.eqb_eq in E1. subst c. discriminate Hsafe. }
  destruct (Ascii.eqb c "#") eqn:E2; [eauto|].
  destruct (Ascii.eqb c DQUOTE) eqn:E3.
  { apply Ascii.eqb_eq in E3. subst c. discriminate Hsafe. }
  destruct (Ascii.eqb c SQUOTE) eqn:E4.
  { apply Ascii.eqb_eq in E4. subst c. discriminate Hsafe. }
  simpl orb.
  destruct (isdigit c) eqn:E5.
  { apply isdigit_fails in E5. congruence. }
  destruct (isalpha c || Ascii.eqb c "_") eqn:E6.
  { unfold identifier. destruct (keywords_find _ _); [eauto|].
    repeat match goal with |- context [if ?b then _ else _] => destruct b end; eauto. }
  apply orb_false_iff in E6 as [E6 E7].
  unfold never_fails in Hsafe. rewrite E1 in Hsafe. rewrite Hblank, E6, E7 in Hsafe.
  simpl in Hsafe.
  repeat match goal with
  | |- context [if Ascii.eqb c ?x then _ else _] =>
      let E := fresh "E" in
      destruct (Ascii.eqb c x) eqn:E;
      [ first [ solve [eauto]
              | solve [destruct (match_ _ t3) as [[|] ?]; eauto]
              | (apply Ascii.eqb_eq in E; subst c; discriminate Hsafe) ]
      | rewrite ?E in Hsafe; simpl in Hsafe ]
  end.
  discriminate Hsafe.
Qed.

(** *** tokenize *)

Lemma tokenize_loop_never_fails fuel : forall t tokens,
  remaining t < fuel -> all_never_fail (source t) ->
  exists tokens' t', tokenize_loop stod_erange fuel t tokens = Some (Ok (tokens', t')).
Proof.
  induction fuel as [|fuel IH]; intros t tokens Hfuel Hall; [lia|].
  simpl. destruct (nextToken_never_fails t Hall) as (token & t' & Hn). rewrite Hn.
  destruct (TokenType_eqb (type token) EOF_TOKEN) eqn:Heof; [eauto|].
  apply nextToken_progress in Hn as [Hs Hp].
  apply IH; [|rewrite Hs; exact Hall].
  assert (type token <> EOF_TOKEN); [|specialize (Hp H); lia].
  intros E. unfold TokenType_eqb in Heof. apply bool_decide_eq_false in Heof. contradiction.
Qed.

Lemma tokenize_loop_spec fuel : forall t tokens,
  remaining t < fuel ->
  Forall (fun t => type t <> EOF_TOKEN) tokens ->
  exists r, tokenize_loop stod_erange fuel t tokens = Some r /\
    match r with
    | Throw e => lexical_error e
    | Ok (tokens', _) => ends_in_single_eof tokens'
    end.
Proof.
  induction fuel as [|fuel IH]; intros t tokens Hfuel Hpre; [lia|].
  simpl. destruct (nextToken stod_erange t) as [[token t']|e] eqn:Hn.
  - unfold TokenType_eqb. destruct (bool_decide (type token = EOF_TOKEN)) eqn:Heof.
    + apply bool_decide_eq_true in Heof.
      eexists. split; [reflexivity|]. exists tokens, token. auto.
    + apply bool_decide_eq_false in Heof.
      apply nextToken_progress in Hn as [_ Hp]. specialize (Hp Heof).
      apply IH; [lia|]. apply Forall_app. split; [exact Hpre|].
      constructor; [exact Heof|constructor].
  - eexists. split; [reflexivity|]. eapply nextToken_throws; exact Hn.
Qed.

(** Fuel beyond what the loop uses does not change its result. *)
Lemma tokenize_loop_more_fuel fuel : forall fuel' t tokens r,
  tokenize_loop stod_erange fuel t tokens = Some r -> fuel <= fuel' ->
  tokenize_loop stod_erange fuel' t tokens = Some r.
Proof.
  induction fuel as [|fuel IH]; intros fuel' t tokens r H Hle; [discriminate|].
  destruct fuel' as [|fuel']; [lia|]. simpl in *.
  destruct (nextToken stod_erange t) as [[token t']|e]; [|exact H].
  destruct (TokenType_eqb (type token) EOF_TOKEN); [exact H|].
  apply IH; [exact H|lia].
Qed.

Lemma single_eof_count (tokens : list Token) :
  ends_in_single_eof tokens ->
  List.length (List.filter (fun t => TokenType_eqb (type t) EOF_TOKEN) tokens) = 1.
Proof.
  intros (front & eof & -> & Heof & Hfront).
  rewrite List.filter_app, List.length_app. simpl.
  unfold TokenType_eqb at 2. rewrite bool_decide_eq_true_2 by exact Heof. simpl.
  assert (H0 : List.filter (fun t => TokenType_eqb (type t) EOF_TOKEN) front = []).
  { induction Hfront as [|x l Hx _ IH]; [reflexivity|]. simpl.
    unfold TokenType_eqb at 1. rewrite bool_decide_eq_false_2 by exact Hx. exact IH. }
  rewrite H0. reflexivity.
Qed.

(** C8, as the code has it: for every source string, [tokenize]
    terminates: the scanning loop ends within its bound (any larger bound
    gives the same result), either by raising one of the tokenizer's
    lexical errors, and then no sequence is returned, or by returning a
    token sequence; a returned sequence contains exactly one EOF token, and
    that token is its last element.  A source made only of blanks, letters,
    underscores and operator or delimiter characters other than [!] raises
    no error. *)
Theorem tokenize_terminates_with_single_eof (source : string) :
  exists r,
    tokenize stod_erange source = Some r /\
    (forall fuel, String.length source < fuel ->
       tokenize_loop stod_erange fuel (Tokenizer_new source) []
       = tokenize_from stod_erange (Tokenizer_new source)) /\
    match r with
    | Throw e => lexical_error e
    | Ok tokens =>
      ends_in_single_eof tokens /\
      List.length (List.filter (fun t => TokenType_eqb (type t) EOF_TOKEN) tokens) = 1
    end /\
    (all_never_fail source -> exists tokens, r = Ok tokens).
Proof.
  unfold tokenize, tokenize_from.
  destruct (tokenize_loop_spec (S (remaining (Tokenizer_new source)))
              (Tokenizer_new source) []) as (r & Hr & Hspec); [lia|constructor|].
  assert (Hfuel : forall fuel, String.length source < fuel ->
            tokenize_loop stod_erange fuel (Tokenizer_new source) [] = Some r).
  { intros fuel Hlt. eapply tokenize_loop_more_fuel; [exact Hr|].
    unfold remaining. simpl. lia. }
  assert (Hsafe : all_never_fail source -> exists tokens t', r = Ok (tokens, t')).
  { intros Hall.
    destruct (tokenize_loop_never_fails (S (remaining (Tokenizer_new source)))
                (Tokenizer_new source) [] ltac:(lia) Hall) as (tokens & t' & Hok).
    rewrite Hr in Hok. injection Hok as ->. eauto. }
  rewrite Hr. destruct r as [[tokens t']|e].
  - eexists. split; [reflexivity|]. split; [exact Hfuel|].
    split; [split; [exact Hspec|apply single_eof_count, Hspec]|]. eauto.
  - eexists. split; [reflexivity|]. split; [exact Hfuel|]. split; [exact Hspec|].
    intros Hall. destruct (Hsafe Hall) as (? & ? & [=]).
Qed.

(** C9: after construction and after every [nextToken] call that returns
    normally, the indentation stack is never empty, has base level 0 at the
    bottom, and is strictly increasing from bottom to top. *)
Theorem indent_stack_invariant (source : string) (n : nat) (t : Tokenizer) :
  nextToken_n stod_erange n (Tokenizer_new source) = Some t ->
  stack_ok (indent_stack t).
Proof.
  revert t. induction n as [|n IH]; intros t H; simpl in H.
  - injection H as <-. split; [exists []; reflexivity|].
    repeat constructor.
  - destruct (nextToken_n stod_erange n (Tokenizer_new source)) as [t0|]; [|discriminate].
    destruct (nextToken stod_erange t0) as [[tok t1]|e] eqn:Hn; [|discriminate].
    injection H as <-. eapply nextToken_stack_ok; [exact Hn|]. apply IH. reflexivity.
Qed.

(** C10: the value stored in a STRING token is the text between the opening
    and the closing quote, as it stands in the source: the lexeme is the
    slice of the source that the token covers, it starts and ends with the
    quote character, and the value is the lexeme without these two
    characters.  No character of it is translated. *)
Theorem string_token_value_verbatim (t : Tokenizer) (tok : Token) (t' : Tokenizer) :
  nextToken stod_erange t = Ok (tok, t') ->
  type tok = STRING ->
  exists quote v,
    (quote = DQUOTE \/ quote = SQUOTE) /\
    value tok = v_string v /\
    lexeme tok = String quote (v ++ String quote EmptyString)%string /\
    lexeme tok = String.substring (start t') (current t' - start t') (source t).
Proof.
  intros H Hty. apply nextToken_cases in H. simpl in H.
  set (t2 := at_token_start t) in *.
  destruct H as [(_&Heof&_)|(He&H)]; [congruence|].
  pose proof (advance_extends t2) as E3.
  set (t3 := snd (advance t2)) in *.
  destruct H as [H|[[H Hq]|[[H _]|[[H _]|[[_ H] _]]]]].
  - apply handleIndentation_spec in H as (_&_&_&_&[Hk|[Hk|Hk]]); congruence.
  - assert (He0 : isAtEnd (reset_to_start t3) = false).
    { apply isAtEnd_false. simpl. destruct E3 as (->&->&_).
      exact (proj1 (isAtEnd_false t2) He). }
    assert (Hpk : peek (reset_to_start t3) = peek t2).
    { unfold peek. rewrite He0, He. simpl. destruct E3 as (->&->&_). reflexivity. }
    apply string_spec in H as (v&_&Hv&Hl1&Hl2&(Hs&Hst&_)&_); [|exact He0|reflexivity].
    rewrite Hpk in Hl1. exists (peek t2), v.
    split.
    { apply orb_true_iff in Hq as [Hq|Hq]; apply Ascii.eqb_eq in Hq; auto. }
    split; [exact Hv|]. split; [exact Hl1|].
    rewrite Hl2, Hst. simpl. f_equal.
    destruct E3 as (->&_). pose proof (skipWhitespace_extends t) as (Hs1&_). exact Hs1.
  - apply number_spec in H as (_&(_&Hk)&_). congruence.
  - apply identifier_spec in H as (_&(_&Hk)&_). congruence.
  - congruence.
Qed.

(** C2, on the code: when a line returns two indentation levels at once,
    [handleIndentation] pops both levels and builds two DEDENT tokens, but
    hands out the first only; the next call of [nextToken] continues with
    the text.  The token stream of the example has two INDENT tokens and a
    single DEDENT token. *)
Theorem multi_level_dedent_emits_one_token :
  Examples.token_types (tokenize stod_erange Examples.two_level_dedent_source)
  = Some [IDENTIFIER; COLON; INDENT; IDENTIFIER; COLON; INDENT; IDENTIFIER;
          DEDENT; IDENTIFIER; EOF_TOKEN] /\
  (forall dedent, pop_dedents 0 dedent [0; 1; 2] = ([0], [dedent; dedent])) /\
  exists t t' token,
    nextToken_n stod_erange 7 (Tokenizer_new Examples.two_level_dedent_source) = Some t /\
    indent_stack t = [0; 1; 2] /\
    nextToken stod_erange t = Ok (token, t') /\
    type token = DEDENT /\ indent_stack t' = [0].
Proof.
  split; [vm_compute; reflexivity|]. split; [intros dedent; reflexivity|].
  do 3 eexists. split; [vm_compute; reflexivity|]. split; [reflexivity|].
  split; [vm_compute; reflexivity|]. split; reflexivity.
Qed.

End NextToken.

(** C8 as stated fails: on the source [x = ] followed by a double quote
    and [abc], whose string literal is not closed, [tokenize] throws and
    returns no token sequence, so its result holds no EOF token. *)
Lemma unterminated_string_returns_no_sequence :
  ~ (forall stod_erange source,
       exists tokens,
         tokenize stod_erange source = Some (Ok tokens) /\ ends_in_single_eof tokens).
Proof.
  intros H.
  destruct (H (fun _ => false) ("x = " ++ String DQUOTE "abc")%string) as (tokens & Ht & _).
  vm_compute in Ht. discriminate Ht.
Qed.

Lemma indent_stack_invariant_witness :
  exists t,
    nextToken_n (fun _ => false) 7 (Tokenizer_new Examples.two_level_dedent_source) = Some t /\
    stack_ok (indent_stack t).
Proof.
  eexists. split; [vm_compute; reflexivity|].
  apply (indent_stack_invariant (fun _ => false) Examples.two_level_dedent_source 7).
  vm_compute. reflexivity.
Defined.

Lemma string_token_value_verbatim_witness :
  exists tok t',
    nextToken (fun _ => false) (Tokenizer_new Examples.escaped_string_source) = Ok (tok, t') /\
    type tok = STRING /\
    value tok = v_string "a\nb" /\
    exists quote v,
      (quote = DQUOTE \/ quote = SQUOTE) /\
      value tok = v_string v /\
      lexeme tok = String quote (v ++ String quote EmptyString)%string /\
      lexeme tok = String.substring (start t') (current t' - start t')
                     Examples.escaped_string_source.
Proof.
  do 2 eexists. split; [vm_compute; reflexivity|]. split; [reflexivity|].
  split; [reflexivity|].
  apply (string_token_value_verbatim (fun _ => false)
           (Tokenizer_new Examples.escaped_string_source)); reflexivity.
Defined.

End TokenizerFacts.

(** ** Parser *)

Module ParserFacts.
Import lexer parser Parser ParserProps Examples.

(** C1, on the code: the postfix chain [call] is never reached.  On the
    tokens of [f(4)] the expression parser returns the identifier [f] and
    stops in front of the parenthesis, although [call] itself would build
    the call node; [parse] then fails on these tokens, and it fails on the
    tokens of the end-to-end example as well (at the INDENT token that
    opens the function body). *)
Theorem postfix_chain_never_reached (stod_erange : string -> bool) :
  exists tokens tokens',
    Tokenizer.tokenize stod_erange "f(4)" = Some (Ok tokens) /\
    Tokenizer.tokenize stod_erange end_to_end_source = Some (Ok tokens') /\
    forall n,
      expression tokens (40 + n) 0 = Some (Ok (name_expr "f", 1)) /\
      call tokens (40 + n) 0
        = Some (Ok (CallExpression (name_expr "f") [int_literal 4], 4)) /\
      parse tokens (40 + n) = Some None /\
      program tokens' (40 + n) 0 = Some (Throw (Parse_error 2 0 "Expect expression.")) /\
      parse tokens' (40 + n) = Some None.
Proof.
  do 2 eexists. split; [vm_compute; reflexivity|]. split; [vm_compute; reflexivity|].
  intros n. repeat split; vm_compute; reflexivity.
Qed.

(** C3, on the code: [ifStatement] asks for the colon before it parses the
    condition, so the tokens of the if/elif/else example are rejected at
    the condition [a] (line 1, column 3) and [parse] returns no program. *)
Theorem if_statement_rejected (stod_erange : string -> bool) :
  exists tokens,
    Tokenizer.tokenize stod_erange if_elif_else_source = Some (Ok tokens) /\
    forall n,
      statement tokens (40 + n) 0
        = Some (Throw (Parse_error 1 3 "Expect ':' after if condition.")) /\
      parse tokens (40 + n) = Some None.
Proof.
  eexists. split; [vm_compute; reflexivity|].
  intros n. split; vm_compute; reflexivity.
Qed.

(** C4 as stated fails: no amount of fuel makes the expression parser
    return the right-nested tree for [2 ** 3 ** 2]. *)
Lemma power_is_not_right_associative :
  ~ (exists tokens fuel current,
       Tokenizer.tokenize (fun _ => false) "2 ** 3 ** 2" = Some (Ok tokens) /\
       expression tokens fuel 0
       = Some (Ok (BinaryExpression BinaryOp.POWER (int_literal 2)
                     (BinaryExpression BinaryOp.POWER (int_literal 3) (int_literal 2)),
                   current))).
Proof.
  intros (tokens & fuel & current & Ht & H).
  vm_compute in Ht. injection Ht as <-.
  do 40 (destruct fuel as [|fuel]; [vm_compute in H; discriminate H|]).
  vm_compute in H. discriminate H.
Qed.

Lemma match_eq tokens ty current :
  match_ tokens ty current =
  let b := negb (isAtEnd tokens current) &&
           TokenType_eqb (type (tokens_at tokens current)) ty in
  Some (Ok (b, if b then current + 1 else current)).
Proof.
  unfold match_, bind, check, advance, peek, ret.
  destruct (isAtEnd tokens current) eqn:He; simpl; [reflexivity|].
  destruct (TokenType_eqb (type (tokens_at tokens current)) ty); [|reflexivity].
  rewrite He. reflexivity.
Qed.

Lemma match_any_eq tokens tys current :
  match_any tokens tys current =
  let b := negb (isAtEnd tokens current) &&
           existsb (TokenType_eqb (type (tokens_at tokens current))) tys in
  Some (Ok (b, if b then current + 1 else current)).
Proof.
  induction tys as [|ty tys IH]; simpl.
  - rewrite andb_false_r. reflexivity.
  - unfold bind. rewrite match_eq. simpl.
    destruct (isAtEnd tokens current); simpl.
    + rewrite IH. reflexivity.
    + destruct (TokenType_eqb (type (tokens_at tokens current)) ty); simpl; [reflexivity|].
      rewrite IH. reflexivity.
Qed.

Lemma TokenType_eqb_eq a b : TokenType_eqb a b = true -> a = b.
Proof. unfold TokenType_eqb. apply bool_decide_eq_true. Qed.

Lemma TokenType_eqb_refl a : TokenType_eqb a a = true.
Proof. unfold TokenType_eqb. apply bool_decide_eq_true. reflexivity. Qed.

Ltac eval_eqb H :=
  repeat match type of H with
  | context [TokenType_eqb ?a ?b] =>
      let v := eval vm_compute in (TokenType_eqb a b) in
      change (TokenType_eqb a b) with v in H
  end.

Ltac step_norm H He Hty :=
  simpl in H; unfold bind, previous, ret in H;
  repeat (rewrite match_eq in H; rewrite ?He, ?Hty in H; eval_eqb H; simpl in H);
  rewrite ?Nat.add_sub, ?Hty in H; simpl in H.

(** One round of the loop of a level: it stops in front of a token that is
    no operator of the level, or reads an operator and its operand and
    goes round again with the two trees joined under the operator. *)
Lemma level_loop_step tokens l fuel acc current e current' :
  level_loop tokens l (S fuel) acc current = Some (Ok (e, current')) ->
  ((isAtEnd tokens current = true \/
    level_operator l (type (tokens_at tokens current)) = None) /\
   e = acc /\ current' = current)
  \/ (isAtEnd tokens current = false /\
      exists op rhs current1,
        level_operator l (type (tokens_at tokens current)) = Some op /\
        operand_parser tokens l fuel (current + 1) = Some (Ok (rhs, current1)) /\
        level_loop tokens l fuel (BinaryExpression op acc rhs) current1
        = Some (Ok (e, current'))).
Proof.
  intros H.
  destruct (isAtEnd tokens current) eqn:He.
  - left. split; [left; reflexivity|].
    destruct l; step_norm H He He; injection H as <- <-; auto.
  - destruct (level_operator l (type (tokens_at tokens current))) as [op|] eqn:Hop.
    + right. split; [reflexivity|]. exists op.
      destruct l; destruct (type (tokens_at tokens current)) eqn:Hty;
        try discriminate Hop; injection Hop as <-; step_norm H He Hty;
        match type of H with
        | match ?m with _ => _ end = _ =>
            destruct m as [[[rhs current1]|?]|] eqn:Hrhs; try discriminate H;
            exists rhs, current1; split; [reflexivity|]; split; [exact Hrhs|exact H]
        end.
    + left. split; [right; reflexivity|].
      destruct l; destruct (type (tokens_at tokens current)) eqn:Hty;
        try discriminate Hop; step_norm H He Hty; injection H as <- <-; auto.
Qed.

(** The loop of a level folds the operators that follow onto the left of
    the tree it was given. *)
Lemma level_loop_groups_left tokens l fuel : forall acc current e current',
  level_loop tokens l fuel acc current = Some (Ok (e, current')) ->
  exists steps,
    operator_chain tokens l current steps current' /\ e = group_left acc steps.
Proof.
  induction fuel as [|fuel IH]; intros acc current e current' H.
  - destruct l; discriminate H.
  - apply level_loop_step in H as [(Hstop & -> & ->)|(He & op & rhs & current1 & Hop & Hrhs & H)].
    + exists []. split; [constructor; exact Hstop|reflexivity].
    + destruct (IH _ _ _ _ H) as (steps & Hchain & ->).
      exists ((op, rhs) :: steps). split; [|reflexivity].
      econstructor; eauto.
Qed.

Lemma level_parser_unfold tokens l fuel current :
  level_parser tokens l (S fuel) current
  = (first <- operand_parser tokens l fuel ;; level_loop tokens l fuel first) current.
Proof. destruct l; reflexivity. Qed.

Lemma level_parser_groups_left tokens l fuel current e current' :
  level_parser tokens l fuel current = Some (Ok (e, current')) ->
  exists fuel0 first current0 steps,
    operand_parser tokens l fuel0 current = Some (Ok (first, current0)) /\
    operator_chain tokens l current0 steps current' /\
    e = group_left first steps.
Proof.
  intros H. destruct fuel as [|fuel]; [destruct l; discriminate H|].
  rewrite level_parser_unfold in H. unfold bind in H.
  destruct (operand_parser tokens l fuel current) as [[[first current0]|?]|] eqn:Hfirst;
    try discriminate H.
  destruct (level_loop_groups_left _ _ _ _ _ _ _ H) as (steps & Hchain & ->).
  exists fuel, first, current0, steps. auto.
Qed.

(** C4, as the code has it: [expression] is the loosest level, and each of
    the seven binary levels parses one operand with the next tighter level
    and then folds every following operator of the level, with its
    operand, onto the left of the tree built so far.  So multiplication
    binds tighter than addition, and every binary operator, [**] included,
    groups to the left: [2 + 3 * 4] parses to Add(2, Multiply(3, 4)) and
    [2 ** 3 ** 2] to Power(Power(2, 3), 2). *)
Theorem precedence_and_power_grouping (stod_erange : string -> bool) :
  (forall tokens fuel, expression tokens (S fuel) = level_parser tokens OrLevel fuel) /\
  (forall tokens l fuel current e current',
     level_parser tokens l fuel current = Some (Ok (e, current')) ->
     exists fuel0 first current0 steps,
       operand_parser tokens l fuel0 current = Some (Ok (first, current0)) /\
       operator_chain tokens l current0 steps current' /\
       e = group_left first steps) /\
  exists tokens tokens',
    Tokenizer.tokenize stod_erange "2 + 3 * 4" = Some (Ok tokens) /\
    Tokenizer.tokenize stod_erange "2 ** 3 ** 2" = Some (Ok tokens') /\
    forall n,
      expression tokens (40 + n) 0
      = Some (Ok (BinaryExpression BinaryOp.ADD (int_literal 2)
                    (BinaryExpression BinaryOp.MULTIPLY (int_literal 3) (int_literal 4)),
                  5)) /\
      expression tokens' (40 + n) 0
      = Some (Ok (BinaryExpression BinaryOp.POWER
                    (BinaryExpression BinaryOp.POWER (int_literal 2) (int_literal 3))
                    (int_literal 2),
                  5)).
Proof.
  split; [reflexivity|]. split; [apply level_parser_groups_left|].
  do 2 eexists. split; [vm_compute; reflexivity|]. split; [vm_compute; reflexivity|].
  intros n. split; vm_compute; reflexivity.
Qed.

End ParserFacts.

(** ** Code generator *)

Module CompilerFacts.
Import lexer parser llvm Compiler CompilerProps.

(** Induction on the expressions that [compileExpression] descends into. *)
Lemma Expression_lowering_ind (P : Expression -> Prop) :
  (forall value, P (LiteralExpression value)) ->
  (forall name, P (IdentifierExpression name)) ->
  (forall op l r, P l -> P r -> P (BinaryExpression op l r)) ->
  (forall op operand, P operand -> P (UnaryExpression op operand)) ->
  (forall callee arguments, P callee -> Forall P arguments ->
     P (CallExpression callee arguments)) ->
  (forall object attribute, P (AttributeExpression object attribute)) ->
  (forall object index, P (SubscriptExpression object index)) ->
  (forall elements, P (ListExpression elements)) ->
  (forall pairs, P (DictExpression pairs)) ->
  (forall elements, P (TupleExpression elements)) ->
  forall expr, P expr.
Proof.
  intros Hlit Hid Hbin Hun Hcall Hattr Hsub Hlist Hdict Htuple.
  fix IH 1. intros [value|name|op l r|op operand|callee arguments| | | | | ].
  - apply Hlit.
  - apply Hid.
  - apply Hbin; apply IH.
  - apply Hun; apply IH.
  - apply Hcall; [apply IH|].
    induction arguments as [|a arguments IHa]; constructor; [apply IH|exact IHa].
  - apply Hattr.
  - apply Hsub.
  - apply Hlist.
  - apply Hdict.
  - apply Htuple.
Qed.

Lemma lowered_refl c : lowered c c.
Proof.
  unfold lowered. repeat split; try reflexivity.
  exists []. rewrite app_nil_r. split; [reflexivity|constructor].
Qed.

Lemma lowered_trans c1 c2 c3 : lowered c1 c2 -> lowered c2 c3 -> lowered c1 c3.
Proof.
  unfold lowered.
  intros (F1&B1&I1&CF1&CB1&V1&n1&E1&A1) (F2&B2&I2&CF2&CB2&V2&n2&E2&A2).
  repeat split; try congruence.
  exists (n1 ++ n2)%list. split.
  - rewrite E2, E1, <- app_assoc. reflexivity.
  - apply Forall_app. split; [exact A1|]. rewrite I1 in A2. exact A2.
Qed.

Lemma bind_Ok {A B} (m : C A) (k : A -> C B) c a c1 :
  m c = Ok (a, c1) -> bind m k c = k a c1.
Proof. unfold bind. intros ->. reflexivity. Qed.

Lemma emit_lowered i c :
  isTerminator i = false ->
  exists v c', emit i c = Ok (v, c') /\ lowered c c'.
Proof.
  intros Hi. unfold emit. do 2 eexists. split; [reflexivity|].
  unfold lowered; simpl. repeat split; try reflexivity.
  exists [(insert_point c, i)]. split; [reflexivity|].
  constructor; [simpl; auto|constructor].
Qed.

Lemma CreateGlobalStringPtr_lowered s c :
  exists v c', CreateGlobalStringPtr s c = Ok (v, c') /\ lowered c c'.
Proof.
  unfold CreateGlobalStringPtr. do 2 eexists. split; [reflexivity|].
  unfold lowered; simpl. repeat split; try reflexivity.
  exists []. rewrite app_nil_r. split; [reflexivity|constructor].
Qed.

(** Emit one non-terminator and return its value. *)
Lemma emit_ret_lowered i c :
  isTerminator i = false ->
  exists v c', (v <- emit i ;; ret (Some v)) c = Ok (v, c') /\ lowered c c'.
Proof.
  intros Hi. destruct (emit_lowered i c Hi) as (v & c' & He & Hl).
  exists (Some v), c'. split; [|exact Hl].
  rewrite (bind_Ok _ _ _ _ _ He). reflexivity.
Qed.

Lemma compile_arguments_lowers (arguments : list Expression) :
  Forall lowers arguments ->
  forall args c, exists vs c',
    compile_arguments compileExpression arguments args c = Ok (vs, c') /\ lowered c c'.
Proof.
  induction 1 as [|a arguments Ha _ IH]; intros args c; simpl.
  - exists args, c. split; [reflexivity|apply lowered_refl].
  - destruct (Ha c) as (v & c1 & H1 & L1).
    rewrite (bind_Ok _ _ _ _ _ H1).
    destruct v as [v|].
    + destruct (IH (args ++ [v])%list c1) as (vs & c2 & H2 & L2).
      exists vs, c2. split; [exact H2|eapply lowered_trans; eauto].
    + destruct (IH args c1) as (vs & c2 & H2 & L2).
      exists vs, c2. split; [exact H2|eapply lowered_trans; eauto].
Qed.

(** Lowering an expression never throws; it only appends non-terminator
    instructions at the insertion point (and string constants to the
    module), and leaves the symbol table as it is. *)
Lemma compileExpression_lowers (expr : Expression) : lowers expr.
Proof.
  revert expr.
  apply Expression_lowering_ind;
    [ intros value | intros name | intros op l r IHl IHr | intros op operand IHo
    | intros callee arguments IHc IHargs
    | intros ? ? | intros ? ? | intros ? | intros ? | intros ? ]; intros c;
    try (exists None, c; split; [reflexivity|apply lowered_refl]).
  - (* literal *)
    destruct value as [s|z|d|b|]; simpl;
      try (do 2 eexists; split; [reflexivity|apply lowered_refl]).
    destruct (CreateGlobalStringPtr_lowered s c) as (v & c' & H & L).
    exists (Some v), c'. split; [|exact L]. rewrite (bind_Ok _ _ _ _ _ H). reflexivity.
  - (* identifier *)
    simpl. unfold compileIdentifierExpression, variables_find.
    unfold bind at 1. destruct (variables c !! name) as [slot|].
    + apply emit_ret_lowered. reflexivity.
    + do 2 eexists. split; [reflexivity|apply lowered_refl].
  - (* binary *)
    simpl. unfold compileBinaryExpression.
    destruct (IHl c) as (v1 & c1 & H1 & L1). rewrite (bind_Ok _ _ _ _ _ H1).
    destruct (IHr c1) as (v2 & c2 & H2 & L2). rewrite (bind_Ok _ _ _ _ _ H2).
    assert (L : lowered c c2) by (eapply lowered_trans; eauto).
    assert (Hnone : exists v c', @ret (option Value) None c2 = Ok (v, c') /\ lowered c c').
    { exists None, c2. split; [reflexivity|exact L]. }
    destruct v1 as [v1|]; [|exact Hnone]. destruct v2 as [v2|]; [|exact Hnone].
    destruct op; try exact Hnone;
      match goal with |- context [emit ?i] =>
        destruct (emit_ret_lowered i c2 eq_refl) as (v & c3 & H3 & L3);
        exists v, c3; split; [exact H3|eapply lowered_trans; eauto]
      end.
  - (* unary *)
    simpl. unfold compileUnaryExpression.
    destruct (IHo c) as (v1 & c1 & H1 & L1). rewrite (bind_Ok _ _ _ _ _ H1).
    destruct v1 as [v1|]; [|exists None, c1; split; [reflexivity|exact L1]].
    destruct op.
    + exists (Some v1), c1. split; [reflexivity|exact L1].
    + destruct (emit_ret_lowered (Neg v1) c1 eq_refl) as (v & c3 & H3 & L3).
      exists v, c3. split; [exact H3|eapply lowered_trans; eauto].
    + destruct (emit_ret_lowered (Not v1) c1 eq_refl) as (v & c3 & H3 & L3).
      exists v, c3. split; [exact H3|eapply lowered_trans; eauto].
  - (* call *)
    simpl. unfold compileCallExpression.
    destruct (IHc c) as (v1 & c1 & H1 & L1). rewrite (bind_Ok _ _ _ _ _ H1).
    destruct v1 as [v1|]; [|exists None, c1; split; [reflexivity|exact L1]].
    destruct (compile_arguments_lowers arguments IHargs [] c1) as (vs & c2 & H2 & L2).
    rewrite (bind_Ok _ _ _ _ _ H2).
    destruct (emit_ret_lowered (Call (mkFunctionType Int64Ty [] false) v1 vs) c2 eq_refl)
      as (v & c3 & H3 & L3).
    exists v, c3. split; [exact H3|].
    eapply lowered_trans; [|exact L3]. eapply lowered_trans; eauto.
Qed.

(** *** Logical operators (C5) *)

Lemma lowered_no_new_branch c c' :
  lowered c c' ->
  forall b cond ifTrue ifFalse,
    In (b, CondBr cond ifTrue ifFalse) (emitted c') ->
    In (b, CondBr cond ifTrue ifFalse) (emitted c).
Proof.
  intros (_&_&_&_&_&_&new&->&Hnew) b cond ifTrue ifFalse Hin.
  apply in_app_or in Hin as [Hin|Hin]; [exact Hin|].
  rewrite List.Forall_forall in Hnew. apply Hnew in Hin as [_ Hin]. discriminate Hin.
Qed.

(** C5, as the code has it: for [and] and [or] the generator lowers the left
    operand and then, unconditionally, the right operand, and returns no
    value; it emits no instruction for the operator and no conditional
    branch. *)
Theorem and_or_lowered_without_control_flow
  (op : BinaryOp.Operator) (l r : Expression) (c : Compiler) :
  op = BinaryOp.AND \/ op = BinaryOp.OR ->
  exists vl c1 vr c2,
    compileExpression l c = Ok (vl, c1) /\
    compileExpression r c1 = Ok (vr, c2) /\
    compileExpression (BinaryExpression op l r) c = Ok (None, c2) /\
    forall b cond ifTrue ifFalse,
      In (b, CondBr cond ifTrue ifFalse) (emitted c2) ->
      In (b, CondBr cond ifTrue ifFalse) (emitted c).
Proof.
  intros Hop.
  destruct (compileExpression_lowers l c) as (vl & c1 & H1 & L1).
  destruct (compileExpression_lowers r c1) as (vr & c2 & H2 & L2).
  exists vl, c1, vr, c2. split; [exact H1|]. split; [exact H2|]. split.
  - simpl. unfold compileBinaryExpression.
    rewrite (bind_Ok _ _ _ _ _ H1), (bind_Ok _ _ _ _ _ H2).
    destruct vl, vr; destruct Hop as [-> | ->]; reflexivity.
  - apply lowered_no_new_branch. eapply lowered_trans; eauto.
Qed.

(** *** Calls (C6) *)

Section FunctionsIrrelevant.
Variable fs : list Function.

Lemma commutes_ret {A} (a : A) : commutes fs (ret a).
Proof. intros c. reflexivity. Qed.

Lemma commutes_bind {A B} (m : C A) (k : A -> C B) :
  commutes fs m -> (forall a, commutes fs (k a)) -> commutes fs (bind m k).
Proof.
  intros Hm Hk c. unfold bind. rewrite Hm.
  destruct (m c) as [[a c']|e]; simpl; [apply Hk|reflexivity].
Qed.

Lemma commutes_emit i : commutes fs (emit i).
Proof. intros c. reflexivity. Qed.

Lemma commutes_emit_ret i : commutes fs (v <- emit i ;; ret (Some v)).
Proof. apply commutes_bind; [apply commutes_emit|intros; apply commutes_ret]. Qed.

Lemma commutes_compile_arguments (arguments : list Expression) :
  Forall (fun e => commutes fs (compileExpression e)) arguments ->
  forall args, commutes fs (compile_arguments compileExpression arguments args).
Proof.
  induction 1 as [|a arguments Ha _ IH]; intros args; simpl.
  - apply commutes_ret.
  - apply commutes_bind; [exact Ha|]. intros [v|]; apply IH.
Qed.

(** Lowering an expression does not look at the functions of the module. *)
Lemma compileExpression_commutes (expr : Expression) : commutes fs (compileExpression expr).
Proof.
  revert expr.
  apply Expression_lowering_ind;
    [ intros value | intros name | intros op l r IHl IHr | intros op operand IHo
    | intros callee arguments IHc IHargs
    | intros ? ? | intros ? ? | intros ? | intros ? | intros ? ];
    try apply commutes_ret.
  - destruct value; simpl; try apply commutes_ret.
    apply commutes_bind; [intros c; reflexivity|intros; apply commutes_ret].
  - simpl. unfold compileIdentifierExpression.
    apply commutes_bind; [intros c; reflexivity|].
    intros [slot|]; [apply commutes_emit_ret|apply commutes_ret].
  - simpl. unfold compileBinaryExpression.
    apply commutes_bind; [exact IHl|]. intros vl.
    apply commutes_bind; [exact IHr|]. intros vr.
    destruct vl, vr; try apply commutes_ret.
    destruct op; try apply commutes_ret; apply commutes_emit_ret.
  - simpl. unfold compileUnaryExpression.
    apply commutes_bind; [exact IHo|]. intros [v|]; [|apply commutes_ret].
    destruct op; [apply commutes_ret|apply commutes_emit_ret..].
  - simpl. unfold compileCallExpression.
    apply commutes_bind; [exact IHc|]. intros [v|]; [|apply commutes_ret].
    apply commutes_bind; [apply commutes_compile_arguments; exact IHargs|].
    intros args. apply commutes_emit_ret.
Qed.

End FunctionsIrrelevant.

Lemma compile_arguments_in_order (arguments : list Expression) :
  forall acc c vs c',
    compile_arguments compileExpression arguments acc c = Ok (vs, c') ->
    exists args, arguments_lowered arguments c args c' /\ vs = (acc ++ args)%list.
Proof.
  induction arguments as [|a arguments IH]; intros acc c vs c' H; simpl in H.
  - injection H as <- <-. exists []. split; [constructor|]. rewrite app_nil_r. reflexivity.
  - destruct (compileExpression_lowers a c) as (v & c1 & H1 & _).
    rewrite (bind_Ok _ _ _ _ _ H1) in H. destruct v as [v|].
    + destruct (IH _ _ _ _ H) as (args & Hargs & ->).
      exists (v :: args). split; [econstructor; eauto|].
      rewrite <- app_assoc. reflexivity.
    + destruct (IH _ _ _ _ H) as (args & Hargs & ->).
      exists args. split; [eapply arguments_null; eauto|reflexivity].
Qed.

(** C6, as the code has it: lowering a call expression never reports an
    error and never consults the functions of the module.  The callee is
    lowered first, like any other expression, so an identifier that names
    no variable becomes the constant 0.  When the callee yields no value
    nothing more is done.  Otherwise every argument is lowered, in source
    order, and one call instruction is emitted whose operands are the
    value of the callee and the values of the arguments that produced
    one, in that order, however many there are. *)
Theorem call_lowered_without_resolution
  (callee : Expression) (arguments : list Expression) (c : Compiler) :
  (exists v c', compileExpression (CallExpression callee arguments) c = Ok (v, c')) /\
  (forall fs,
     compileExpression (CallExpression callee arguments) (with_functions fs c)
     = on_state (with_functions fs) (compileExpression (CallExpression callee arguments) c)) /\
  (exists f c1,
     compileExpression callee c = Ok (f, c1) /\
     (forall name, callee = IdentifierExpression name -> variables c !! name = None ->
        f = Some (getInt64 0) /\ c1 = c) /\
     match f with
     | None => compileExpression (CallExpression callee arguments) c = Ok (None, c1)
     | Some f =>
       exists args c2 v c3,
         arguments_lowered arguments c1 args c2 /\
         emit (Call (mkFunctionType Int64Ty [] false) f args) c2 = Ok (v, c3) /\
         emitted_since c2 c3
         = [(insert_point c2, Call (mkFunctionType Int64Ty [] false) f args)] /\
         compileExpression (CallExpression callee arguments) c = Ok (Some v, c3)
     end).
Proof.
  split; [|split].
  - destruct (compileExpression_lowers (CallExpression callee arguments) c) as (v & c' & H & _).
    eauto.
  - intros fs. apply compileExpression_commutes.
  - destruct (compileExpression_lowers callee c) as (f & c1 & H1 & _).
    exists f, c1. split; [exact H1|]. split.
    { intros name -> Hnone. simpl in H1.
      unfold compileIdentifierExpression, variables_find, bind in H1.
      rewrite Hnone in H1. injection H1 as <- <-. auto. }
    change (compileExpression (CallExpression callee arguments))
      with (compileCallExpression compileExpression callee arguments).
    unfold compileCallExpression. rewrite (bind_Ok _ _ _ _ _ H1).
    destruct f as [f|]; [|reflexivity].
    assert (Hargs : Forall lowers arguments).
    { apply List.Forall_forall. intros e _. apply compileExpression_lowers. }
    destruct (compile_arguments_lowers arguments Hargs [] c1) as (vs & c2 & H2 & _).
    destruct (compile_arguments_in_order arguments [] c1 vs c2 H2) as (args & Hord & ->).
    exists args, c2. do 2 eexists. split; [exact Hord|].
    split; [reflexivity|]. split.
    + unfold emitted_since. simpl.
      rewrite List.skipn_app, List.skipn_all, Nat.sub_diag. reflexivity.
    + rewrite (bind_Ok _ _ _ _ _ H2). reflexivity.
Qed.

(** *** The symbol table (C7) *)

Ltac bind_step := erewrite bind_Ok by reflexivity; cbv beta.







(** *** Counterexamples and instances *)

(** C5 as stated fails: lowering [f() and g()] at the start of the entry
    function emits no conditional branch. *)
Lemma and_or_emit_no_branch :
  ~ (forall op l r c v c',
       op = BinaryOp.AND \/ op = BinaryOp.OR ->
       compileExpression (BinaryExpression op l r) c = Ok (v, c') ->
       exists b cond ifTrue ifFalse, In (b, CondBr cond ifTrue ifFalse) (emitted c')).
Proof.
  intros H.
  edestruct (H BinaryOp.AND (call_of "f" []) (call_of "g" []) entry_state)
    as (b & cond & ifTrue & ifFalse & Hin); [left; reflexivity|vm_compute; reflexivity|].
  simpl in Hin. destruct Hin as [Hin|[Hin|[]]]; discriminate Hin.
Qed.

Lemma and_or_lowered_without_control_flow_witness :
  (BinaryOp.AND = BinaryOp.AND \/ BinaryOp.AND = BinaryOp.OR) /\
  exists vl c1 vr c2,
    compileExpression (call_of "f" []) entry_state = Ok (vl, c1) /\
    compileExpression (call_of "g" []) c1 = Ok (vr, c2) /\
    compileExpression (BinaryExpression BinaryOp.AND (call_of "f" []) (call_of "g" []))
                      entry_state = Ok (None, c2) /\
    forall b cond ifTrue ifFalse,
      In (b, CondBr cond ifTrue ifFalse) (emitted c2) ->
      In (b, CondBr cond ifTrue ifFalse) (emitted entry_state).
Proof.
  split; [left; reflexivity|].
  apply (and_or_lowered_without_control_flow BinaryOp.AND). left; reflexivity.
Defined.

(** C6 as stated fails: with [f] declared with one parameter, the call
    [f(1, 2)] is lowered without any error. *)
Lemma call_arity_not_checked :
  ~ (forall callee arguments c v c',
       compileExpression (CallExpression callee arguments) c = Ok (v, c') ->
       exists name f,
         callee = IdentifierExpression name /\ In f (functions c) /\ fname f = name /\
         List.length (paramTypes (ftype f)) = List.length arguments).
Proof.
  intros H.
  edestruct (H (IdentifierExpression "f")
               [LiteralExpression (v_int64 1); LiteralExpression (v_int64 2)] after_def_f)
    as (name & f & Hname & Hin & Hf & Harity); [vm_compute; reflexivity|].
  vm_compute in Hin. destruct Hin as [<-|[<-|[<-|[]]]]; simpl in Harity; discriminate Harity.
Qed.

(** C7 as stated fails: after [def f(n)] the prologue of a parameterless
    function [g] still has [n] in the symbol table. *)
Lemma scope_is_not_fresh :
  ~ (forall decls name parameters c entry c',
       compileDeclarations decls entry_state = Ok (tt, c) ->
       function_prologue name parameters c = Ok (entry, c') ->
       forall x, is_Some (variables c' !! x) -> In x parameters).
Proof.
  intros H.
  refine (H [FunctionDeclaration "f" ["n"]
               [ReturnStatement (Some (IdentifierExpression "n"))] false]
            "g" [] _ _ _ _ _ "n" _).
  - vm_compute. reflexivity.
  - vm_compute. reflexivity.
  - vm_compute. eauto.
Qed.


End CompilerFacts.

(** ** Further properties of the tokenizer *)

Module TokenizerMore.
Import lexer Tokenizer TokenizerProps TokenizerFacts TokenizerKinds.

(** *** The end of the input *)

Lemma skipWhitespace_at_end t : isAtEnd t = true -> skipWhitespace t = t.
Proof.
  intros He. unfold skipWhitespace.
  destruct (remaining t); simpl; [reflexivity|]. rewrite He. reflexivity.
Qed.

(** *** Indentation *)

Lemma count_indent_invariant t :
  let s := count_indent t in
  snd s = current t + fst s /\
  forall i, i < fst s -> char_at (source t) (current t + i) = SPACE.
Proof.
  unfold count_indent.
  apply (while_invariant _ _
           (fun s : nat * nat =>
              snd s = current t + fst s /\
              forall i, i < fst s -> char_at (source t) (current t + i) = SPACE)).
  - intros [n p] [Hp Hall] Hc. simpl in *. split; [lia|].
    intros i Hi. destruct (Nat.eq_dec i n) as [->|Hne]; [|apply Hall; lia].
    apply andb_true_iff in Hc as [_ Hc]. apply Ascii.eqb_eq in Hc.
    rewrite <- Hp. exact Hc.
  - simpl. split; [lia|]. intros i Hi. lia.
Qed.

(** X2: the indentation of a line is the length of the run of space
    characters at the cursor: every character of the run is a space and
    the run ends at the end of the text or at a character that is not a
    space (a tab is not counted). *)
Theorem indentation_counts_leading_spaces (t : Tokenizer) :
  (forall i, i < indent_spaces t -> char_at (source t) (current t + i) = SPACE) /\
  (String.length (source t) <= current t + indent_spaces t \/
   char_at (source t) (current t + indent_spaces t) <> SPACE).
Proof.
  unfold indent_spaces.
  pose proof (count_indent_invariant t) as [Hp Hall].
  pose proof (count_indent_exit t) as Hx. simpl in *.
  split; [exact Hall|].
  rewrite <- Hp. apply andb_false_iff in Hx as [Hx|Hx].
  - left. apply Nat.ltb_ge in Hx. exact Hx.
  - right. intros Heq. apply Ascii.eqb_neq in Hx. contradiction.
Qed.

(** What the popping loop leaves: a prefix of the stack, with everything
    above the new level removed. *)
Lemma pop_dedents_prefix spaces dedent v :
  let s := pop_dedents spaces dedent v in
  exists popped,
    v = (fst s ++ popped)%list /\ Forall (fun x => spaces < x) popped /\
    List.length (snd s) = List.length popped.
Proof.
  unfold pop_dedents.
  apply (while_invariant _ _
           (fun s : list nat * list Token =>
              exists popped, v = (fst s ++ popped)%list /\
                Forall (fun x => spaces < x) popped /\
                List.length (snd s) = List.length popped)).
  - intros [st toks] (popped & Hv & Hall & Hlen) Hc. simpl in *.
    apply andb_true_iff in Hc as [Hne Hc]. apply Nat.ltb_lt in Hc.
    destruct st as [|a st]; [discriminate|].
    exists (back (a :: st) :: popped). split; [|split].
    + rewrite Hv. unfold pop_back, back.
      rewrite (app_removelast_last 0 (l := a :: st)) at 1 by discriminate.
      rewrite <- app_assoc. reflexivity.
    + constructor; assumption.
    + rewrite List.length_app. simpl. lia.
  - exists []. simpl. rewrite app_nil_r. repeat split. constructor.
Qed.

Lemma back_in (v : list nat) : v <> [] -> In (back v) v.
Proof.
  unfold back. induction v as [|a v IH]; [congruence|]. intros _.
  destruct v as [|b v]; [left; reflexivity|].
  right. apply IH. discriminate.
Qed.

Lemma sorted_app_lt (v w : list nat) (x y : nat) :
  StronglySorted lt (v ++ w) -> In x v -> In y w -> x < y.
Proof.
  induction v as [|a v IH]; intros Hs Hx Hy; [destruct Hx|].
  simpl in Hs. apply StronglySorted_inv in Hs as [Hs Hall].
  destruct Hx as [->|Hx]; [|apply IH; assumption].
  rewrite List.Forall_forall in Hall. apply Hall. apply in_or_app. right. exact Hy.
Qed.

(** The stack and level that [handleIndentation] works with. *)
Lemma handleIndentation_unfold t :
  handleIndentation t =
  if negb (indent_spaces t mod 4 =? 0) then Throw (Invalid_indentation (line t))
  else if empty (indent_stack t) || (back (indent_stack t) <? indent_level t) then
    Ok (mkToken INDENT EmptyString monostate (line t) (column t),
        set_indent_stack t (push_back (indent_stack t) (indent_level t)))
  else if indent_level t <? back (indent_stack t) then
    let s := pop_dedents (indent_level t)
               (mkToken DEDENT EmptyString monostate (line t) (column t)) (indent_stack t) in
    if empty (fst s) || negb (back (fst s) =? indent_level t)
    then Throw (Invalid_indentation (line t))
    else Ok (List.hd (mkToken DEDENT EmptyString monostate (line t) (column t)) (snd s),
             set_indent_stack t (fst s))
  else Ok (mkToken NEWLINE EmptyString monostate (line t) (column t), t).
Proof.
  unfold handleIndentation, indent_level, indent_spaces.
  destruct (negb _); [reflexivity|].
  destruct (empty _ || _); [reflexivity|].
  destruct (_ <? _); [|reflexivity].
  destruct (pop_dedents _ _ _). reflexivity.
Qed.

(** X3: when [handleIndentation] returns a token, the indentation is a
    multiple of four spaces and the top of the stack is the level of the
    line.  INDENT means that the level was above the old top and has been
    pushed; DEDENT means that the level is an entry of the old stack below
    its top and that exactly the entries above it have been popped;
    NEWLINE means that the level is the old top and the stack is
    unchanged. *)
Theorem indentation_token_tracks_level (t : Tokenizer) (tok : Token) (t' : Tokenizer) :
  stack_ok (indent_stack t) ->
  handleIndentation t = Ok (tok, t') ->
  indent_spaces t mod 4 = 0 /\
  back (indent_stack t') = indent_level t /\
  ((type tok = INDENT /\ back (indent_stack t) < indent_level t /\
    indent_stack t' = (indent_stack t ++ [indent_level t])%list)
   \/ (type tok = DEDENT /\ indent_level t < back (indent_stack t) /\
       In (indent_level t) (indent_stack t) /\
       exists popped, popped <> [] /\
         indent_stack t = (indent_stack t' ++ popped)%list /\
         Forall (fun x => indent_level t < x) popped)
   \/ (type tok = NEWLINE /\ indent_level t = back (indent_stack t) /\
       indent_stack t' = indent_stack t)).
Proof.
  intros Hok. rewrite handleIndentation_unfold.
  destruct (negb (indent_spaces t mod 4 =? 0)) eqn:Hmod; [discriminate|].
  apply negb_false_iff, Nat.eqb_eq in Hmod.
  destruct Hok as [[rest Hst] Hsorted].
  destruct (empty (indent_stack t) || (back (indent_stack t) <? indent_level t)) eqn:Hpush.
  - intros H; injection H as <- <-. split; [exact Hmod|]. simpl.
    apply orb_true_iff in Hpush as [He|Hlt]; [rewrite Hst in He; discriminate|].
    apply Nat.ltb_lt in Hlt. split.
    + unfold back, push_back. apply last_last.
    + left. auto.
  - apply orb_false_iff in Hpush as [_ Hge]. apply Nat.ltb_ge in Hge.
    destruct (indent_level t <? back (indent_stack t)) eqn:Hlt.
    + apply Nat.ltb_lt in Hlt.
      set (dedent := mkToken DEDENT EmptyString monostate (line t) (column t)).
      pose proof (pop_dedents_prefix (indent_level t) dedent (indent_stack t))
        as (popped & Hv & Hall & Hlen).
      pose proof (pop_dedents_tokens (indent_level t) dedent (indent_stack t)) as Htok.
      simpl in *.
      destruct (pop_dedents (indent_level t) dedent (indent_stack t)) as [v1 toks].
      simpl in *.
      destruct (empty v1 || negb (back v1 =? indent_level t)) eqn:Hbad; [discriminate|].
      apply orb_false_iff in Hbad as [Hne Hback].
      apply negb_false_iff, Nat.eqb_eq in Hback.
      intros H; injection H as <- <-. simpl.
      split; [exact Hmod|]. split; [exact Hback|].
      right; left. split; [rewrite (hd_all_eq dedent toks Htok); reflexivity|].
      split; [exact Hlt|]. split.
      * rewrite Hv. apply in_or_app. left. rewrite <- Hback. apply back_in.
        destruct v1; [discriminate|discriminate].
      * exists popped. split; [|split; [exact Hv|exact Hall]].
        intros ->. rewrite app_nil_r in Hv. rewrite <- Hv in Hback. lia.
    + apply Nat.ltb_ge in Hlt.
      intros H; injection H as <- <-. split; [exact Hmod|].
      split; [lia|]. right; right. split; [reflexivity|]. split; [lia|reflexivity].
Qed.

(** X4: on a well-formed stack [handleIndentation] throws exactly when the
    indentation is not a multiple of four spaces, or when the line dedents
    to a level that is not an entry of the stack; what it throws is the
    invalid-indentation error of the current line. *)
Theorem indentation_error_conditions (t : Tokenizer) :
  stack_ok (indent_stack t) ->
  ((exists e, handleIndentation t = Throw e) <->
   (indent_spaces t mod 4 <> 0 \/
    (indent_level t < back (indent_stack t) /\ ~ In (indent_level t) (indent_stack t)))) /\
  (forall e, handleIndentation t = Throw e -> e = Invalid_indentation (line t)).
Proof.
  intros Hok. rewrite handleIndentation_unfold.
  destruct Hok as [[rest Hst] Hsorted].
  destruct (negb (indent_spaces t mod 4 =? 0)) eqn:Hmod.
  { apply negb_true_iff, Nat.eqb_neq in Hmod. split.
    - split; [intros _; left; exact Hmod|intros _; eexists; reflexivity].
    - intros e H; injection H as <-; reflexivity. }
  apply negb_false_iff, Nat.eqb_eq in Hmod.
  destruct (empty (indent_stack t) || (back (indent_stack t) <? indent_level t)) eqn:Hpush.
  { apply orb_true_iff in Hpush as [He|Hlt]; [rewrite Hst in He; discriminate|].
    apply Nat.ltb_lt in Hlt. split; [|discriminate]. split.
    - intros [e He]. discriminate He.
    - intros [H|[H _]]; [contradiction|lia]. }
  apply orb_false_iff in Hpush as [_ Hge]. apply Nat.ltb_ge in Hge.
  destruct (indent_level t <? back (indent_stack t)) eqn:Hlt.
  - apply Nat.ltb_lt in Hlt.
    set (dedent := mkToken DEDENT EmptyString monostate (line t) (column t)).
    pose proof (pop_dedents_prefix (indent_level t) dedent (indent_stack t))
      as (popped & Hv & Hall & Hlen).
    pose proof (pop_dedents_exit (indent_level t) dedent (indent_stack t)) as Hexit.
    simpl in *.
    destruct (pop_dedents (indent_level t) dedent (indent_stack t)) as [v1 toks].
    simpl in *.
    destruct (empty v1 || negb (back v1 =? indent_level t)) eqn:Hbad.
    + split; [|intros e H; injection H as <-; reflexivity].
      split; [|intros _; eexists; reflexivity].
      intros _. right. split; [exact Hlt|]. intros Hin.
      rewrite Hv in Hin. apply in_app_or in Hin as [Hin|Hin].
      * (* the level would be in what is left, hence the top of it *)
        assert (Hne : v1 <> []) by (intros ->; destruct Hin).
        assert (Hs1 : StronglySorted lt v1).
        { rewrite Hv in Hsorted. clear -Hsorted.
          induction v1 as [|a v1 IH]; [constructor|].
          simpl in Hsorted. apply StronglySorted_inv in Hsorted as [Hs Ha].
          constructor; [apply IH; exact Hs|].
          rewrite List.Forall_forall in *. intros x Hx. apply Ha.
          apply in_or_app. left. exact Hx. }
        pose proof (sorted_le_back v1 _ Hs1 Hin) as Hle.
        apply orb_true_iff in Hbad as [He|Hb]; [destruct v1; [congruence|discriminate]|].
        apply negb_true_iff, Nat.eqb_neq in Hb.
        apply andb_false_iff in Hexit as [Hx|Hx].
        -- destruct v1; [congruence|discriminate].
        -- apply Nat.ltb_ge in Hx. lia.
      * rewrite List.Forall_forall in Hall. specialize (Hall _ Hin). lia.
    + split; [|discriminate]. split.
      * intros [e He]. discriminate He.
      * intros [H|[_ Hnin]]; [contradiction|]. exfalso. apply Hnin.
        apply orb_false_iff in Hbad as [Hne Hback].
        apply negb_false_iff, Nat.eqb_eq in Hback.
        rewrite Hv. apply in_or_app. left. rewrite <- Hback. apply back_in.
        destruct v1; [discriminate|discriminate].
  - apply Nat.ltb_ge in Hlt. split; [|discriminate]. split.
    + intros [e He]. discriminate He.
    + intros [H|[H _]]; [contradiction|lia].
Qed.

(** *** Bounds of the cursor *)

Lemma advance_within t : within t -> within (snd (advance t)).
Proof.
  unfold within. intros H. destruct (isAtEnd t) eqn:He.
  - unfold advance. rewrite He. exact H.
  - pose proof (advance_step t He) as [_ Hc].
    pose proof (advance_extends t) as (Hs&_).
    apply isAtEnd_false in He. rewrite Hs, Hc. lia.
Qed.

Lemma match_within expected t : within t -> within (snd (match_ expected t)).
Proof.
  unfold within, match_. intros H. destruct (isAtEnd t) eqn:He; [exact H|].
  destruct (negb _); [exact H|]. simpl. apply isAtEnd_false in He. lia.
Qed.

Lemma scan_within cond fuel t :
  within t -> within (while_ fuel cond (fun t => snd (advance t)) t).
Proof.
  apply (while_invariant cond (fun t => snd (advance t)) within).
  intros s Hs _. apply advance_within. exact Hs.
Qed.

Lemma substring_length (s : string) (n m : nat) :
  n + m <= String.length s -> String.length (String.substring n m s) = m.
Proof.
  revert n m. induction s as [|a s IH]; intros n m H; simpl in *.
  - destruct n, m; simpl in *; try lia; reflexivity.
  - destruct n as [|n].
    + destruct m as [|m]; [reflexivity|]. simpl. f_equal. apply (IH 0 m). lia.
    + apply IH. lia.
Qed.

(** The characters that a scanning loop steps over satisfy its test. *)
Lemma scan_chars (test : ascii -> bool) cond fuel t :
  (forall s, cond s = true -> isAtEnd s = false /\ test (peek s) = true) ->
  let t' := while_ fuel cond (fun t => snd (advance t)) t in
  forall i, current t <= i < current t' -> test (char_at (source t) i) = true.
Proof.
  intros Hcond. simpl.
  assert (H : source (while_ fuel cond (fun t => snd (advance t)) t) = source t /\
              forall i, current t <= i < current (while_ fuel cond (fun t => snd (advance t)) t) ->
                        test (char_at (source t) i) = true).
  { apply (while_invariant cond (fun t => snd (advance t))
             (fun s => source s = source t /\
                       forall i, current t <= i < current s ->
                                 test (char_at (source t) i) = true)).
    - intros s [Hs Hall] Hc. destruct (Hcond s Hc) as [He Ht].
      pose proof (advance_step s He) as [_ Hcur].
      pose proof (advance_extends s) as (Hsrc&_).
      split; [congruence|]. intros i Hi. rewrite Hcur in Hi.
      destruct (Nat.eq_dec i (current s)) as [->|Hne]; [|apply Hall; lia].
      unfold peek in Ht. rewrite He, Hs in Ht. exact Ht.
    - split; [reflexivity|]. intros i Hi. lia. }
  apply H.
Qed.

(** Between the cursor and the token start there is only white space of
    the current line. *)
Lemma skipWhitespace_chars t :
  forall i, current t <= i < current (skipWhitespace t) ->
    isspace (char_at (source t) i) = true /\ char_at (source t) i <> LF.
Proof.
  intros i Hi.
  pose proof (scan_chars (fun c => isspace c && negb (Ascii.eqb c LF))
                (fun t => negb (isAtEnd t) && isspace (peek t) && negb (Ascii.eqb (peek t) LF))
                (remaining t) t) as H.
  simpl in H. fold (skipWhitespace t) in H.
  assert (Hc : forall s,
             negb (isAtEnd s) && isspace (peek s) && negb (Ascii.eqb (peek s) LF) = true ->
             isAtEnd s = false /\ isspace (peek s) && negb (Ascii.eqb (peek s) LF) = true).
  { intros s Hs. destruct (isAtEnd s); [discriminate|]. simpl in Hs. auto. }
  specialize (H Hc i Hi). apply andb_true_iff in H as [H1 H2].
  split; [exact H1|]. apply negb_true_iff, Ascii.eqb_neq in H2. exact H2.
Qed.

(** *** What each scanner returns *)

Lemma string_within t tok t' : string_ t = Ok (tok, t') -> within t'.
Proof.
  unfold string_. intros H.
  match type of H with context [isAtEnd ?x] => set (t2 := x) in * end.
  destruct (isAtEnd t2) eqn:He; [discriminate|]. injection H as _ <-.
  pose proof (advance_step t2 He) as [_ Hc].
  pose proof (advance_extends t2) as (Hs&_).
  unfold within. rewrite Hs, Hc. apply isAtEnd_false in He. lia.
Qed.

Lemma decimal_nonneg (text : string) : forall acc, (0 <= acc)%Z -> (0 <= decimal text acc)%Z.
Proof.
  induction text as [|c text IH]; intros acc Hacc; simpl; [exact Hacc|].
  apply IH. lia.
Qed.

Lemma string_type t tok t' : string_ t = Ok (tok, t') -> type tok = STRING.
Proof.
  unfold string_. destruct (isAtEnd _); [discriminate|].
  intros H. injection H as <- _. reflexivity.
Qed.

Section MoreNextToken.
Variable stod_erange : string -> bool.

(** X1: once [nextToken] has returned the EOF token, every further call
    returns the same EOF token and leaves the tokenizer as it is. *)
Theorem nextToken_eof_is_stable (t : Tokenizer) (tok : Token) (t' : Tokenizer) :
  nextToken stod_erange t = Ok (tok, t') ->
  type tok = EOF_TOKEN ->
  isAtEnd t' = true /\ nextToken stod_erange t' = Ok (tok, t').
Proof.
  intros H Hty.
  assert (Hcase : isAtEnd (skipWhitespace t) = true).
  { pose proof (nextToken_cases stod_erange t tok t' H) as Hc. simpl in Hc.
    destruct Hc as [(He&_&_)|(He&Hc)]; [exact He|].
    exfalso.
    destruct Hc as [Hc|[[Hc _]|[[Hc _]|[[Hc _]|[[Hk _] _]]]]].
    - apply handleIndentation_spec in Hc as (_&_&_&_&[Hk|[Hk|Hk]]); congruence.
    - apply string_type in Hc. congruence.
    - apply number_spec in Hc as (_&(Hk&_)&_). congruence.
    - apply identifier_spec in Hc as (_&(Hk&_)&_). congruence.
    - congruence. }
  unfold nextToken in H. rewrite Hcase in H. injection H as <- <-.
  split; [exact Hcase|].
  unfold nextToken. rewrite (skipWhitespace_at_end _ Hcase), Hcase. reflexivity.
Qed.

(** [number]: the token text, the value for each of the two types, and
    that the scanned characters are digits up to an optional point. *)
Lemma number_result t tok t' :
  number stod_erange t = Ok (tok, t') ->
  lexeme tok = token_text t' /\ (within t -> within t') /\
  ((type tok = INTEGER /\ t' = scan_digits t /\
    value tok = v_int64 (decimal (lexeme tok) 0) /\
    (0 <= decimal (lexeme tok) 0 <= 2 ^ 63 - 1)%Z)
   \/ (type tok = FLOAT /\ value tok = v_double (stod_of (lexeme tok)))).
Proof.
  unfold number. intros H.
  destruct (negb (isAtEnd (scan_digits t)) && Ascii.eqb (peek (scan_digits t)) "." &&
            isdigit (peekNext (scan_digits t))).
  - unfold stod in H. destruct (stod_erange _); [discriminate|].
    injection H as <- <-. simpl. split; [reflexivity|]. split; [|right; auto].
    intros Hw. unfold scan_digits. apply scan_within, advance_within, scan_within. exact Hw.
  - unfold stoll in H.
    destruct (decimal (token_text (scan_digits t)) 0 <=? 2 ^ 63 - 1)%Z eqn:Hle; [|discriminate].
    injection H as <- <-. simpl. split; [reflexivity|]. split.
    + intros Hw. unfold scan_digits. apply scan_within. exact Hw.
    + left. repeat split; try reflexivity.
      * apply decimal_nonneg. lia.
      * apply Z.leb_le. exact Hle.
Qed.

Lemma identifier_result t tok t' :
  identifier t = Ok (tok, t') ->
  lexeme tok = token_text t' /\ (within t -> within t') /\ is_word_type (type tok) = true.
Proof.
  unfold identifier. intros H.
  match type of H with context [token_text ?x] => set (t1 := x) in * end.
  assert (Hw : within t -> within t1) by (intros Hw; apply scan_within; exact Hw).
  destruct (keywords_find keywords (token_text t1)) as [ty|] eqn:Hk.
  - injection H as <- <-. simpl. split; [reflexivity|]. split; [exact Hw|].
    revert Hk. unfold keywords, keywords_find.
    repeat (destruct (String.eqb _ (token_text t1));
            [intros Hk; injection Hk as <-; reflexivity|]).
    discriminate.
  - repeat (destruct (String.eqb (token_text t1) _);
            [injection H as <- <-; simpl; auto|]).
    injection H as <- <-. simpl. auto.
Qed.

Lemma handleIndentation_lexeme t tok t' :
  handleIndentation t = Ok (tok, t') ->
  is_synthetic (type tok) = true /\ lexeme tok = EmptyString.
Proof.
  rewrite handleIndentation_unfold.
  destruct (negb _); [discriminate|].
  destruct (empty _ || _); [intros H; injection H as <- <-; auto|].
  destruct (_ <? _); [|intros H; injection H as <- <-; auto].
  simpl. destruct (empty _ || negb _); [discriminate|].
  intros H; injection H as <- <-.
  rewrite (hd_all_eq _ _ (pop_dedents_tokens _ _ _)). auto.
Qed.

(** How [nextToken] comes to its token. *)
Lemma nextToken_dispatch t tok t' :
  nextToken stod_erange t = Ok (tok, t') ->
  let t2 := at_token_start t in
  let t3 := snd (advance t2) in
  (isAtEnd t2 = true /\ type tok = EOF_TOKEN /\ lexeme tok = EmptyString)
  \/ (isAtEnd t2 = false /\
      (handleIndentation t3 = Ok (tok, t')
       \/ string_ (reset_to_start t3) = Ok (tok, t')
       \/ (number stod_erange (reset_to_start t3) = Ok (tok, t') /\ isdigit (peek t2) = true)
       \/ (identifier (reset_to_start t3) = Ok (tok, t') /\
           isalpha (peek t2) || Ascii.eqb (peek t2) "_" = true)
       \/ (is_operator_type (type tok) = true /\ lexeme tok = token_text t' /\
           extends t3 t' /\ (within t3 -> within t')))).
Proof.
  unfold nextToken, at_token_start. intros H. simpl.
  set (t1 := skipWhitespace t) in *.
  set (t2 := mkTokenizer (source t1) (current t1) (current t1) (line t1) (column t1)
                         (indent_stack t1)) in *.
  change (isAtEnd t1) with (isAtEnd t2) in H.
  destruct (isAtEnd t2) eqn:He.
  { injection H as <- <-. left. auto. }
  right. split; [reflexivity|].
  pose proof (advance_step t2 He) as [Hc _].
  assert (Hpeek : peek t2 = fst (advance t2)).
  { unfold peek. rewrite He. symmetry. exact Hc. }
  rewrite Hpeek. clear Hpeek Hc.
  destruct (advance t2) as [c t3]. simpl.
  destruct (Ascii.eqb c LF); [left; exact H|].
  destruct (Ascii.eqb c "#").
  { injection H as <- <-. do 4 right. split; [reflexivity|]. split; [reflexivity|].
    split; [apply skipComment_extends|]. intros Hw. unfold skipComment. apply scan_within, Hw. }
  destruct (Ascii.eqb c DQUOTE || Ascii.eqb c SQUOTE); [right; left; auto|].
  destruct (isdigit c) eqn:Hd; [right; right; left; auto|].
  destruct (isalpha c || Ascii.eqb c "_") eqn:Ha; [right; right; right; left; auto|].
  do 4 right.
  repeat match type of H with
  | (if Ascii.eqb c ?x then _ else _) = _ => destruct (Ascii.eqb c x)
  | (let '(m, t0) := match_ ?x t3 in _) = _ =>
      let Hx := fresh "Hx" in
      let Hy := fresh "Hy" in
      pose proof (match_extends x t3) as Hx;
      pose proof (match_within x t3) as Hy;
      destruct (match_ x t3) as [[|] ?t4]; simpl in Hx, Hy
  | Ok (makeToken _ _, _) = Ok _ =>
      injection H as <- <-;
      (split; [reflexivity|]); (split; [reflexivity|]);
      first [split; assumption | split; [apply extends_refl|intros Hw; exact Hw]]
  | Throw _ = Ok _ => discriminate H
  end.
Qed.

Lemma nextToken_lexeme_slice (t : Tokenizer) (tok : Token) (t' : Tokenizer) :
  nextToken stod_erange t = Ok (tok, t') ->
  source t' = source t /\
  ((is_synthetic (type tok) = true /\ lexeme tok = EmptyString)
   \/ (is_synthetic (type tok) = false /\
       lexeme tok = String.substring (start t') (current t' - start t') (source t) /\
       String.length (lexeme tok) = current t' - start t' /\
       current t <= start t' /\ start t' < current t' /\
       current t' <= String.length (source t) /\
       forall i, current t <= i < start t' ->
         isspace (char_at (source t) i) = true /\ char_at (source t) i <> LF)).
Proof.
  intros H. pose proof (nextToken_progress stod_erange t tok t' H) as [Hsrc _].
  split; [exact Hsrc|].
  apply nextToken_dispatch in H. simpl in H.
  pose proof (skipWhitespace_extends t) as (S1&_&_&C1).
  pose proof (skipWhitespace_chars t) as Hws.
  set (t2 := at_token_start t) in *.
  assert (S2 : source t2 = source t) by exact S1.
  assert (C2 : current t2 = current (skipWhitespace t)) by reflexivity.
  assert (B2 : start t2 = current t2) by reflexivity.
  destruct H as [(_&Hty&Hlex)|(He&H)]; [left; rewrite Hty; auto|].
  pose proof (advance_extends t2) as (S3&B3&_&_).
  pose proof (advance_step t2 He) as [_ C3].
  set (t3 := snd (advance t2)) in *.
  assert (L2 : current t2 < String.length (source t)).
  { rewrite <- S2. apply isAtEnd_false. exact He. }
  assert (W3 : within t3) by (unfold within; rewrite S3, S2, C3; lia).
  assert (He0 : isAtEnd (reset_to_start t3) = false).
  { apply isAtEnd_false. simpl. rewrite S3, B3, B2, S2. exact L2. }
  assert (W0 : within (reset_to_start t3)).
  { unfold within. simpl. rewrite S3, B3, B2, S2. lia. }
  assert (Hslice : forall x,
            source x = source t -> start x = current t2 -> current t2 < current x ->
            within x -> lexeme tok = token_text x ->
            lexeme tok = String.substring (start x) (current x - start x) (source t) /\
            String.length (lexeme tok) = current x - start x /\
            current t <= start x /\ start x < current x /\
            current x <= String.length (source t) /\
            forall i, current t <= i < start x ->
              isspace (char_at (source t) i) = true /\ char_at (source t) i <> LF).
  { intros x Hs Hb Hc Hw Hl. unfold within in Hw. rewrite Hs in Hw.
    unfold token_text in Hl. rewrite Hs in Hl.
    split; [exact Hl|]. split.
    { rewrite Hl. apply substring_length. lia. }
    rewrite Hb. repeat split; try lia.
    - apply Hws. lia.
    - apply Hws. lia. }
  destruct H as [H|[H|[[H Hd]|[[H Ha]|(Hop&Hlex&(S4&B4&_&C4)&W4)]]]].
  - left. apply handleIndentation_lexeme in H. exact H.
  - right. pose proof (string_within _ _ _ H) as Hw.
    apply string_spec in H as (v&Hty&_&_&Hl&(Hs&Hb&_)&Hc); [|exact He0|reflexivity].
    split; [rewrite Hty; reflexivity|].
    apply Hslice; try congruence.
    + simpl in Hb. congruence.
    + simpl in Hc. rewrite B3, B2 in Hc. exact Hc.
    + unfold token_text. rewrite Hl. simpl. rewrite Hs, Hb. simpl. reflexivity.
  - right. pose proof (number_spec _ _ _ _ H) as ((Hs&Hb&_)&_&Hc).
    apply number_result in H as (Hl&Hw&Hk).
    split; [destruct Hk as [(->&_)|(->&_)]; reflexivity|].
    apply Hslice; try congruence; auto.
    + simpl in Hb. congruence.
    + assert (Hpk : peek (reset_to_start t3) = peek t2).
      { unfold peek. rewrite He0, He. simpl. rewrite S3, B3. reflexivity. }
      specialize (Hc He0). rewrite Hpk in Hc. specialize (Hc Hd).
      simpl in Hc. rewrite B3, B2 in Hc. exact Hc.
  - right. pose proof (identifier_spec _ _ _ H) as ((Hs&Hb&_)&_&Hc).
    apply identifier_result in H as (Hl&Hw&Hk).
    split; [destruct (type tok); try discriminate Hk; reflexivity|].
    apply Hslice; try congruence; auto.
    + simpl in Hb. congruence.
    + assert (Hpk : peek (reset_to_start t3) = peek t2).
      { unfold peek. rewrite He0, He. simpl. rewrite S3, B3. reflexivity. }
      specialize (Hc He0). rewrite Hpk in Hc.
      assert (Hal : isalnum (peek t2) || Ascii.eqb (peek t2) "_" = true).
      { apply orb_true_iff in Ha as [Ha|Ha]; apply orb_true_iff; [left|right; exact Ha].
        unfold isalnum. rewrite Ha. reflexivity. }
      specialize (Hc Hal). simpl in Hc. rewrite B3, B2 in Hc. exact Hc.
  - right. split; [destruct (type tok); try discriminate Hop; reflexivity|].
    apply Hslice; try congruence; auto. lia.
Qed.

(** X5: a token that stands for text carries exactly that text.  Its
    lexeme is the slice of the source between the token start and the
    cursor after the call; the slice is not empty and lies inside the
    source; it begins at or after the cursor before the call, and every
    character between that cursor and the token start is white space
    other than a newline.  INDENT, DEDENT, NEWLINE and EOF tokens have the
    empty lexeme. *)
Theorem token_lexeme_is_source_slice (t : Tokenizer) (tok : Token) (t' : Tokenizer) :
  nextToken stod_erange t = Ok (tok, t') ->
  source t' = source t /\
  ((is_synthetic (type tok) = true /\ lexeme tok = EmptyString)
   \/ (is_synthetic (type tok) = false /\
       lexeme tok = String.substring (start t') (current t' - start t') (source t) /\
       String.length (lexeme tok) = current t' - start t' /\
       current t <= start t' /\ start t' < current t' /\
       current t' <= String.length (source t) /\
       forall i, current t <= i < start t' ->
         isspace (char_at (source t) i) = true /\ char_at (source t) i <> LF)).
Proof. exact (nextToken_lexeme_slice t tok t'). Qed.

Lemma get_substring (s : string) (n m i : nat) (c : ascii) :
  String.get i (String.substring n m s) = Some c ->
  i < m /\ String.get (n + i) s = Some c.
Proof.
  intros H. destruct (Nat.lt_ge_cases i m) as [Hlt|Hge].
  - split; [exact Hlt|]. rewrite String.substring_correct1 in H by exact Hlt.
    rewrite Nat.add_comm. exact H.
  - rewrite String.substring_correct2 in H by exact Hge. discriminate H.
Qed.

Lemma get_is_char_at (s : string) (i : nat) (c : ascii) :
  String.get i s = Some c -> char_at s i = c.
Proof. unfold char_at. intros ->. reflexivity. Qed.


(** X7: a word token (keyword, [True], [False], [None] or identifier) is
    the longest run of letters, digits and underscores at the token start:
    every character of the lexeme is one of these and the character after
    the token, if there is one, is not.  Its type is the keyword type of
    the lexeme when the lexeme is in the keyword table; otherwise the
    lexemes [True] and [False] give BOOLEAN tokens with the values true and
    false, [None] gives the NONE token, and anything else is an
    IDENTIFIER. *)
Theorem word_token_classification (t : Tokenizer) (tok : Token) (t' : Tokenizer) :
  nextToken stod_erange t = Ok (tok, t') ->
  is_word_type (type tok) = true ->
  (forall i c, String.get i (lexeme tok) = Some c ->
     isalnum c || Ascii.eqb c "_" = true) /\
  (isAtEnd t' = true \/ isalnum (peek t') || Ascii.eqb (peek t') "_" = false) /\
  match keywords_find keywords (lexeme tok) with
  | Some ty => type tok = ty /\ value tok = monostate
  | None =>
    if String.eqb (lexeme tok) "True" then type tok = BOOLEAN /\ value tok = v_bool true
    else if String.eqb (lexeme tok) "False" then type tok = BOOLEAN /\ value tok = v_bool false
    else if String.eqb (lexeme tok) "None" then type tok = NONE /\ value tok = monostate
    else type tok = IDENTIFIER /\ value tok = monostate
  end.
Proof.
  intros H Hty.
  apply nextToken_dispatch in H. simpl in H.
  set (t2 := at_token_start t) in *.
  destruct H as [(_&Heof&_)|(He&H)]; [rewrite Heof in Hty; discriminate|].
  set (t3 := snd (advance t2)) in *.
  destruct H as [H|[H|[[H Hd]|[[H _]|(Hop&_)]]]].
  - apply handleIndentation_lexeme in H as [Hs _].
    destruct (type tok); discriminate.
  - apply string_type in H. rewrite H in Hty. discriminate Hty.
  - apply number_result in H as (_&_&[(Hk&_)|(Hk&_)]); rewrite Hk in Hty; discriminate.
  - set (t0 := reset_to_start t3) in *.
    set (cond := fun s : Tokenizer =>
           negb (isAtEnd s) && (isalnum (peek s) || Ascii.eqb (peek s) "_")).
    set (t1 := while_ (remaining t0) cond (fun s => snd (advance s)) t0).
    assert (Hexit : cond t1 = false).
    { apply scan_exit. intros s Hs. apply advance_remaining.
      unfold cond in Hs. destruct (isAtEnd s); [discriminate|reflexivity]. }
    assert (Hext : extends t0 t1) by (apply scan_extends; intros; apply advance_extends).
    pose proof (scan_chars (fun c => isalnum c || Ascii.eqb c "_") cond (remaining t0) t0) as Hch.
    simpl in Hch. fold t1 in Hch.
    assert (Hc : forall s, cond s = true ->
                           isAtEnd s = false /\ isalnum (peek s) || Ascii.eqb (peek s) "_" = true).
    { intros s Hs. unfold cond in Hs. destruct (isAtEnd s); [discriminate|]. auto. }
    specialize (Hch Hc).
    assert (Hres : t' = t1 /\ lexeme tok = token_text t1 /\
              match keywords_find keywords (token_text t1) with
              | Some ty => type tok = ty /\ value tok = monostate
              | None =>
                if String.eqb (token_text t1) "True" then type tok = BOOLEAN /\ value tok = v_bool true
                else if String.eqb (token_text t1) "False"
                     then type tok = BOOLEAN /\ value tok = v_bool false
                else if String.eqb (token_text t1) "None" then type tok = NONE /\ value tok = monostate
                else type tok = IDENTIFIER /\ value tok = monostate
              end).
    { unfold identifier in H. fold cond in H. fold t1 in H.
      destruct (keywords_find keywords (token_text t1)).
      - injection H as <- <-. auto.
      - repeat (destruct (String.eqb (token_text t1) _);
                [injection H as <- <-; auto|]).
        injection H as <- <-. auto. }
    destruct Hres as (->&Hl&Hk). rewrite Hl. split; [|split; [|exact Hk]].
    + intros i c Hget. unfold token_text in Hget.
      apply get_substring in Hget as [Hi Hget].
      destruct Hext as (Hs&Hb&_&_). rewrite Hs in Hget.
      apply get_is_char_at in Hget. rewrite <- Hget. apply Hch.
      assert (H0 : start t0 = start t3) by reflexivity. lia.
    + unfold cond in Hexit. destruct (isAtEnd t1); [left; reflexivity|right; exact Hexit].
  - destruct (type tok); discriminate.
Qed.

End MoreNextToken.

Lemma stack_ok_base : stack_ok [0].
Proof. split; [exists []; reflexivity|repeat constructor]. Qed.

Lemma nextToken_eof_is_stable_witness :
  exists t tok t',
    nextToken_n (fun _ => false) 1 (Tokenizer_new "x") = Some t /\
    nextToken (fun _ => false) t = Ok (tok, t') /\
    type tok = EOF_TOKEN /\
    isAtEnd t' = true /\ nextToken (fun _ => false) t' = Ok (tok, t').
Proof.
  do 3 eexists. split; [vm_compute; reflexivity|].
  match goal with
  | |- nextToken _ ?t = _ /\ _ =>
      split; [vm_compute; reflexivity|]; split; [reflexivity|];
      apply (nextToken_eof_is_stable (fun _ => false) t); vm_compute; reflexivity
  end.
Defined.

Lemma indentation_token_tracks_level_witness :
  exists tok t',
    handleIndentation at_indented_line = Ok (tok, t') /\
    type tok = INDENT /\ indent_stack t' = [0; 1] /\
    indent_spaces at_indented_line mod 4 = 0 /\
    back (indent_stack t') = indent_level at_indented_line.
Proof.
  do 2 eexists. split; [vm_compute; reflexivity|].
  split; [reflexivity|]. split; [reflexivity|].
  destruct (indentation_token_tracks_level at_indented_line _ _ stack_ok_base eq_refl)
    as (Hmod & Hback & _).
  split; [exact Hmod|exact Hback].
Defined.

Lemma indentation_error_conditions_witness :
  ((exists e, handleIndentation at_badly_indented_line = Throw e) <->
   (indent_spaces at_badly_indented_line mod 4 <> 0 \/
    (indent_level at_badly_indented_line < back (indent_stack at_badly_indented_line) /\
     ~ In (indent_level at_badly_indented_line) (indent_stack at_badly_indented_line)))) /\
  (forall e, handleIndentation at_badly_indented_line = Throw e ->
     e = Invalid_indentation (line at_badly_indented_line)).
Proof. apply (indentation_error_conditions at_badly_indented_line). exact stack_ok_base. Defined.

Lemma token_lexeme_is_source_slice_witness :
  exists tok t',
    nextToken (fun _ => false) (Tokenizer_new "  foo") = Ok (tok, t') /\
    lexeme tok = "foo" /\ start t' = 2 /\ current t' = 5 /\
    source t' = "  foo" /\
    ((is_synthetic (type tok) = true /\ lexeme tok = EmptyString)
     \/ (is_synthetic (type tok) = false /\
         lexeme tok = String.substring (start t') (current t' - start t') "  foo" /\
         String.length (lexeme tok) = current t' - start t' /\
         0 <= start t' /\ start t' < current t' /\
         current t' <= String.length "  foo" /\
         forall i, 0 <= i < start t' ->
           isspace (char_at "  foo" i) = true /\ char_at "  foo" i <> LF)).
Proof.
  do 2 eexists. split; [vm_compute; reflexivity|].
  do 3 (split; [reflexivity|]).
  match goal with
  | |- source ?t' = _ /\ _ =>
      apply (token_lexeme_is_source_slice (fun _ => false) (Tokenizer_new "  foo") _ t')
  end.
  vm_compute. reflexivity.
Defined.


Lemma word_token_classification_witness :
  exists tok t',
    nextToken (fun _ => false) (Tokenizer_new "while x") = Ok (tok, t') /\
    type tok = WHILE /\ lexeme tok = "while" /\
    (forall i c, String.get i (lexeme tok) = Some c ->
       isalnum c || Ascii.eqb c "_" = true) /\
    (isAtEnd t' = true \/ isalnum (peek t') || Ascii.eqb (peek t') "_" = false) /\
    match keywords_find keywords (lexeme tok) with
    | Some ty => type tok = ty /\ value tok = monostate
    | None =>
      if String.eqb (lexeme tok) "True" then type tok = BOOLEAN /\ value tok = v_bool true
      else if String.eqb (lexeme tok) "False"
           then type tok = BOOLEAN /\ value tok = v_bool false
      else if String.eqb (lexeme tok) "None" then type tok = NONE /\ value tok = monostate
      else type tok = IDENTIFIER /\ value tok = monostate
    end.
Proof.
  do 2 eexists. split; [vm_compute; reflexivity|].
  do 2 (split; [reflexivity|]).
  match goal with
  | |- _ /\ (isAtEnd ?t' = true \/ _) /\ _ =>
      apply (word_token_classification (fun _ => false) (Tokenizer_new "while x") _ t')
  end; vm_compute; reflexivity.
Defined.

End TokenizerMore.

(** ** Further properties of the parser *)

Module ParserMore.
Import lexer parser Parser ParserInvariants.

Ltac conj_split := match goal with |- _ /\ _ => split end.

Section Keeps.
Variable tokens : list Token.
Variable I : nat -> Prop.
Hypothesis I_step :
  forall current, I current -> isAtEnd tokens current = false ->
    type (peek tokens current) <> EOF_TOKEN -> I (current + 1).

Local Abbreviation keeps := (keeps tokens I).

Lemma keeps_ret {A} {G : Good A} (a : A) : good a -> keeps (ret a).
Proof. intros Ha cur a' cur' HI H. injection H as <- <-. auto. Qed.

Lemma keeps_bind {A B} {GA : Good A} {GB : Good B} (m : P A) (k : A -> P B) :
  keeps m -> (forall a, good a -> keeps (k a)) -> keeps (bind m k).
Proof.
  intros Hm Hk cur b cur' HI H. unfold bind in H.
  destruct (m cur) as [[[a cur1]|e]|] eqn:Hmc; try discriminate.
  destruct (Hm cur a cur1 HI Hmc) as [HI1 Ha].
  exact (Hk a Ha cur1 b cur' HI1 H).
Qed.

Lemma keeps_out_of_fuel {A} {G : Good A} : keeps (@out_of_fuel A).
Proof. intros cur a cur' _ H. discriminate H. Qed.

Lemma keeps_error {A} {G : Good A} token message : keeps (@error A token message).
Proof. intros cur a cur' _ H. discriminate H. Qed.

Lemma keeps_check ty : keeps (check tokens ty).
Proof.
  intros cur a cur' HI H. unfold check in H.
  destruct (isAtEnd tokens cur); injection H as <- <-; split; auto; exact Logic.I.
Qed.

Lemma keeps_peek_ : keeps (peek_ tokens).
Proof. intros cur a cur' HI H. injection H as <- <-. split; [auto|exact Logic.I]. Qed.

Lemma keeps_previous : keeps (previous tokens).
Proof. intros cur a cur' HI H. injection H as <- <-. split; [auto|exact Logic.I]. Qed.

Lemma keeps_isAtEnd_ : keeps (isAtEnd_ tokens).
Proof. intros cur a cur' HI H. injection H as <- <-. split; [auto|exact Logic.I]. Qed.

Lemma keeps_match ty : ty <> EOF_TOKEN -> keeps (match_ tokens ty).
Proof.
  intros Hty cur a cur' HI H. unfold match_, bind, check, advance, ret in H.
  destruct (isAtEnd tokens cur) eqn:He.
  - injection H as <- <-. split; [auto|exact Logic.I].
  - unfold TokenType_eqb in H.
    destruct (bool_decide (type (peek tokens cur) = ty)) eqn:Hb.
    + apply bool_decide_eq_true in Hb. rewrite He in H. injection H as <- <-.
      split; [|exact Logic.I]. apply I_step; [exact HI|exact He|congruence].
    + injection H as <- <-. split; [auto|exact Logic.I].
Qed.

Lemma keeps_consume ty message : ty <> EOF_TOKEN -> keeps (consume tokens ty message).
Proof.
  intros Hty cur a cur' HI H. unfold consume, bind, check, advance, ret, peek_, error in H.
  destruct (isAtEnd tokens cur) eqn:He; [discriminate|].
  unfold TokenType_eqb in H.
  destruct (bool_decide (type (peek tokens cur) = ty)) eqn:Hb; [|discriminate].
  apply bool_decide_eq_true in Hb. rewrite He in H. injection H as <- <-.
  split; [|exact Logic.I]. apply I_step; [exact HI|exact He|congruence].
Qed.

Lemma keeps_match_any tys :
  Forall (fun ty => ty <> EOF_TOKEN) tys -> keeps (match_any tokens tys).
Proof.
  induction 1 as [|ty tys Hty _ IH]; simpl.
  - apply keeps_ret. exact Logic.I.
  - apply keeps_bind; [apply keeps_match; exact Hty|].
    intros [|] _; [apply keeps_ret; exact Logic.I|exact IH].
Qed.

(** The one-token lookahead of [statement]: the cursor is put back. *)
Lemma keeps_lookahead {A} {G : Good A} (test : Token -> bool) (k1 k2 : P A) :
  keeps k1 -> keeps k2 ->
  keeps (temp_current <- get_current ;;
         advance tokens ;;;
         token <- peek_ tokens ;;
         if test token then set_current temp_current ;;; k1
         else set_current temp_current ;;; k2).
Proof.
  intros H1 H2 cur a cur' HI H.
  unfold bind, get_current, advance, peek_, set_current in H.
  destruct (isAtEnd tokens cur); simpl in H;
    match type of H with context [if test ?x then _ else _] => destruct (test x) end;
    eauto.
Qed.

Lemma good_binary op l r : good l -> good r -> good (BinaryExpression op l r).
Proof. unfold good, Good_expression. simpl. intros -> ->. reflexivity. Qed.

Lemma good_expressions_snoc (es : list Expression) (e : Expression) :
  good es -> good e -> good (es ++ [e])%list.
Proof.
  unfold good, Good_expressions, Good_expression. intros Hes He.
  rewrite forallb_app, Hes. simpl. rewrite He. reflexivity.
Qed.

Lemma no_postfix_pairs_snoc ps k v :
  no_postfix_pairs ps = true -> no_postfix k = true -> no_postfix v = true ->
  no_postfix_pairs (ps ++ [(k, v)])%list = true.
Proof.
  induction ps as [|[k0 v0] ps IH]; simpl; intros Hps Hk Hv.
  - rewrite Hk, Hv. reflexivity.
  - apply andb_true_iff in Hps as [H0 Hps]. rewrite H0. simpl. apply IH; assumption.
Qed.

Lemma no_postfix_dict ps :
  no_postfix (DictExpression ps) = no_postfix_pairs ps.
Proof. simpl. induction ps as [|[k v] ps IH]; simpl; [reflexivity|]. rewrite IH. reflexivity. Qed.

Ltac good_tac :=
  first
    [ exact Logic.I
    | assumption
    | reflexivity
    | apply good_binary; assumption
    | apply good_expressions_snoc; assumption
    | (unfold good, Good_pairs in *; apply no_postfix_pairs_snoc; assumption)
    | (unfold good, Good_expression, Good_expressions, Good_pairs in *;
       first [ rewrite no_postfix_dict; assumption | simpl; assumption ]) ].

Ltac keeps_tac :=
  repeat
    match goal with
    | |- ParserInvariants.keeps _ _ (ret _) => apply keeps_ret; good_tac
    | |- ParserInvariants.keeps _ _ out_of_fuel => apply keeps_out_of_fuel
    | |- ParserInvariants.keeps _ _ (error _ _) => apply keeps_error
    | |- ParserInvariants.keeps _ _ (match_ _ _) => apply keeps_match; discriminate
    | |- ParserInvariants.keeps _ _ (consume _ _ _) => apply keeps_consume; discriminate
    | |- ParserInvariants.keeps _ _ (check _ _) => apply keeps_check
    | |- ParserInvariants.keeps _ _ (peek_ _) => apply keeps_peek_
    | |- ParserInvariants.keeps _ _ (previous _) => apply keeps_previous
    | |- ParserInvariants.keeps _ _ (isAtEnd_ _) => apply keeps_isAtEnd_
    | |- ParserInvariants.keeps _ _ (match_any _ _) =>
        apply keeps_match_any; repeat constructor; discriminate
    | |- ParserInvariants.keeps _ _
           (bind get_current (fun temp => bind (advance _) _)) =>
        apply keeps_lookahead
    | |- ParserInvariants.keeps _ _ (bind _ _) => apply keeps_bind; [|intros ? ?]
    | |- ParserInvariants.keeps _ _ (if ?b then _ else _) => destruct b
    | |- ParserInvariants.keeps _ _ (match ?x with _ => _ end) => destruct x
    | H : ParserInvariants.keeps _ _ ?m |- ParserInvariants.keeps _ _ ?m => exact H
    | H : forall e, good e -> ParserInvariants.keeps _ _ (?f e)
      |- ParserInvariants.keeps _ _ (?f _) => apply H; good_tac
    | H : forall x, ParserInvariants.keeps _ _ (?f x)
      |- ParserInvariants.keeps _ _ (?f _) => apply H
    end.

Ltac keeps_intro :=
  match goal with
  | |- ParserInvariants.keeps _ _ _ => idtac
  | |- _ => intros ? ?
  end.

Ltac keeps_intro1 :=
  match goal with
  | |- ParserInvariants.keeps _ _ _ => idtac
  | |- _ => intros ?
  end.

Lemma expression_grammar_keeps (fuel : nat) :
  keeps (expression tokens fuel) /\
  keeps (logicalOr tokens fuel) /\
  (forall e, good e -> keeps (logicalOr_loop tokens fuel e)) /\
  keeps (logicalAnd tokens fuel) /\
  (forall e, good e -> keeps (logicalAnd_loop tokens fuel e)) /\
  keeps (equality tokens fuel) /\
  (forall e, good e -> keeps (equality_loop tokens fuel e)) /\
  keeps (comparison tokens fuel) /\
  (forall e, good e -> keeps (comparison_loop tokens fuel e)) /\
  keeps (term tokens fuel) /\
  (forall e, good e -> keeps (term_loop tokens fuel e)) /\
  keeps (factor tokens fuel) /\
  (forall e, good e -> keeps (factor_loop tokens fuel e)) /\
  keeps (power tokens fuel) /\
  (forall e, good e -> keeps (power_loop tokens fuel e)) /\
  keeps (unary tokens fuel) /\
  keeps (primary tokens fuel) /\
  (forall es, good es -> keeps (expression_list tokens fuel es)) /\
  keeps (listExpression tokens fuel) /\
  keeps (dictExpression tokens fuel) /\
  (forall ps, good ps -> keeps (dictExpression_loop tokens fuel ps)).
Proof.
  induction fuel as [|fuel IH].
  - repeat conj_split; keeps_intro; simpl; apply keeps_out_of_fuel.
  - destruct IH as (H1&H2&H3&H4&H5&H6&H7&H8&H9&H10&H11&H12&H13&H14&H15&H16&H17&H18&H19&H20&H21).
    repeat conj_split; keeps_intro; simpl; keeps_tac.
Qed.

Lemma expression_keeps fuel : keeps (expression tokens fuel).
Proof. apply (expression_grammar_keeps fuel). Qed.

Lemma returnStatement_keeps fuel : keeps (returnStatement tokens fuel).
Proof. pose proof (expression_keeps fuel). unfold returnStatement. keeps_tac. Qed.

Lemma assignmentStatement_keeps fuel : keeps (assignmentStatement tokens fuel).
Proof. pose proof (expression_keeps fuel). unfold assignmentStatement. keeps_tac. Qed.

Lemma expressionStatement_keeps fuel : keeps (expressionStatement tokens fuel).
Proof. pose proof (expression_keeps fuel). unfold expressionStatement. keeps_tac. Qed.

Lemma statement_grammar_keeps (fuel : nat) :
  keeps (statement tokens fuel) /\
  keeps (ifStatement tokens fuel) /\
  (forall bs, keeps (ifStatement_elif tokens fuel bs)) /\
  keeps (whileStatement tokens fuel) /\
  keeps (forStatement tokens fuel) /\
  keeps (matchStatement tokens fuel) /\
  (forall cs, keeps (matchStatement_loop tokens fuel cs)) /\
  keeps (block tokens fuel) /\
  (forall ss, keeps (block_loop tokens fuel ss)).
Proof.
  induction fuel as [|fuel IH].
  - repeat conj_split; keeps_intro1; simpl; apply keeps_out_of_fuel.
  - destruct IH as (H1&H2&H3&H4&H5&H6&H7&H8&H9).
    pose proof (expression_keeps fuel).
    pose proof (returnStatement_keeps fuel).
    pose proof (assignmentStatement_keeps fuel).
    pose proof (expressionStatement_keeps fuel).
    repeat conj_split; keeps_intro1; simpl; keeps_tac.
Qed.

Lemma statement_keeps fuel : keeps (statement tokens fuel).
Proof. apply (statement_grammar_keeps fuel). Qed.

Lemma block_keeps fuel : keeps (block tokens fuel).
Proof. apply (statement_grammar_keeps fuel). Qed.

Lemma functionDeclaration_parameters_keeps fuel :
  forall ps, keeps (functionDeclaration_parameters tokens fuel ps).
Proof.
  induction fuel as [|fuel IH]; intros ps; simpl.
  - apply keeps_out_of_fuel.
  - keeps_tac.
Qed.

Lemma functionDeclaration_keeps fuel : keeps (functionDeclaration tokens fuel).
Proof.
  pose proof (block_keeps fuel).
  pose proof (functionDeclaration_parameters_keeps fuel).
  unfold functionDeclaration. keeps_tac.
Qed.

Lemma importDeclaration_keeps : keeps (importDeclaration tokens).
Proof. unfold importDeclaration. keeps_tac. Qed.

Lemma declaration_grammar_keeps (fuel : nat) :
  keeps (declaration tokens fuel) /\
  keeps (classDeclaration tokens fuel) /\
  (forall ms, keeps (classDeclaration_loop tokens fuel ms)).
Proof.
  induction fuel as [|fuel IH].
  - repeat conj_split; keeps_intro1; simpl; apply keeps_out_of_fuel.
  - destruct IH as (H1&H2&H3).
    pose proof (functionDeclaration_keeps fuel).
    pose proof importDeclaration_keeps.
    repeat conj_split; keeps_intro1; simpl; keeps_tac.
Qed.

Lemma program_loop_keeps fuel :
  forall ds ss current p current',
    I current -> program_loop tokens fuel ds ss current = Some (Ok (p, current')) ->
    I current' /\ isAtEnd tokens current' = true.
Proof.
  induction fuel as [|fuel IH]; intros ds ss cur p cur' HI H; [discriminate|].
  simpl in H. unfold bind at 1 in H. unfold isAtEnd_ at 1 in H.
  destruct (isAtEnd tokens cur) eqn:He.
  - injection H as <- <-. auto.
  - unfold bind at 1 in H. unfold peek_ at 1 in H.
    assert (Hadv : forall ty, type (peek tokens cur) = ty -> ty <> EOF_TOKEN ->
              (advance tokens;;; program_loop tokens fuel ds ss) cur = Some (Ok (p, cur')) ->
              I cur' /\ isAtEnd tokens cur' = true).
    { intros ty Hty Hne Hrun. unfold bind, advance in Hrun. rewrite He in Hrun.
      apply (IH _ _ _ _ _ (I_step cur HI He ltac:(congruence)) Hrun). }
    unfold TokenType_eqb in H.
    destruct (bool_decide (type (peek tokens cur) = INDENT)) eqn:B1.
    { apply bool_decide_eq_true in B1. apply (Hadv _ B1); [discriminate|exact H]. }
    destruct (bool_decide (type (peek tokens cur) = DEDENT)) eqn:B2.
    { apply bool_decide_eq_true in B2. apply (Hadv _ B2); [discriminate|exact H]. }
    destruct (bool_decide (type (peek tokens cur) = NEWLINE)) eqn:B3.
    { apply bool_decide_eq_true in B3. apply (Hadv _ B3); [discriminate|exact H]. }
    unfold bind at 1 in H.
    destruct (declaration tokens fuel cur) as [[[d cur1]|e]|] eqn:Hd; try discriminate.
    destruct (proj1 (declaration_grammar_keeps fuel) _ _ _ HI Hd) as [HI1 _].
    destruct d as [d|].
    + apply (IH _ _ _ _ _ HI1 H).
    + unfold bind at 1 in H.
      destruct (statement tokens fuel cur1) as [[[s cur2]|e]|] eqn:Hs; try discriminate.
      destruct (statement_keeps fuel _ _ _ HI1 Hs) as [HI2 _].
      apply (IH _ _ _ _ _ HI2 H).
Qed.

End Keeps.

Lemma no_eof_before_step tokens current :
  no_eof_before tokens current -> isAtEnd tokens current = false ->
  type (peek tokens current) <> EOF_TOKEN -> no_eof_before tokens (current + 1).
Proof.
  intros HI He Hne i Hi Hlen.
  destruct (Nat.eq_dec i current) as [->|Hneq].
  - unfold peek in Hne. rewrite He in Hne. exact Hne.
  - apply HI; lia.
Qed.

Lemma isAtEnd_spec tokens current :
  isAtEnd tokens current = true <-> List.length tokens <= current.
Proof. unfold isAtEnd. apply Nat.leb_le. Qed.
(** ** Termination of the parser, with the tokens it consumes *)

Section Tot.
Variable tokens : list Token.
Local Abbreviation tot := (tot tokens).

Lemma tokens_left_0 current :
  tokens_left tokens current = 0 <-> isAtEnd tokens current = true.
Proof. unfold tokens_left. rewrite isAtEnd_spec. lia. Qed.

Lemma tokens_left_step current :
  isAtEnd tokens current = false ->
  S (tokens_left tokens (current + 1)) = tokens_left tokens current.
Proof.
  intros He. assert (~ List.length tokens <= current).
  { intros Hc. apply isAtEnd_spec in Hc. congruence. }
  unfold tokens_left. lia.
Qed.

Lemma tot_ret b {A} (a : A) (post : A -> nat -> Prop) : post a b -> tot b (ret a) post.
Proof.
  intros Hp cur <-. eexists. split; [reflexivity|].
  intros a' cur' [= <- <-]. exact Hp.
Qed.

Lemma tot_error b {A} token message (post : A -> nat -> Prop) :
  tot b (error token message) post.
Proof. intros cur _. eexists. split; [reflexivity|]. intros a' cur' [=]. Qed.

Lemma tot_bind b {A B} (m : P A) (k : A -> P B) mid post :
  tot b m mid -> (forall a b', mid a b' -> tot b' (k a) post) -> tot b (bind m k) post.
Proof.
  intros Hm Hk cur Hb. destruct (Hm cur Hb) as ([[a cur1]|e] & Hr & Hpost).
  - destruct (Hk a _ (Hpost a cur1 eq_refl) cur1 eq_refl) as (r & Hr' & Hpost').
    exists r. split; [|exact Hpost']. unfold bind. rewrite Hr. exact Hr'.
  - exists (Throw e). split; [|intros a cur' [=]]. unfold bind. rewrite Hr. reflexivity.
Qed.

Lemma tot_weaken b {A} (m : P A) (post post' : A -> nat -> Prop) :
  tot b m post -> (forall a b', post a b' -> post' a b') -> tot b m post'.
Proof.
  intros Hm Hw cur Hb. destruct (Hm cur Hb) as (r & Hr & Hpost).
  exists r. split; [exact Hr|]. intros a cur' E. apply Hw, (Hpost a cur' E).
Qed.

Lemma tot_assoc b {A B C} (m : P A) (f : A -> P B) (k : B -> P C) post :
  tot b (bind m (fun x => bind (f x) k)) post -> tot b (bind (bind m f) k) post.
Proof.
  intros H cur Hb. destruct (H cur Hb) as (r & Hr & Hpost).
  exists r. split; [|exact Hpost]. rewrite <- Hr. unfold bind.
  destruct (m cur) as [[[a cur1]|e]|]; reflexivity.
Qed.

Lemma tot_ret_bind b {A B} (a : A) (k : A -> P B) post :
  tot b (k a) post -> tot b (bind (ret a) k) post.
Proof. intros H. exact H. Qed.

Lemma tot_check b ty : tot b (check tokens ty) (fun _ b' => b' = b).
Proof.
  intros cur <-. unfold check. destruct (isAtEnd tokens cur);
    (eexists; split; [reflexivity|]); intros a cur' [= <- <-]; reflexivity.
Qed.

Lemma tot_peek_ b : tot b (peek_ tokens) (fun _ b' => b' = b).
Proof. intros cur <-. eexists; split; [reflexivity|]. intros a cur' [= <- <-]. reflexivity. Qed.

Lemma tot_previous b : tot b (previous tokens) (fun _ b' => b' = b).
Proof. intros cur <-. eexists; split; [reflexivity|]. intros a cur' [= <- <-]. reflexivity. Qed.

Lemma tot_isAtEnd_ b :
  tot b (isAtEnd_ tokens) (fun e b' => b' = b /\ if e then b = 0 else 0 < b).
Proof.
  intros cur <-. eexists; split; [reflexivity|]. intros a cur' [= <- <-].
  split; [reflexivity|]. destruct (isAtEnd tokens cur) eqn:He.
  - apply tokens_left_0, He.
  - destruct (tokens_left tokens cur) eqn:Hl; [|lia].
    apply tokens_left_0 in Hl. congruence.
Qed.

Lemma tot_advance b : tot b (advance tokens) (fun _ b' => b' = b - 1).
Proof.
  intros cur <-. unfold advance. destruct (isAtEnd tokens cur) eqn:He;
    (eexists; split; [reflexivity|]); intros a cur' [= <- <-].
  - apply tokens_left_0 in He. lia.
  - pose proof (tokens_left_step cur He). lia.
Qed.

Lemma tot_match b ty :
  tot b (match_ tokens ty) (fun m b' => if m then S b' = b else b' = b).
Proof.
  intros cur <-. unfold match_, bind, check, advance, ret.
  destruct (isAtEnd tokens cur) eqn:He.
  - eexists; split; [reflexivity|]. intros a cur' [= <- <-]. reflexivity.
  - destruct (TokenType_eqb (type (peek tokens cur)) ty).
    + rewrite He. eexists; split; [reflexivity|]. intros a cur' [= <- <-].
      apply tokens_left_step, He.
    + eexists; split; [reflexivity|]. intros a cur' [= <- <-]. reflexivity.
Qed.

Lemma tot_consume b ty message :
  tot b (consume tokens ty message) (fun _ b' => S b' = b).
Proof.
  intros cur <-. unfold consume, bind, check, advance, ret, peek_, error.
  destruct (isAtEnd tokens cur) eqn:He.
  - eexists; split; [reflexivity|]. intros a cur' [=].
  - destruct (TokenType_eqb (type (peek tokens cur)) ty).
    + rewrite He. eexists; split; [reflexivity|]. intros a cur' [= <- <-].
      apply tokens_left_step, He.
    + eexists; split; [reflexivity|]. intros a cur' [=].
Qed.

Lemma tot_match_any b tys :
  tot b (match_any tokens tys) (fun m b' => if m then S b' = b else b' = b).
Proof.
  induction tys as [|ty tys IH]; simpl.
  - apply tot_ret. reflexivity.
  - eapply tot_bind; [apply tot_match|]. intros [|] b' Hb'.
    + apply tot_ret. exact Hb'.
    + subst b'. exact IH.
Qed.

Lemma tot_lookahead b {A} (test : Token -> bool) (k1 k2 : P A) post :
  tot b k1 post -> tot b k2 post ->
  tot b (temp_current <- get_current ;;
         advance tokens ;;;
         token <- peek_ tokens ;;
         if test token then set_current temp_current ;;; k1
         else set_current temp_current ;;; k2) post.
Proof.
  intros H1 H2 cur Hb.
  unfold bind, get_current, advance, peek_, set_current.
  destruct (isAtEnd tokens cur); simpl;
    match goal with |- context [if test ?x then _ else _] => destruct (test x) end;
    auto.
Qed.

Ltac tot_side := cbv beta iota in *; first [lia | intuition lia].

Ltac tot_call :=
  match goal with
  | H : forall b, ParserInvariants.tot _ b ?m _ |- ParserInvariants.tot _ _ ?m _ => apply H
  | H : forall b, _ -> ParserInvariants.tot _ b ?m _ |- ParserInvariants.tot _ _ ?m _ =>
      apply H; tot_side
  | H : forall x b, _ -> ParserInvariants.tot _ b (?f x) _ |- ParserInvariants.tot _ _ (?f _) _ =>
      apply H; tot_side
  | H : forall x y b, _ -> ParserInvariants.tot _ b (?f x y) _
    |- ParserInvariants.tot _ _ (?f _ _) _ =>
      apply H; tot_side
  end.

Ltac tot_prim :=
  first [ apply tot_match | apply tot_consume | apply tot_check | apply tot_peek_
        | apply tot_previous | apply tot_isAtEnd_ | apply tot_match_any
        | apply tot_advance | tot_call ].

Ltac tot_tac :=
  repeat
    (cbv beta iota;
     match goal with
     | |- ParserInvariants.tot _ _ (ret _) _ => apply tot_ret; tot_side
     | |- ParserInvariants.tot _ _ (error _ _) _ => apply tot_error
     | |- ParserInvariants.tot _ _ (bind (ret _) _) _ => apply tot_ret_bind
     | |- ParserInvariants.tot _ _ (bind (bind _ _) _) _ => apply tot_assoc
     | |- ParserInvariants.tot _ _ (bind (if ?c then _ else _) _) _ => destruct c; simpl
     | |- ParserInvariants.tot _ _ (bind get_current (fun temp => bind (advance _) _)) _ =>
         apply tot_lookahead
     | |- ParserInvariants.tot _ _ (bind _ _) _ =>
         eapply tot_bind; [tot_prim | intros ? ? ?]
     | |- ParserInvariants.tot _ _ (if ?c then _ else _) _ => destruct c
     | |- ParserInvariants.tot _ _ (match ?x with _ => _ end) _ => destruct x
     | |- ParserInvariants.tot _ _ _ _ => eapply tot_weaken; [tot_call | intros ? ? ?; tot_side]
     end).

Ltac tot_intro :=
  match goal with
  | |- ParserInvariants.tot _ _ _ _ => idtac
  | |- forall _, _ => intro; tot_intro
  end.

Lemma expression_grammar_tot (fuel : nat) :
  (forall b, 17 + 30 * b <= fuel -> tot b (expression tokens fuel) (fun _ b' => b' < b)) /\
  (forall b, 16 + 30 * b <= fuel -> tot b (logicalOr tokens fuel) (fun _ b' => b' < b)) /\
  (forall e b, 15 + 30 * b <= fuel -> tot b (logicalOr_loop tokens fuel e) (fun _ b' => b' <= b)) /\
  (forall b, 14 + 30 * b <= fuel -> tot b (logicalAnd tokens fuel) (fun _ b' => b' < b)) /\
  (forall e b, 13 + 30 * b <= fuel -> tot b (logicalAnd_loop tokens fuel e) (fun _ b' => b' <= b)) /\
  (forall b, 12 + 30 * b <= fuel -> tot b (equality tokens fuel) (fun _ b' => b' < b)) /\
  (forall e b, 11 + 30 * b <= fuel -> tot b (equality_loop tokens fuel e) (fun _ b' => b' <= b)) /\
  (forall b, 10 + 30 * b <= fuel -> tot b (comparison tokens fuel) (fun _ b' => b' < b)) /\
  (forall e b, 9 + 30 * b <= fuel -> tot b (comparison_loop tokens fuel e) (fun _ b' => b' <= b)) /\
  (forall b, 8 + 30 * b <= fuel -> tot b (term tokens fuel) (fun _ b' => b' < b)) /\
  (forall e b, 7 + 30 * b <= fuel -> tot b (term_loop tokens fuel e) (fun _ b' => b' <= b)) /\
  (forall b, 6 + 30 * b <= fuel -> tot b (factor tokens fuel) (fun _ b' => b' < b)) /\
  (forall e b, 5 + 30 * b <= fuel -> tot b (factor_loop tokens fuel e) (fun _ b' => b' <= b)) /\
  (forall b, 4 + 30 * b <= fuel -> tot b (power tokens fuel) (fun _ b' => b' < b)) /\
  (forall e b, 3 + 30 * b <= fuel -> tot b (power_loop tokens fuel e) (fun _ b' => b' <= b)) /\
  (forall b, 2 + 30 * b <= fuel -> tot b (unary tokens fuel) (fun _ b' => b' < b)) /\
  (forall b, 1 + 30 * b <= fuel -> tot b (primary tokens fuel) (fun _ b' => b' < b)) /\
  (forall es b, 18 + 30 * b <= fuel -> tot b (expression_list tokens fuel es) (fun _ b' => b' < b)) /\
  (forall b, 19 + 30 * b <= fuel -> tot b (listExpression tokens fuel) (fun _ b' => b' < b)) /\
  (forall b, 19 + 30 * b <= fuel -> tot b (dictExpression tokens fuel) (fun _ b' => b' < b)) /\
  (forall ps b, 18 + 30 * b <= fuel -> tot b (dictExpression_loop tokens fuel ps) (fun _ b' => b' < b)).
Proof.
  induction fuel as [|fuel IH].
  - repeat conj_split; intros; lia.
  - destruct IH as (H1&H2&H3&H4&H5&H6&H7&H8&H9&H10&H11&H12&H13&H14&H15&H16&H17&H18&H19&H20&H21).
    repeat conj_split; tot_intro; simpl; tot_tac.
Qed.

Lemma expression_tot fuel b :
  17 + 30 * b <= fuel -> tot b (expression tokens fuel) (fun _ b' => b' < b).
Proof. apply (expression_grammar_tot fuel). Qed.

Lemma expressionStatement_tot fuel b :
  17 + 30 * b <= fuel -> tot b (expressionStatement tokens fuel) (fun _ b' => b' < b).
Proof. intros Hf. pose proof (expression_tot fuel). unfold expressionStatement. tot_tac. Qed.

Lemma returnStatement_tot fuel b :
  17 + 30 * b <= fuel -> tot b (returnStatement tokens fuel) (fun _ b' => b' <= b).
Proof. intros Hf. pose proof (expression_tot fuel). unfold returnStatement. tot_tac. Qed.

Lemma assignmentStatement_tot fuel b :
  17 + 30 * b <= fuel -> tot b (assignmentStatement tokens fuel) (fun _ b' => b' < b).
Proof. intros Hf. pose proof (expression_tot fuel). unfold assignmentStatement. tot_tac. Qed.

Lemma statement_grammar_tot (fuel : nat) :
  (forall b, 20 + 30 * b <= fuel -> tot b (statement tokens fuel) (fun _ b' => b' < b)) /\
  (forall b, 1 + 30 * b <= fuel -> tot b (ifStatement tokens fuel) (fun _ b' => b' < b)) /\
  (forall bs b, 1 + 30 * b <= fuel -> tot b (ifStatement_elif tokens fuel bs) (fun _ b' => b' <= b)) /\
  (forall b, 20 + 30 * b <= fuel -> tot b (whileStatement tokens fuel) (fun _ b' => b' < b)) /\
  (forall b, 1 + 30 * b <= fuel -> tot b (forStatement tokens fuel) (fun _ b' => b' < b)) /\
  (forall b, 20 + 30 * b <= fuel -> tot b (matchStatement tokens fuel) (fun _ b' => b' < b)) /\
  (forall cs b, 20 + 30 * b <= fuel -> tot b (matchStatement_loop tokens fuel cs) (fun _ b' => b' <= b)) /\
  (forall b, 22 + 30 * b <= fuel -> tot b (block tokens fuel) (fun _ b' => b' <= b)) /\
  (forall ss b, 21 + 30 * b <= fuel -> tot b (block_loop tokens fuel ss) (fun _ b' => b' <= b)).
Proof.
  induction fuel as [|fuel IH].
  - repeat conj_split; intros; lia.
  - destruct IH as (H1&H2&H3&H4&H5&H6&H7&H8&H9).
    pose proof (expression_tot fuel).
    pose proof (returnStatement_tot fuel).
    pose proof (assignmentStatement_tot fuel).
    pose proof (expressionStatement_tot fuel).
    repeat conj_split; tot_intro; simpl; tot_tac.
Qed.

Lemma statement_tot fuel b :
  20 + 30 * b <= fuel -> tot b (statement tokens fuel) (fun _ b' => b' < b).
Proof. apply (statement_grammar_tot fuel). Qed.

Lemma block_tot fuel b :
  22 + 30 * b <= fuel -> tot b (block tokens fuel) (fun _ b' => b' <= b).
Proof. apply (statement_grammar_tot fuel). Qed.

Lemma functionDeclaration_parameters_tot fuel :
  forall ps b, 1 + 30 * b <= fuel ->
    tot b (functionDeclaration_parameters tokens fuel ps) (fun _ b' => b' < b).
Proof.
  induction fuel as [|fuel IH]; intros ps b Hf; [lia|]. simpl. tot_tac.
Qed.

Lemma functionDeclaration_tot fuel b :
  30 * b <= fuel -> tot b (functionDeclaration tokens fuel) (fun _ b' => b' < b).
Proof.
  intros Hf. pose proof (block_tot fuel).
  pose proof (functionDeclaration_parameters_tot fuel).
  unfold functionDeclaration. tot_tac.
Qed.

Lemma importDeclaration_tot b : tot b (importDeclaration tokens) (fun _ b' => b' < b).
Proof. unfold importDeclaration. tot_tac. Qed.

Lemma declaration_grammar_tot (fuel : nat) :
  (forall b, 1 + 30 * b <= fuel ->
     tot b (declaration tokens fuel)
         (fun d b' => match d with Some _ => b' < b | None => b' = b end)) /\
  (forall b, 1 + 30 * b <= fuel -> tot b (classDeclaration tokens fuel) (fun _ b' => b' < b)) /\
  (forall ms b, 2 + 30 * b <= fuel ->
     tot b (classDeclaration_loop tokens fuel ms) (fun _ b' => b' <= b)).
Proof.
  induction fuel as [|fuel IH].
  - repeat conj_split; intros; lia.
  - destruct IH as (H1&H2&H3).
    pose proof (functionDeclaration_tot fuel).
    pose proof importDeclaration_tot.
    repeat conj_split; tot_intro; simpl; tot_tac.
Qed.

Lemma program_loop_tot fuel :
  forall ds ss b, 23 + 30 * b <= fuel ->
    tot b (program_loop tokens fuel ds ss) (fun _ b' => b' = 0).
Proof.
  induction fuel as [|fuel IH]; intros ds ss b Hf; [lia|].
  pose proof (proj1 (declaration_grammar_tot fuel)).
  pose proof (statement_tot fuel).
  simpl. tot_tac.
Qed.

(** For every token vector the recursion budget [23 + 30 * size] is
    enough: [parse] returns a program or the null pointer. *)
Lemma parse_total n :
  exists r, parse tokens (23 + 30 * List.length tokens + n) = Some r.
Proof.
  destruct (program_loop_tot (23 + 30 * List.length tokens + n) [] [] (List.length tokens)
              ltac:(lia) 0 ltac:(unfold tokens_left; lia)) as (r & Hr & _).
  unfold parse, program. rewrite Hr. destruct r as [[p cur]|e]; eauto.
Qed.

End Tot.
(** ** The recursion budget does not change a result *)

Section Mono.
Variable tokens : list Token.

Lemma mono_refl {A} (m : P A) : mono m m.
Proof. intros cur r H. exact H. Qed.

Lemma mono_out_of_fuel {A} (m : P A) : mono out_of_fuel m.
Proof. intros cur r H. discriminate H. Qed.

Lemma mono_bind {A B} (m m' : P A) (k k' : A -> P B) :
  mono m m' -> (forall a, mono (k a) (k' a)) -> mono (bind m k) (bind m' k').
Proof.
  intros Hm Hk cur r H. unfold bind in *.
  destruct (m cur) as [[[a cur1]|e]|] eqn:Hmc; try discriminate.
  - rewrite (Hm _ _ Hmc). apply Hk, H.
  - rewrite (Hm _ _ Hmc). exact H.
Qed.

Ltac mono_tac :=
  repeat
    match goal with
    | |- mono ?m ?m => apply mono_refl
    | |- mono out_of_fuel _ => apply mono_out_of_fuel
    | |- mono (bind _ _) (bind _ _) => apply mono_bind; [|intros ?]
    | |- mono (if ?c then _ else _) (if ?c then _ else _) => destruct c
    | |- mono (match ?x with _ => _ end) (match ?x with _ => _ end) => destruct x
    | H : mono ?a ?b |- mono ?a ?b => exact H
    | H : forall x, mono (?f x) (?g x) |- mono (?f _) (?g _) => apply H
    | H : forall x y, mono (?f x y) (?g x y) |- mono (?f _ _) (?g _ _) => apply H
    end.

Ltac mono_intro :=
  match goal with
  | |- mono _ _ => idtac
  | |- forall _, _ => intro; mono_intro
  end.

Lemma expression_grammar_mono (fuel : nat) : forall fuel', fuel <= fuel' ->
  mono (expression tokens fuel) (expression tokens fuel') /\
  mono (logicalOr tokens fuel) (logicalOr tokens fuel') /\
  (forall e, mono (logicalOr_loop tokens fuel e) (logicalOr_loop tokens fuel' e)) /\
  mono (logicalAnd tokens fuel) (logicalAnd tokens fuel') /\
  (forall e, mono (logicalAnd_loop tokens fuel e) (logicalAnd_loop tokens fuel' e)) /\
  mono (equality tokens fuel) (equality tokens fuel') /\
  (forall e, mono (equality_loop tokens fuel e) (equality_loop tokens fuel' e)) /\
  mono (comparison tokens fuel) (comparison tokens fuel') /\
  (forall e, mono (comparison_loop tokens fuel e) (comparison_loop tokens fuel' e)) /\
  mono (term tokens fuel) (term tokens fuel') /\
  (forall e, mono (term_loop tokens fuel e) (term_loop tokens fuel' e)) /\
  mono (factor tokens fuel) (factor tokens fuel') /\
  (forall e, mono (factor_loop tokens fuel e) (factor_loop tokens fuel' e)) /\
  mono (power tokens fuel) (power tokens fuel') /\
  (forall e, mono (power_loop tokens fuel e) (power_loop tokens fuel' e)) /\
  mono (unary tokens fuel) (unary tokens fuel') /\
  mono (primary tokens fuel) (primary tokens fuel') /\
  (forall es, mono (expression_list tokens fuel es) (expression_list tokens fuel' es)) /\
  mono (listExpression tokens fuel) (listExpression tokens fuel') /\
  mono (dictExpression tokens fuel) (dictExpression tokens fuel') /\
  (forall ps, mono (dictExpression_loop tokens fuel ps) (dictExpression_loop tokens fuel' ps)).
Proof.
  induction fuel as [|fuel IH]; intros fuel' Hle.
  - repeat conj_split; mono_intro; simpl; apply mono_out_of_fuel.
  - destruct fuel' as [|fuel']; [lia|].
    destruct (IH fuel' ltac:(lia))
      as (H1&H2&H3&H4&H5&H6&H7&H8&H9&H10&H11&H12&H13&H14&H15&H16&H17&H18&H19&H20&H21).
    repeat conj_split; mono_intro; simpl; mono_tac.
Qed.

Lemma expression_mono fuel fuel' :
  fuel <= fuel' -> mono (expression tokens fuel) (expression tokens fuel').
Proof. intros H. apply (expression_grammar_mono fuel fuel' H). Qed.

Lemma statement_grammar_mono (fuel : nat) : forall fuel', fuel <= fuel' ->
  mono (statement tokens fuel) (statement tokens fuel') /\
  mono (ifStatement tokens fuel) (ifStatement tokens fuel') /\
  (forall bs, mono (ifStatement_elif tokens fuel bs) (ifStatement_elif tokens fuel' bs)) /\
  mono (whileStatement tokens fuel) (whileStatement tokens fuel') /\
  mono (forStatement tokens fuel) (forStatement tokens fuel') /\
  mono (matchStatement tokens fuel) (matchStatement tokens fuel') /\
  (forall cs, mono (matchStatement_loop tokens fuel cs) (matchStatement_loop tokens fuel' cs)) /\
  mono (block tokens fuel) (block tokens fuel') /\
  (forall ss, mono (block_loop tokens fuel ss) (block_loop tokens fuel' ss)).
Proof.
  induction fuel as [|fuel IH]; intros fuel' Hle.
  - repeat conj_split; mono_intro; simpl; apply mono_out_of_fuel.
  - destruct fuel' as [|fuel']; [lia|].
    destruct (IH fuel' ltac:(lia)) as (H1&H2&H3&H4&H5&H6&H7&H8&H9).
    pose proof (expression_mono fuel fuel' ltac:(lia)).
    repeat conj_split; mono_intro; simpl;
      unfold returnStatement, assignmentStatement, expressionStatement; mono_tac.
Qed.

Lemma block_mono fuel fuel' :
  fuel <= fuel' -> mono (block tokens fuel) (block tokens fuel').
Proof. intros H. apply (statement_grammar_mono fuel fuel' H). Qed.

Lemma statement_mono fuel fuel' :
  fuel <= fuel' -> mono (statement tokens fuel) (statement tokens fuel').
Proof. intros H. apply (statement_grammar_mono fuel fuel' H). Qed.

Lemma functionDeclaration_parameters_mono fuel : forall fuel' ps, fuel <= fuel' ->
  mono (functionDeclaration_parameters tokens fuel ps)
       (functionDeclaration_parameters tokens fuel' ps).
Proof.
  induction fuel as [|fuel IH]; intros fuel' ps Hle.
  - apply mono_out_of_fuel.
  - destruct fuel' as [|fuel']; [lia|]. simpl. mono_tac. apply IH. lia.
Qed.

Lemma functionDeclaration_mono fuel fuel' : fuel <= fuel' ->
  mono (functionDeclaration tokens fuel) (functionDeclaration tokens fuel').
Proof.
  intros Hle. pose proof (block_mono fuel fuel' Hle).
  pose proof (fun ps => functionDeclaration_parameters_mono fuel fuel' ps Hle).
  unfold functionDeclaration. mono_tac.
Qed.

Lemma declaration_grammar_mono (fuel : nat) : forall fuel', fuel <= fuel' ->
  mono (declaration tokens fuel) (declaration tokens fuel') /\
  mono (classDeclaration tokens fuel) (classDeclaration tokens fuel') /\
  (forall ms, mono (classDeclaration_loop tokens fuel ms) (classDeclaration_loop tokens fuel' ms)).
Proof.
  induction fuel as [|fuel IH]; intros fuel' Hle.
  - repeat conj_split; mono_intro; simpl; apply mono_out_of_fuel.
  - destruct fuel' as [|fuel']; [lia|].
    destruct (IH fuel' ltac:(lia)) as (H1&H2&H3).
    pose proof (functionDeclaration_mono fuel fuel' ltac:(lia)).
    repeat conj_split; mono_intro; simpl; mono_tac.
Qed.

Lemma program_loop_mono fuel : forall fuel' ds ss, fuel <= fuel' ->
  mono (program_loop tokens fuel ds ss) (program_loop tokens fuel' ds ss).
Proof.
  induction fuel as [|fuel IH]; intros fuel' ds ss Hle.
  - apply mono_out_of_fuel.
  - destruct fuel' as [|fuel']; [lia|].
    pose proof (proj1 (declaration_grammar_mono fuel fuel' ltac:(lia))).
    pose proof (statement_mono fuel fuel' ltac:(lia)).
    simpl. mono_tac; apply IH; lia.
Qed.

Lemma parse_mono fuel fuel' r :
  fuel <= fuel' -> parse tokens fuel = Some r -> parse tokens fuel' = Some r.
Proof.
  intros Hle. unfold parse, program.
  destruct (program_loop tokens fuel [] [] 0) as [res|] eqn:H; [|discriminate].
  rewrite (program_loop_mono fuel fuel' [] [] Hle _ _ H). tauto.
Qed.

End Mono.

(** ** Results *)

Lemma keeps_trivially tokens current :
  (fun _ : nat => True) current -> isAtEnd tokens current = false ->
  type (peek tokens current) <> EOF_TOKEN -> (fun _ : nat => True) (current + 1).
Proof. auto. Qed.

Lemma keeps_in_range tokens current :
  current <= List.length tokens -> isAtEnd tokens current = false ->
  type (peek tokens current) <> EOF_TOKEN -> current + 1 <= List.length tokens.
Proof.
  intros _ He _. assert (~ List.length tokens <= current); [|lia].
  intros Hc. apply isAtEnd_spec in Hc. congruence.
Qed.

(** A result obtained with any budget satisfies what was shown of the
    results obtained with a sufficient one. *)
Lemma post_of_any_budget tokens {A} (f : nat -> P A) (w : nat)
      (post : nat -> A -> nat -> Prop) :
  (forall fuel fuel', fuel <= fuel' -> mono (f fuel) (f fuel')) ->
  (forall fuel b, w + 30 * b <= fuel -> tot tokens b (f fuel) (post b)) ->
  forall fuel current a current',
    f fuel current = Some (Ok (a, current')) ->
    post (tokens_left tokens current) a (tokens_left tokens current').
Proof.
  intros Hmono Htot fuel cur a cur' H.
  set (fuel' := fuel + (w + 30 * tokens_left tokens cur)).
  apply (Hmono fuel fuel' ltac:(lia)) in H.
  destruct (Htot fuel' (tokens_left tokens cur) ltac:(lia) cur eq_refl) as (r & Hr & Hpost).
  rewrite H in Hr. injection Hr as <-. apply (Hpost a cur' eq_refl).
Qed.

Lemma tokens_left_lt tokens current current' :
  tokens_left tokens current' < tokens_left tokens current ->
  current < current' /\ current < List.length tokens.
Proof. unfold tokens_left. lia. Qed.

Lemma expression_progress tokens fuel current e current' :
  expression tokens fuel current = Some (Ok (e, current')) ->
  current < current' <= List.length tokens.
Proof.
  intros H.
  pose proof (post_of_any_budget tokens (expression tokens) 17 (fun b _ b' => b' < b)
                (expression_mono tokens) (fun fuel => expression_tot tokens fuel)
                fuel current e current' H) as Hp.
  apply tokens_left_lt in Hp as [Hlt Hin].
  destruct (expression_keeps tokens (fun c => c <= List.length tokens) (keeps_in_range tokens)
              fuel current e current' ltac:(cbv beta; lia) H) as [Hr _]. cbv beta in Hr. lia.
Qed.

Lemma statement_progress tokens fuel current s current' :
  statement tokens fuel current = Some (Ok (s, current')) ->
  current < current' <= List.length tokens.
Proof.
  intros H.
  pose proof (post_of_any_budget tokens (statement tokens) 20 (fun b _ b' => b' < b)
                (statement_mono tokens) (fun fuel => statement_tot tokens fuel)
                fuel current s current' H) as Hp.
  apply tokens_left_lt in Hp as [Hlt Hin].
  destruct (statement_keeps tokens (fun c => c <= List.length tokens) (keeps_in_range tokens)
              fuel current s current' ltac:(cbv beta; lia) H) as [Hr _]. cbv beta in Hr. lia.
Qed.

Lemma block_loop_result tokens fuel : forall ss current ss' current',
  block_loop tokens fuel ss current = Some (Ok (ss', current')) ->
  exists more, ss' = (ss ++ more)%list /\
    current + List.length more <= current' /\
    (current' <= List.length tokens \/ current' = current) /\
    (isAtEnd tokens current' = true \/ type (peek tokens current') = DEDENT).
Proof.
  induction fuel as [|fuel IH]; intros ss cur ss' cur' H; [discriminate|].
  simpl in H. unfold bind at 1 in H. unfold isAtEnd_ at 1 in H.
  unfold bind at 1 in H. unfold check at 1 in H.
  destruct (isAtEnd tokens cur) eqn:He.
  - simpl in H. injection H as <- <-. exists []. rewrite app_nil_r. simpl.
    repeat split; auto; lia.
  - simpl in H. unfold TokenType_eqb in H.
    destruct (bool_decide (type (peek tokens cur) = DEDENT)) eqn:Hd; simpl in H.
    + apply bool_decide_eq_true in Hd. injection H as <- <-. exists [].
      rewrite app_nil_r. simpl. repeat split; auto; lia.
    + unfold bind at 1 in H.
      destruct (statement tokens fuel cur) as [[[s cur1]|e]|] eqn:Hs; try discriminate.
      apply statement_progress in Hs.
      destruct (IH _ _ _ _ H) as (more & -> & Hlen & Hr & Hstop).
      exists (s :: more). rewrite <- app_assoc. simpl.
      repeat split; auto; lia.
Qed.

Lemma match_miss tokens ty current :
  isAtEnd tokens current = false ->
  TokenType_eqb (type (tokens_at tokens current)) ty = false ->
  match_ tokens ty current = Some (Ok (false, current)).
Proof.
  intros He Hty. unfold match_, bind, check, peek. rewrite He, Hty. reflexivity.
Qed.

Lemma parser_bind_throw {A B} (m : P A) (k : A -> P B) current e :
  m current = Some (Throw e) -> bind m k current = Some (Throw e).
Proof. intros H. unfold bind. rewrite H. reflexivity. Qed.

Lemma parser_bind_ok {A B} (m : P A) (k : A -> P B) current a current' :
  m current = Some (Ok (a, current')) -> bind m k current = k a current'.
Proof. intros H. unfold bind. rewrite H. reflexivity. Qed.

Lemma expressionStatement_rejects tokens current n :
  isAtEnd tokens current = false ->
  starts_no_statement (type (tokens_at tokens current)) = true ->
  expressionStatement tokens (10 + n) current
  = Some (Throw (Parse_error (line (tokens_at tokens current))
                             (column (tokens_at tokens current)) "Expect expression.")).
Proof.
  intros He Hs.
  assert (Hm : forall ty, starts_no_statement ty = false ->
             match_ tokens ty current = Some (Ok (false, current))).
  { intros ty Hty. apply match_miss; [exact He|]. unfold TokenType_eqb.
    apply bool_decide_eq_false. intros E. rewrite E in Hs. congruence. }
  assert (Hp : primary tokens (S n) current
               = Some (Throw (Parse_error (line (tokens_at tokens current))
                                          (column (tokens_at tokens current))
                                          "Expect expression."))).
  { simpl.
    repeat (erewrite parser_bind_ok by (apply Hm; reflexivity); cbv beta iota).
    repeat (erewrite parser_bind_ok by reflexivity; cbv beta iota).
    repeat (erewrite parser_bind_ok by (apply Hm; reflexivity); cbv beta iota).
    repeat (erewrite parser_bind_ok by reflexivity; cbv beta iota).
    repeat (erewrite parser_bind_ok by (apply Hm; reflexivity); cbv beta iota).
    repeat (erewrite parser_bind_ok by reflexivity; cbv beta iota).
    repeat (erewrite parser_bind_ok by (apply Hm; reflexivity); cbv beta iota).
    unfold bind, peek_, error, peek. rewrite He. reflexivity. }
  assert (Hu : unary tokens (S (S n)) current = primary tokens (S n) current).
  { change (unary tokens (S (S n))) with
      (m <- match_any tokens [MINUS; lexer.NOT] ;;
       if (m : bool) then
         operator_token <- previous tokens ;;
         operand <- unary tokens (S n) ;;
         ret (UnaryExpression (unary_op (type operator_token)) operand)
       else primary tokens (S n)).
    assert (Hany : match_any tokens [MINUS; lexer.NOT] current = Some (Ok (false, current))).
    { simpl. unfold bind. rewrite !Hm by reflexivity. reflexivity. }
    rewrite (parser_bind_ok _ _ _ _ _ Hany). reflexivity. }
  unfold expressionStatement. apply parser_bind_throw.
  change (expression tokens (10 + n)) with (logicalOr tokens (9 + n)).
  change (logicalOr tokens (9 + n) current) with
    ((expr <- logicalAnd tokens (8 + n) ;; logicalOr_loop tokens (8 + n) expr) current).
  apply parser_bind_throw.
  change (logicalAnd tokens (8 + n) current) with
    ((expr <- equality tokens (7 + n) ;; logicalAnd_loop tokens (7 + n) expr) current).
  apply parser_bind_throw.
  change (equality tokens (7 + n) current) with
    ((expr <- comparison tokens (6 + n) ;; equality_loop tokens (6 + n) expr) current).
  apply parser_bind_throw.
  change (comparison tokens (6 + n) current) with
    ((expr <- term tokens (5 + n) ;; comparison_loop tokens (5 + n) expr) current).
  apply parser_bind_throw.
  change (term tokens (5 + n) current) with
    ((expr <- factor tokens (4 + n) ;; term_loop tokens (4 + n) expr) current).
  apply parser_bind_throw.
  change (factor tokens (4 + n) current) with
    ((expr <- power tokens (3 + n) ;; factor_loop tokens (3 + n) expr) current).
  apply parser_bind_throw.
  change (power tokens (3 + n) current) with
    ((expr <- unary tokens (2 + n) ;; power_loop tokens (2 + n) expr) current).
  apply parser_bind_throw.
  change (2 + n) with (S (S n)). rewrite Hu. exact Hp.
Qed.

Lemma statement_rejects tokens current n :
  isAtEnd tokens current = false ->
  starts_no_statement (type (tokens_at tokens current)) = true ->
  statement tokens (11 + n) current
  = Some (Throw (Parse_error (line (tokens_at tokens current))
                             (column (tokens_at tokens current)) "Expect expression.")).
Proof.
  intros He Hs.
  assert (Hm : forall ty, starts_no_statement ty = false ->
             match_ tokens ty current = Some (Ok (false, current))).
  { intros ty Hty. apply match_miss; [exact He|]. unfold TokenType_eqb.
    apply bool_decide_eq_false. intros E. rewrite E in Hs. congruence. }
  pose proof (expressionStatement_rejects tokens current n He Hs) as Hx.
  change (11 + n) with (S (10 + n)). generalize dependent (10 + n). intros m Hx.
  simpl statement.
  repeat (erewrite parser_bind_ok by (apply Hm; reflexivity); cbv beta iota).
  erewrite parser_bind_ok by reflexivity. cbv beta.
  assert (Hid : TokenType_eqb (type (peek tokens current)) IDENTIFIER = false).
  { unfold peek. rewrite He. unfold TokenType_eqb. apply bool_decide_eq_false.
    intros E. rewrite E in Hs. discriminate Hs. }
  rewrite Hid. cbv beta iota. simpl andb. cbv iota.
  exact Hx.
Qed.

Lemma parse_no_program_with_eof tokens i fuel p :
  i < List.length tokens -> type (tokens_at tokens i) = EOF_TOKEN ->
  parse tokens fuel <> Some (Some p).
Proof.
  intros Hi Heof Hr. unfold parse, program in Hr.
  destruct (program_loop tokens fuel [] [] 0) as [[[p' cur']|e]|] eqn:Hrun; try discriminate.
  destruct (program_loop_keeps tokens (no_eof_before tokens) (no_eof_before_step tokens)
              fuel [] [] 0 p' cur' ltac:(intros j Hj; exfalso; lia) Hrun) as [HI Hend].
  apply isAtEnd_spec in Hend. apply (HI i); [lia|exact Hi|exact Heof].
Qed.

Lemma parse_rejects_eof tokens i n :
  i < List.length tokens -> type (tokens_at tokens i) = EOF_TOKEN ->
  parse tokens (23 + 30 * List.length tokens + n) = Some None.
Proof.
  intros Hi Heof. destruct (parse_total tokens n) as (r & Hr). rewrite Hr.
  destruct r as [p|]; [|reflexivity]. exfalso.
  exact (parse_no_program_with_eof tokens i _ p Hi Heof Hr).
Qed.



(** X8: [Parser::parse] terminates on every token vector: a recursion
    budget of [23 + 30 * size] is enough, and with any larger budget the
    result (a program or the null pointer) is the same. *)
Theorem parse_terminates (tokens : list Token) :
  exists r, forall n, parse tokens (23 + 30 * List.length tokens + n) = Some r.
Proof.
  destruct (parse_total tokens 0) as (r & Hr). exists r. intros n.
  apply (parse_mono tokens (23 + 30 * List.length tokens + 0)); [lia|exact Hr].
Qed.

(** X9: a token vector that contains an EOF token anywhere is rejected:
    [parse] returns the null pointer.  The parser ends its loops on the
    size of the vector, never on the EOF token, and no grammar rule
    accepts that token. *)
Theorem parse_rejects_vector_with_eof (tokens : list Token) (i n : nat) :
  i < List.length tokens -> type (tokens_at tokens i) = EOF_TOKEN ->
  parse tokens (23 + 30 * List.length tokens + n) = Some None.
Proof. apply parse_rejects_eof. Qed.

Lemma parse_rejects_vector_with_eof_witness :
  parse (tokens_of "x = 1") (23 + 30 * List.length (tokens_of "x = 1") + 0) = Some None.
Proof.
  apply (parse_rejects_vector_with_eof (tokens_of "x = 1") 3 0).
  - vm_compute. lia.
  - vm_compute. reflexivity.
Defined.

(** X10: a tree returned by [Parser::expression] holds no call,
    attribute, subscript or tuple node, whatever the tokens: [call],
    [finishCall] and [tupleExpression] are unreachable from it. *)
Theorem expression_builds_no_postfix_node
        (tokens : list Token) (fuel current : nat) (e : Expression) (current' : nat) :
  expression tokens fuel current = Some (Ok (e, current')) -> no_postfix e = true.
Proof.
  intros H.
  apply (expression_keeps tokens (fun _ => True) (keeps_trivially tokens)
           fuel current e current' Logic.I H).
Qed.

Lemma expression_builds_no_postfix_node_witness :
  no_postfix (IdentifierExpression "f") = true.
Proof.
  apply (expression_builds_no_postfix_node (tokens_of "f(4)") 20 0 _ 1).
  vm_compute. reflexivity.
Defined.

(** X11: an expression or a statement that is parsed without error has
    consumed at least one token, and the cursor stays inside the vector. *)
Theorem parsed_node_consumes_a_token (tokens : list Token) (fuel current current' : nat) :
  (exists e, expression tokens fuel current = Some (Ok (e, current'))) \/
  (exists s, statement tokens fuel current = Some (Ok (s, current'))) ->
  current < current' <= List.length tokens.
Proof.
  intros [[e H]|[s H]].
  - exact (expression_progress tokens fuel current e current' H).
  - exact (statement_progress tokens fuel current s current' H).
Qed.

Lemma parsed_node_consumes_a_token_witness :
  0 < 3 <= List.length (tokens_of "x = 1").
Proof.
  apply (parsed_node_consumes_a_token (tokens_of "x = 1") 20 0 3).
  right. eexists. vm_compute. reflexivity.
Defined.

(** X12: [Parser::block] returns only at the end of the vector or in
    front of a DEDENT token, which it leaves unconsumed, and each
    statement of the result accounts for at least one consumed token. *)
Theorem block_stops_at_dedent_or_end
        (tokens : list Token) (fuel current : nat) (stmts : list Statement) (current' : nat) :
  block tokens fuel current = Some (Ok (stmts, current')) ->
  (isAtEnd tokens current' = true \/ type (peek tokens current') = DEDENT) /\
  current + List.length stmts <= current'.
Proof.
  intros H. destruct fuel as [|fuel]; [discriminate|]. simpl in H.
  destruct (block_loop_result tokens fuel [] current stmts current' H)
    as (more & -> & Hlen & _ & Hstop).
  split; [exact Hstop|]. simpl. exact Hlen.
Qed.

Lemma block_stops_at_dedent_or_end_witness :
  (isAtEnd (firstn 3 (tokens_of "x = 1")) 3 = true \/
   type (peek (firstn 3 (tokens_of "x = 1")) 3) = DEDENT) /\
  0 + List.length [AssignmentStatement "x" (LiteralExpression (v_int64 1))] <= 3.
Proof.
  apply (block_stops_at_dedent_or_end (firstn 3 (tokens_of "x = 1")) 20 0).
  vm_compute. reflexivity.
Defined.

(** X13: at a token with which no statement or expression begins (EOF,
    INDENT, NEWLINE, a colon, an operator other than minus, ...),
    [statement] throws "Expect expression." at that token, and so does
    [block] unless the token is a DEDENT. *)
Theorem statement_rejects_token_that_starts_none
        (tokens : list Token) (current n : nat) :
  isAtEnd tokens current = false ->
  starts_no_statement (type (tokens_at tokens current)) = true ->
  let e := Parse_error (line (tokens_at tokens current))
                       (column (tokens_at tokens current)) "Expect expression." in
  statement tokens (11 + n) current = Some (Throw e) /\
  (type (tokens_at tokens current) <> DEDENT ->
   block tokens (13 + n) current = Some (Throw e)).
Proof.
  intros He Hs e. pose proof (statement_rejects tokens current n He Hs) as Hx.
  split; [exact Hx|].
  intros Hd. change (13 + n) with (S (S (11 + n))).
  generalize dependent (11 + n). intros m Hx.
  assert (Hb : TokenType_eqb (type (tokens_at tokens current)) DEDENT = false).
  { unfold TokenType_eqb. apply bool_decide_eq_false. exact Hd. }
  simpl. unfold bind at 1. unfold isAtEnd_ at 1. rewrite He.
  unfold bind at 1. unfold check at 1. rewrite He. unfold peek. rewrite He, Hb. simpl.
  apply parser_bind_throw. exact Hx.
Qed.

Lemma statement_rejects_token_that_starts_none_witness :
  let tokens := tokens_of Examples.end_to_end_source in
  statement tokens (11 + 0) 6 = Some (Throw (Parse_error 2 0 "Expect expression.")) /\
  (type (tokens_at tokens 6) <> DEDENT ->
   block tokens (13 + 0) 6 = Some (Throw (Parse_error 2 0 "Expect expression."))).
Proof.
  apply (statement_rejects_token_that_starts_none
           (tokens_of Examples.end_to_end_source) 6 0); vm_compute; reflexivity.
Defined.


Section DriverFacts.
Variable stod_erange : string -> bool.

(** X15: the driver never reports a successful parse.  Whatever the
    source, [main] returns 1: a lexical error is caught by its handler,
    and a token sequence returned by the tokenizer ends with the EOF
    token, which the parser rejects. *)
Theorem driver_always_exits_with_failure (source : string) :
  exists fuel, forall n, Driver.main stod_erange source (fuel + n) = Some 1%Z.
Proof.
  unfold Driver.main, Tokenizer.tokenize, Tokenizer.tokenize_from.
  destruct (TokenizerFacts.tokenize_loop_spec stod_erange
              (S (Tokenizer.remaining (Tokenizer.Tokenizer_new source)))
              (Tokenizer.Tokenizer_new source) [] ltac:(lia) ltac:(constructor))
    as (r & Hr & Hspec).
  rewrite Hr. destruct r as [[tokens t']|e].
  - destruct Hspec as (front & eof & -> & Heof & _).
    exists (23 + 30 * List.length (front ++ [eof])%list). intros n.
    rewrite (parse_rejects_eof (front ++ [eof])%list (List.length front) n).
    + reflexivity.
    + rewrite List.length_app. simpl. lia.
    + unfold tokens_at. rewrite List.app_nth2 by lia. rewrite Nat.sub_diag. exact Heof.
  - exists 0. intros n. reflexivity.
Qed.

End DriverFacts.

End ParserMore.

(** ** Further properties of the code generator *)

Module CompilerMore.
Import lexer parser llvm Compiler CompilerProps CompilerInvariants CompilerFacts.

Lemma appended_refl c : appended c c.
Proof.
  unfold appended. repeat split; try reflexivity.
  exists []. rewrite app_nil_r. split; [reflexivity|constructor].
Qed.

Lemma appended_trans c1 c2 c3 : appended c1 c2 -> appended c2 c3 -> appended c1 c3.
Proof.
  unfold appended.
  intros (B1&I1&CF1&CB1&n1&E1&A1) (B2&I2&CF2&CB2&n2&E2&A2).
  repeat split; try congruence.
  exists (n1 ++ n2)%list. split.
  - rewrite E2, E1, <- app_assoc. reflexivity.
  - apply Forall_app. split; [exact A1|]. rewrite I1 in A2. exact A2.
Qed.

Lemma lowered_appended c c' : lowered c c' -> appended c c'.
Proof.
  intros (_&B&I&CF&CB&_&new&E&A). unfold appended. repeat split; try assumption.
  exists new. split; [exact E|]. eapply List.Forall_impl; [|exact A]. intros e [He _]. exact He.
Qed.

Lemma emit_appended i c : exists v c', emit i c = Ok (v, c') /\ appended c c' /\
  variables c' = variables c /\ emitted c' = (emitted c ++ [(insert_point c, i)])%list.
Proof.
  unfold emit. do 2 eexists. split; [reflexivity|]. split; [|split; reflexivity].
  unfold appended; simpl. repeat split; try reflexivity.
  exists [(insert_point c, i)]. split; [reflexivity|]. constructor; [reflexivity|constructor].
Qed.

Lemma variables_set_appended name slot c :
  exists c', variables_set name slot c = Ok (tt, c') /\ appended c c'.
Proof.
  unfold variables_set. eexists. split; [reflexivity|].
  unfold appended; simpl. repeat split; try reflexivity.
  exists []. rewrite app_nil_r. split; [reflexivity|constructor].
Qed.

Ltac step_emit i c :=
  let v := fresh "v" in let c' := fresh "c" in
  let H := fresh "He" in let A := fresh "A" in
  destruct (emit_appended i c) as (v & c' & H & A & _);
  rewrite (bind_Ok _ _ _ _ _ H).

(** A statement never throws, and what it emits goes to the insertion
    point, which it leaves where it is. *)
Lemma compileStatement_appended stmt c :
  exists c', compileStatement stmt c = Ok (tt, c') /\ appended c c'.
Proof.
  destruct stmt as [name value|expression|[value|]| | | | ]; simpl;
    try (exists c; split; [reflexivity|apply appended_refl]).
  - unfold compileAssignmentStatement.
    destruct (compileExpression_lowers value c) as (v & c1 & H1 & L1).
    apply lowered_appended in L1.
    rewrite (bind_Ok _ _ _ _ _ H1).
    destruct v as [v|]; [|exists c1; split; [reflexivity|exact L1]].
    unfold variables_find. unfold bind at 1.
    destruct (variables c1 !! name) as [slot|].
    + step_emit (Store v slot) c1. eexists. split; [reflexivity|].
      eapply appended_trans; eauto.
    + step_emit (Alloca (getType v) name) c1.
      step_emit (Store v v0) c0.
      destruct (variables_set_appended name v0 c2) as (c3 & H3 & A3).
      exists c3. split; [exact H3|].
      eapply appended_trans; [exact L1|]. eapply appended_trans; [exact A|].
      eapply appended_trans; eauto.
  - unfold compileExpressionStatement.
    destruct (compileExpression_lowers expression c) as (v & c1 & H1 & L1).
    rewrite (bind_Ok _ _ _ _ _ H1). exists c1. split; [reflexivity|].
    apply lowered_appended, L1.
  - unfold compileReturnStatement.
    destruct (compileExpression_lowers value c) as (v & c1 & H1 & L1).
    rewrite (bind_Ok _ _ _ _ _ H1).
    step_emit (Ret v) c1. eexists. split; [reflexivity|].
    eapply appended_trans; [apply lowered_appended; exact L1|exact A].
  - step_emit RetVoid c. eexists. split; [reflexivity|exact A].
Qed.

Lemma compileStatements_appended stmts : forall c,
  exists c', compileStatements stmts c = Ok (tt, c') /\ appended c c'.
Proof.
  induction stmts as [|stmt stmts IH]; intros c; simpl.
  - exists c. split; [reflexivity|apply appended_refl].
  - destruct (compileStatement_appended stmt c) as (c1 & H1 & A1).
    rewrite (bind_Ok _ _ _ _ _ H1).
    destruct (IH c1) as (c2 & H2 & A2).
    exists c2. split; [exact H2|]. eapply appended_trans; eauto.
Qed.

Lemma appended_fields c c' :
  appended c c' ->
  insert_point c' = insert_point c /\ currentBlock c' = currentBlock c /\
  blocks c' = blocks c.
Proof. intros (B&I&_&CB&_). auto. Qed.

Lemma store_parameters_appended (parameters : list string) :
  forall function paramIndex c,
  exists c', store_parameters function paramIndex parameters c = Ok (tt, c') /\
    appended c c'.
Proof.
  induction parameters as [|p parameters IH]; intros function paramIndex c; simpl.
  - exists c. split; [reflexivity|apply appended_refl].
  - step_emit (Alloca Int64Ty p) c.
    step_emit (Store (Argument function paramIndex Int64Ty) v) c0.
    destruct (variables_set_appended p v c1) as (c2 & H2 & A2).
    rewrite (bind_Ok _ _ _ _ _ H2).
    destruct (IH function (paramIndex + 1) c2) as (c3 & H3 & A3).
    exists c3. split; [exact H3|].
    eapply appended_trans; [exact A|]. eapply appended_trans; [exact A0|].
    eapply appended_trans; eauto.
Qed.

(** The prologue of a function declaration: a new function, a new block
    behind the existing ones, the insertion point moved to that block, and
    the parameter slots created there. *)
Lemma function_prologue_block name parameters c :
  exists c1,
    function_prologue name parameters c = Ok (List.length (blocks c), c1) /\
    blocks c1 = (blocks c ++ [mkBasicBlock "entry" (List.length (functions c))])%list /\
    insert_point c1 = Some (List.length (blocks c)) /\
    currentBlock c1 = currentBlock c /\
    exists new, emitted c1 = (emitted c ++ new)%list /\
      Forall (fun e => fst e = Some (List.length (blocks c))) new.
Proof.
  unfold function_prologue. do 3 bind_step.
  match goal with |- context [bind (store_parameters ?f ?i parameters) _ ?c0] =>
    destruct (store_parameters_appended parameters f i c0) as (c1 & H & (B&I&_&CB&new&E&A))
  end.
  exists c1. rewrite (bind_Ok _ _ _ _ _ H). split; [reflexivity|].
  simpl in B, I, CB, E, A. repeat split; try assumption.
  exists new. split; assumption.
Qed.

Lemma block_instructions_app c c' new block :
  emitted c' = (emitted c ++ new)%list ->
  block_instructions c' block
  = (block_instructions c block ++
     List.map snd (List.filter (fun e => match fst e with
                                         | Some b => b =? block
                                         | None => false
                                         end) new))%list.
Proof.
  intros E. unfold block_instructions. rewrite E, List.filter_app, List.map_app. reflexivity.
Qed.

Lemma block_instructions_other c c' new block other :
  emitted c' = (emitted c ++ new)%list ->
  Forall (fun e => fst e = Some other) new -> other <> block ->
  block_instructions c' block = block_instructions c block.
Proof.
  intros E A Hne. rewrite (block_instructions_app c c' new block E).
  assert (H0 : List.filter (fun e => match fst e with
                                     | Some b => b =? block
                                     | None => false
                                     end) new = []).
  { clear E. induction A as [|e l He _ IH]; [reflexivity|]. simpl. rewrite He.
    destruct (Nat.eqb_spec other block); [contradiction|exact IH]. }
  rewrite H0. simpl. apply app_nil_r.
Qed.

Lemma getTerminator_after_emit c i block :
  insert_point c = Some block -> isTerminator i = true ->
  forall v c', emit i c = Ok (v, c') -> getTerminator c' block = Some i.
Proof.
  intros Hip Hi v c' H. unfold emit in H. injection H as _ <-.
  unfold getTerminator, block_instructions. simpl.
  rewrite List.filter_app, List.map_app, List.rev_app_distr. simpl.
  rewrite Hip. simpl. rewrite Nat.eqb_refl. simpl. rewrite Hi. reflexivity.
Qed.

(** The whole of a function declaration. *)
Lemma compileFunctionDeclaration_block name parameters body c :
  exists c',
    compileFunctionDeclaration name parameters body c = Ok (tt, c') /\
    blocks c' = (blocks c ++ [mkBasicBlock "entry" (List.length (functions c))])%list /\
    insert_point c' = Some (List.length (blocks c)) /\
    currentBlock c' = currentBlock c /\
    (exists i, getTerminator c' (List.length (blocks c)) = Some i) /\
    exists new, emitted c' = (emitted c ++ new)%list /\
      Forall (fun e => fst e = Some (List.length (blocks c))) new.
Proof.
  unfold compileFunctionDeclaration.
  destruct (function_prologue_block name parameters c) as (c1 & H1 & B1 & I1 & CB1 & n1 & E1 & A1).
  rewrite (bind_Ok _ _ _ _ _ H1).
  destruct (compileStatements_appended body c1) as (c2 & H2 & (B2&I2&_&CB2&n2&E2&A2)).
  rewrite (bind_Ok _ _ _ _ _ H2).
  rewrite I1 in A2.
  assert (E12 : emitted c2 = (emitted c ++ (n1 ++ n2))%list).
  { rewrite E2, E1, <- app_assoc. reflexivity. }
  assert (A12 : Forall (fun e => fst e = Some (List.length (blocks c))) (n1 ++ n2)%list).
  { apply Forall_app. split; assumption. }
  unfold get. unfold bind at 1.
  destruct (getTerminator c2 (List.length (blocks c))) as [i|] eqn:Ht.
  - exists c2. split; [reflexivity|]. repeat split; try congruence.
    + eauto.
    + exists (n1 ++ n2)%list. split; assumption.
  - destruct (emit_appended (Ret (Some (getInt64 0))) c2) as (v & c3 & H3 & (B3&I3&_&CB3&_) & _ & E3).
    rewrite (bind_Ok _ _ _ _ _ H3). exists c3. split; [reflexivity|].
    repeat split; try congruence.
    + exists (Ret (Some (getInt64 0))).
      eapply getTerminator_after_emit; [|reflexivity|exact H3]. congruence.
    + exists ((n1 ++ n2) ++ [(insert_point c2, Ret (Some (getInt64 0)))])%list. split.
      * rewrite E3, E12, <- app_assoc. reflexivity.
      * apply Forall_app. split; [exact A12|]. constructor; [|constructor].
        simpl. congruence.
Qed.

(** X16: lowering an expression never throws.  It appends instructions
    that are not terminators at the insertion point (and string constants
    to the module) and changes nothing else: the functions, the blocks,
    the insertion point, the current function and block and the symbol
    table are as they were. *)
Theorem expression_lowering_frame (expr : Expression) (c : Compiler) :
  exists v c', compileExpression expr c = Ok (v, c') /\ lowered c c'.
Proof. apply compileExpression_lowers. Qed.

(** X17: an assignment whose value lowers to nothing does nothing more.
    Otherwise the first assignment to a name creates a stack slot of the
    type of the value, stores the value and binds the name to the slot; a
    later assignment stores into the slot the name has and leaves the
    table as it is; and in both cases an identifier expression for the
    name then loads a 64-bit integer from that slot. *)
Theorem assignment_binds_and_reads_back (name : string) (value : Expression) (c : Compiler) :
  exists v c1,
    compileExpression value c = Ok (v, c1) /\
    match v with
    | None => compileStatement (AssignmentStatement name value) c = Ok (tt, c1)
    | Some v =>
      exists c' slot,
        compileStatement (AssignmentStatement name value) c = Ok (tt, c') /\
        variables c' !! name = Some slot /\
        match variables c !! name with
        | Some old =>
          slot = old /\ variables c' = variables c /\
          emitted_since c1 c' = [(insert_point c, Store v old)]
        | None =>
          slot = InstValue (List.length (emitted c1)) PointerTy /\
          variables c' = <[name := slot]> (variables c) /\
          emitted_since c1 c'
          = [(insert_point c, Alloca (getType v) name); (insert_point c, Store v slot)]
        end /\
        compileExpression (IdentifierExpression name) c'
        = (x <- emit (Load Int64Ty slot) ;; ret (Some x)) c'
    end.
Proof.
  destruct (compileExpression_lowers value c) as (v & c1 & H1 & (_&_&I1&_&_&V1&_)).
  exists v, c1. split; [exact H1|].
  simpl. unfold compileAssignmentStatement. rewrite (bind_Ok _ _ _ _ _ H1).
  destruct v as [v|]; [|reflexivity].
  unfold variables_find. unfold bind at 1. rewrite V1.
  assert (Hskip : forall l (x : list (option nat * Instruction)),
            List.skipn (List.length l) (l ++ x)%list = x).
  { intros l x. rewrite List.skipn_app, List.skipn_all, Nat.sub_diag. reflexivity. }
  destruct (variables c !! name) as [old|] eqn:Hlook.
  - eexists _, old. split; [reflexivity|]. simpl. rewrite V1.
    split; [exact Hlook|]. split.
    + split; [reflexivity|]. split; [reflexivity|].
      unfold emitted_since. simpl. rewrite Hskip, I1. reflexivity.
    + unfold compileIdentifierExpression, variables_find. unfold bind at 1. simpl.
      rewrite ?V1, ?Hlook. reflexivity.
  - eexists _, (InstValue (List.length (emitted c1)) PointerTy).
    split; [reflexivity|]. simpl. rewrite V1.
    split; [apply lookup_insert_eq|]. split.
    + split; [reflexivity|]. split; [reflexivity|].
      unfold emitted_since. simpl. rewrite <- app_assoc, Hskip, I1. reflexivity.
    + unfold compileIdentifierExpression, variables_find. unfold bind at 1. simpl.
      rewrite ?V1, ?lookup_insert_eq. reflexivity.
Qed.

(** X18: [if], [while], [for] and [match] statements generate no code:
    lowering a statement list is lowering the list without them. *)
Theorem control_flow_statements_are_dropped (stmts : list Statement) (c : Compiler) :
  compileStatements stmts c
  = compileStatements (List.filter is_lowered_statement stmts) c.
Proof.
  revert c. induction stmts as [|stmt stmts IH]; intros c; [reflexivity|].
  destruct stmt; simpl; unfold bind;
    try (match goal with |- match ?m with _ => _ end = _ =>
           destruct m as [[[] c1]|e]; [apply IH|reflexivity] end);
    apply IH.
Qed.

(** X19: lowering a function declaration never throws.  It adds one
    block, the entry block of the new function, behind the existing ones;
    everything it emits goes to that block, which ends with a terminator
    afterwards; and it leaves the insertion point in that block, while the
    current block of the compiler is still the one it was. *)
Theorem function_declaration_keeps_the_builder
        (name : string) (parameters : list string) (body : list Statement)
        (is_async : bool) (c : Compiler) :
  exists c',
    compileDeclaration (FunctionDeclaration name parameters body is_async) c = Ok (tt, c') /\
    blocks c' = (blocks c ++ [mkBasicBlock "entry" (List.length (functions c))])%list /\
    insert_point c' = Some (List.length (blocks c)) /\
    currentBlock c' = currentBlock c /\
    (exists i, getTerminator c' (List.length (blocks c)) = Some i) /\
    exists new, emitted c' = (emitted c ++ new)%list /\
      Forall (fun e => fst e = Some (List.length (blocks c))) new.
Proof. apply compileFunctionDeclaration_block. Qed.

(** Declarations never throw and never emit into an existing block; once
    a function has been declared the insertion point is in a later block. *)
Lemma compileDeclarations_blocks (decls : list Declaration) : forall c,
  exists c',
    compileDeclarations decls c = Ok (tt, c') /\
    currentBlock c' = currentBlock c /\
    List.length (blocks c) <= List.length (blocks c') /\
    (forall block, block < List.length (blocks c) ->
       block_instructions c' block = block_instructions c block) /\
    if existsb is_function_declaration decls
    then exists b, insert_point c' = Some b /\ List.length (blocks c) <= b
    else insert_point c' = insert_point c.
Proof.
  induction decls as [|decl decls IH]; intros c.
  - exists c. simpl. repeat split; auto.
  - destruct decl as [name parameters body is_async|name base members|module alias].
    + destruct (compileFunctionDeclaration_block name parameters body c)
        as (c1 & H1 & B1 & I1 & CB1 & _ & new & E1 & A1).
      destruct (IH c1) as (c2 & H2 & CB2 & L2 & K2 & P2).
      assert (Hlen : List.length (blocks c1) = S (List.length (blocks c))).
      { rewrite B1, List.length_app. simpl. lia. }
      exists c2. simpl. rewrite (bind_Ok _ _ _ _ _ H1).
      split; [exact H2|]. split; [congruence|]. split; [lia|]. split.
      * intros block Hb. rewrite K2 by lia.
        apply (block_instructions_other c c1 new block (List.length (blocks c)) E1 A1). lia.
      * destruct (existsb is_function_declaration decls).
        -- destruct P2 as (b & Hb & Hle). exists b. split; [exact Hb|lia].
        -- exists (List.length (blocks c)). split; [congruence|lia].
    + destruct (IH c) as (c2 & H2 & CB2 & L2 & K2 & P2).
      exists c2. simpl. split; [exact H2|]. auto.
    + destruct (IH c) as (c2 & H2 & CB2 & L2 & K2 & P2).
      exists c2. simpl. split; [exact H2|]. auto.
Qed.

Lemma entry_state_run :
  (setupStandardLibrary ;;; createMainFunction) Compiler_new = Ok (tt, entry_state).
Proof. reflexivity. Qed.

(** The run of [compile] up to the verifier. *)
Lemma compile_try_run (program : Program) :
  exists c,
    (forall verifyModule,
       compile_try verifyModule (Some program) Compiler_new
       = if verifyModule c then Throw (Compile_error "Module verification failed")
         else Ok (true, c)) /\
    currentBlock c = Some main_block /\
    (existsb is_function_declaration (declarations program) = true ->
     block_instructions c main_block = [] /\
     exists b, insert_point c = Some b /\ b <> main_block).
Proof.
  destruct (compileDeclarations_blocks (declarations program) entry_state)
    as (c1 & H1 & CB1 & L1 & K1 & P1).
  destruct (compileStatements_appended (statements program) c1)
    as (c2 & H2 & (B2 & I2 & _ & CB2 & new & E2 & A2)).
  assert (Hcb : currentBlock c2 = Some main_block) by (rewrite CB2, CB1; reflexivity).
  assert (Hmain : existsb is_function_declaration (declarations program) = true ->
            block_instructions c2 main_block = [] /\
            exists b, insert_point c2 = Some b /\ b <> main_block).
  { intros Hf. rewrite Hf in P1. destruct P1 as (b & Hb & Hle).
    simpl in Hle. rewrite Hb in A2.
    split; [|exists b; split; [congruence|unfold main_block; lia]].
    rewrite (block_instructions_other c1 c2 new main_block b E2 A2)
      by (unfold main_block; lia).
    apply (K1 main_block). simpl. unfold main_block. lia. }
  assert (Hrun : forall (k : C bool),
            (setupStandardLibrary ;;; createMainFunction ;;;
             compileDeclarations (declarations program) ;;;
             compileStatements (statements program) ;;; k) Compiler_new = k c2).
  { intros k. unfold bind. simpl. fold entry_state.
    change (compileDeclarations (declarations program) _)
      with (compileDeclarations (declarations program) entry_state).
    rewrite H1, H2. reflexivity. }
  destruct (getTerminator c2 main_block) as [i|] eqn:Ht.
  - exists c2. split; [|split; [exact Hcb|exact Hmain]].
    intros verifyModule. unfold compile_try. rewrite Hrun.
    unfold get. unfold bind at 1. unfold bind at 1. rewrite Hcb, Ht.
    unfold bind, ret, throw. destruct (verifyModule c2); reflexivity.
  - destruct (emit_appended (Ret (Some (getInt32 0))) c2)
      as (v & c3 & H3 & (B3 & I3 & _ & CB3 & _) & _ & E3).
    exists c3. split; [|split; [congruence|]].
    + intros verifyModule. unfold compile_try. rewrite Hrun.
      unfold get. unfold bind at 1. unfold bind at 1. rewrite Hcb, Ht.
      rewrite (bind_Ok _ _ _ _ _ H3).
      unfold bind, ret, throw. destruct (verifyModule c3); reflexivity.
    + intros Hf. destruct (Hmain Hf) as (Hempty & b & Hb & Hne).
      split; [|exists b; split; [congruence|exact Hne]].
      rewrite (block_instructions_other c2 c3 _ main_block b E3); [exact Hempty| |exact Hne].
      constructor; [simpl; exact Hb|constructor].
Qed.

(** X20: code generation itself never fails.  [compile] returns false
    only for the null program or when the module verifier rejects the
    module: for a program, the state handed to the verifier is the same
    whatever the verifier is, and the result is the negation of its
    verdict. *)
Theorem compile_fails_only_in_the_verifier (program : Program) :
  exists c,
    forall verifyModule,
      compile verifyModule None Compiler_new = false /\
      compile verifyModule (Some program) Compiler_new = negb (verifyModule c).
Proof.
  destruct (compile_try_run program) as (c & Hrun & _).
  exists c. intros verifyModule. split; [reflexivity|].
  unfold compile. rewrite Hrun. destruct (verifyModule c); reflexivity.
Qed.

(** X21: when the program declares a function, nothing is ever emitted
    into the entry block of [main].  Lowering the declaration leaves the
    insertion point in the function's block, so the top-level statements
    and the closing return of [main] go to that block, and the module
    handed to the verifier has an empty, unterminated [main]. *)
Theorem main_is_left_empty_after_a_function (program : Program) :
  existsb is_function_declaration (declarations program) = true ->
  exists c,
    (forall verifyModule,
       compile_try verifyModule (Some program) Compiler_new
       = if verifyModule c then Throw (Compile_error "Module verification failed")
         else Ok (true, c)) /\
    currentBlock c = Some main_block /\
    block_instructions c main_block = [] /\
    getTerminator c main_block = None /\
    exists b, insert_point c = Some b /\ b <> main_block.
Proof.
  intros Hf. destruct (compile_try_run program) as (c & Hrun & Hcb & Hmain).
  destruct (Hmain Hf) as (Hempty & Hb).
  exists c. repeat split; try assumption.
  unfold getTerminator. rewrite Hempty. reflexivity.
Qed.

Lemma main_is_left_empty_after_a_function_witness :
  exists c,
    (forall verifyModule,
       compile_try verifyModule
         (Some (mkProgram
                  [FunctionDeclaration "f" ["n"]
                     [ReturnStatement (Some (IdentifierExpression "n"))] false]
                  [ExpressionStatement (call_of "f" [LiteralExpression (v_int64 4)])]))
         Compiler_new
       = if verifyModule c then Throw (Compile_error "Module verification failed")
         else Ok (true, c)) /\
    currentBlock c = Some main_block /\
    block_instructions c main_block = [] /\
    getTerminator c main_block = None /\
    exists b, insert_point c = Some b /\ b <> main_block.
Proof.
  apply (main_is_left_empty_after_a_function
           (mkProgram
              [FunctionDeclaration "f" ["n"]
                 [ReturnStatement (Some (IdentifierExpression "n"))] false]
              [ExpressionStatement (call_of "f" [LiteralExpression (v_int64 4)])])).
  reflexivity.
Defined.

End CompilerMore.
